(** * Denon MC2000 controller mapping: LED manager, shift layer, jog wheels

    A shallow embedding of the stateful core of [Denon-MC2000-scripts.js]:
    the cache-aware LED manager, the shift state machine with its
    re-bindable button handlers, and the jog-wheel motion interpreter.

    Conventions.
    - JavaScript numbers are modelled as exact rationals ([Q]); integer
      valued data (MIDI bytes, deck numbers, timestamps in ms, tick counts)
      as [Z].
    - The Mixxx engine and the MIDI port are collaborators outside the
      script: each is modelled by the part of its state the script reads
      back plus a chronological log of the calls the script makes.
    - The two decks are the groups "[Channel1]" and "[Channel2]". *)

From Stdlib Require Import ZArith QArith Qminmax Lia Lqa Ascii.
From stdpp Require Import gmap strings list pretty.

Local Open Scope Z_scope.

(** ** The two decks *)

Inductive unit_id : Type := Channel1 | Channel2.

#[global] Instance unit_id_eq_dec : EqDecision unit_id.
Proof. solve_decision. Defined.

(** The group string the MIDI mapping passes to every handler of a deck. *)
Definition group (u : unit_id) : string :=
  match u with Channel1 => "[Channel1]" | Channel2 => "[Channel2]" end.

(** [MC2000.deckIndex(group)] *)
Definition deckIndex (u : unit_id) : Z :=
  match u with Channel1 => 1 | Channel2 => 2 end.

(** Per-deck script state: the objects keyed by group name and the
    three-element arrays indexed by deck number (index 0 unused). *)
Record PerDeck (A : Type) : Type := { deck1 : A; deck2 : A }.
Arguments deck1 {A} _.
Arguments deck2 {A} _.

Definition get {A} (u : unit_id) (p : PerDeck A) : A :=
  match u with Channel1 => deck1 p | Channel2 => deck2 p end.

Definition upd {A} (u : unit_id) (v : A) (p : PerDeck A) : PerDeck A :=
  match u with
  | Channel1 => {| deck1 := v; deck2 := deck2 p |}
  | Channel2 => {| deck1 := deck1 p; deck2 := v |}
  end.

Definition both {A} (v : A) : PerDeck A := {| deck1 := v; deck2 := v |}.

(** [MC2000.isButtonOn(value)] *)
Definition isButtonOn (value : Z) : bool := (value =? 0x7F) || (value =? 0x40).

(** ** JavaScript values reaching the LED manager *)

Inductive jsval : Type :=
  | JUndefined
  | JNull
  | JBool (b : bool)
  | JNum (q : Q)              (* a finite number *)
  | JNaN
  | JInfinity (negative : bool)
  | JStr (s : string)
  | JObject.                  (* any object, array or function *)

(** [status === n] for a numeric literal [n]. *)
Definition strict_eq_num (v : jsval) (n : Z) : bool :=
  match v with JNum q => Qeq_bool q (inject_Z n) | _ => false end.

(** [status === b] for a boolean literal [b]. *)
Definition strict_eq_bool (v : jsval) (b : bool) : bool :=
  match v with JBool b' => Bool.eqb b' b | _ => false end.

(** [status === s] for a string literal [s]. *)
Definition strict_eq_str (v : jsval) (s : string) : bool :=
  match v with JStr s' => String.eqb s' s | _ => false end.

Module Led.

(** [MC2000.LED_STATE] *)
Definition LED_OFF : Z := 0x4B.
Definition LED_ON : Z := 0x4A.
Definition LED_BLINK : Z := 0x4C.

(** [MC2000.leds], in source order. *)
Definition leds : list (string * Z) :=
  [ ("shiftlock", 2); ("vinylmode", 6); ("keylock", 8); ("sync", 9);
    ("cue1", 17); ("cue2", 19); ("cue3", 21); ("cue4", 23);
    ("samp1_l", 25); ("samp2_l", 27); ("samp3_l", 29); ("samp4_l", 32);
    ("samples_l", 35); ("samp1_r", 65); ("samp2_r", 67); ("samp3_r", 69);
    ("samp4_r", 71); ("samples_r", 73); ("cue", 38); ("play", 39);
    ("loopin", 0x24); ("loopout", 0x40); ("autoloop", 0x2b);
    ("fx1_1", 0x5c); ("fx1_2", 0x5d); ("fx1_3", 0x5e);
    ("fx2_1", 0x60); ("fx2_2", 0x61); ("fx2_3", 0x62);
    ("monitorcue_l", 69); ("monitorcue_r", 81);
    ("sampler1", 0x19); ("sampler2", 0x1b); ("sampler3", 0x1d);
    ("sampler4", 0x20); ("sampler5", 0x41); ("sampler6", 0x43);
    ("sampler7", 0x45); ("sampler8", 0x47); ("samplemode", 0x1A) ]%string.

(** *** The name heuristics of [LED_MAP]'s construction *)

Definition ascii_lower (c : ascii) : ascii :=
  let n := N_of_ascii c in
  if ((65 <=? n) && (n <=? 90))%N then ascii_of_N (n + 32) else c.

Fixpoint string_lower (s : string) : string :=
  match s with
  | EmptyString => EmptyString
  | String c r => String (ascii_lower c) (string_lower r)
  end.

(** [/suffix$/i.test(name)] for a lower-case literal [suffix]. *)
Definition ends_with_ci (suffix name : string) : bool :=
  let n := String.length name in
  let m := String.length suffix in
  (m <=? n)%nat &&
  String.eqb (string_lower (String.substring (n - m) m name)) suffix.

(** [/^sampler[lo-hi]$/.test(name)] *)
Definition is_sampler_in (lo hi : N) (name : string) : bool :=
  match name with
  | String "s" (String "a" (String "m" (String "p" (String "l"
      (String "e" (String "r" (String d EmptyString))))))) =>
      ((lo <=? N_of_ascii d) && (N_of_ascii d <=? hi))%N
  | _ => false
  end.

Record LedDef := { code : Z; decks : list Z }.

Definition deck_affinity (name : string) : list Z :=
  if ends_with_ci "_l" name || ends_with_ci "monitorcue_l" name then [1]
  else if ends_with_ci "_r" name || ends_with_ci "monitorcue_r" name then [2]
  else if is_sampler_in 49 52 name then [1]
  else if is_sampler_in 53 56 name then [2]
  else [1; 2].

Definition LED_MAP : list (string * LedDef) :=
  map (fun '(name, c) => (name, {| code := c; decks := deck_affinity name |}))
      leds.

Fixpoint own_property {A} (name : string) (o : list (string * A)) : option A :=
  match o with
  | [] => None
  | (k, v) :: r => if String.eqb k name then Some v else own_property name r
  end.

(** [LED_MAP] is created as the literal [{}], so a read [LED_MAP[name]] that
    finds no own property continues in [Object.prototype]; every property
    found there is an object or a function: truthy, and without [code] or
    [decks] properties of its own. *)
Definition object_prototype_properties : list string :=
  [ "constructor"; "hasOwnProperty"; "isPrototypeOf"; "propertyIsEnumerable";
    "toLocaleString"; "toString"; "valueOf"; "__proto__";
    "__defineGetter__"; "__defineSetter__";
    "__lookupGetter__"; "__lookupSetter__" ]%string.

Inductive property :=
  | OwnDef (def : LedDef)   (* an entry built from [MC2000.leds] *)
  | Inherited               (* found on [Object.prototype] *)
  | Undefined.              (* [undefined] *)

Definition LED_MAP_get (name : string) : property :=
  match own_property name LED_MAP with
  | Some def => OwnDef def
  | None =>
      if existsb (String.eqb name) object_prototype_properties
      then Inherited else Undefined
  end.

(** The third argument of [send]: [def.code], a number for a table entry and
    [undefined] for an inherited property. *)
Inductive jscode := Code (c : Z) | CodeUndefined.

#[global] Instance jscode_eq_dec : EqDecision jscode.
Proof. solve_decision. Defined.

Definition code_to_string (c : jscode) : string :=
  match c with Code c => pretty c | CodeUndefined => "undefined" end.

(** [normalize(status)] *)
Definition normalize (status : jsval) : Z :=
  if strict_eq_num status 0 || strict_eq_bool status false
     || strict_eq_str status "off" then LED_OFF
  else if strict_eq_num status 2 || strict_eq_str status "blink" then LED_BLINK
  else LED_ON.

(** [key(deck, code)]: [deck + '|' + code] *)
Definition key (deck : Z) (c : jscode) : string :=
  pretty deck +:+ "|" +:+ code_to_string c.

(** One [midi.sendShortMsg(status, byte1, byte2)] call. *)
Record midi_msg := MidiMsg { m_status : Z; m_byte1 : Z; m_byte2 : jscode }.

Record State := {
  cache : gmap string Z;       (* key: deck|code -> status byte *)
  midi_out : list midi_msg     (* device writes, oldest first *)
}.

Definition init : State := {| cache := ∅; midi_out := [] |}.

(** [send(deck, code, statusByte)] *)
Definition send (deck : Z) (c : jscode) (statusByte : Z) (st : State) : State :=
  let k := key deck c in
  if decide (cache st !! k = Some statusByte) then st
  else {| cache := <[k := statusByte]> (cache st);
          midi_out := midi_out st ++ [MidiMsg (0xB0 + (deck - 1)) statusByte c] |}.

(** The outcome of a call that may throw. *)
Inductive outcome :=
  | Returns (st : State)
  | TypeError.     (* [decks.forEach] with [decks] undefined *)

(** [opts && opts.deck]: [None] when [opts] is missing, has no [deck], or
    its [deck] is the falsy number 0. *)
Definition opts_deck (opts : option Z) : option Z :=
  match opts with
  | Some d => if d =? 0 then None else Some d
  | None => None
  end.

(** The shared body of [set] and [setRaw] once the status byte is known. *)
Definition write_led (name : string) (statusByte : Z) (opts : option Z)
    (st : State) : outcome :=
  match LED_MAP_get name with
  | Undefined => Returns st
  | OwnDef def =>
      let ds := match opts_deck opts with Some d => [d] | None => decks def end in
      Returns (foldl (fun s d => send d (Code (code def)) statusByte s) st ds)
  | Inherited =>
      match opts_deck opts with
      | Some d => Returns (send d CodeUndefined statusByte st)
      | None => TypeError
      end
  end.

(** [LedManager.set(name, status, opts)] *)
Definition set (name : string) (status : jsval) (opts : option Z)
    (st : State) : outcome :=
  write_led name (normalize status) opts st.

(** [LedManager.setRaw(name, statusByte, opts)] *)
Definition setRaw (name : string) (statusByte : Z) (opts : option Z)
    (st : State) : outcome :=
  write_led name statusByte opts st.

(** [LedManager.reflect(name, value, opts)] with [value] already reduced to
    its truthiness. *)
Definition reflect (name : string) (value : bool) (opts : option Z)
    (st : State) : outcome :=
  set name (JStr (if value then "on" else "off")) opts st.

(** The state a call leaves behind; a call that throws leaves the state it
    was entered with. *)
Definition state_after (o : outcome) (entered : State) : State :=
  match o with Returns st => st | TypeError => entered end.

(** *** The remaining operations of the manager *)

(** [LedManager.raw(deck, code, status)] *)
Definition raw (deck code : Z) (status : jsval) (st : State) : State :=
  send deck (Code code) (normalize status) st.

(** [LedManager.reflectAlt(name, value, opts)] with [value] already reduced
    to its truthiness. *)
Definition reflectAlt (name : string) (value : bool) (opts : option Z)
    (st : State) : outcome :=
  setRaw name (if value then 0x50 else 0x51) opts st.

(** The outcome of a call made of several [set] calls: it finishes, or one
    of them throws and the writes made before it stay. *)
Inductive result :=
  | Finished (st : State)
  | Thrown (st : State).

Definition state_of (r : result) : State :=
  match r with Finished st => st | Thrown st => st end.

(** A single [set] or [setRaw] throws before it writes anything. *)
Definition result_of (o : outcome) (entered : State) : result :=
  match o with Returns st => Finished st | TypeError => Thrown entered end.

(** [LedManager.bulk(map)], the entries of [map] in [Object.keys] order. *)
Fixpoint bulk (entries : list (string * jsval)) (st : State) : result :=
  match entries with
  | [] => Finished st
  | (n, status) :: rest =>
      match set n status None st with
      | Returns st' => bulk rest st'
      | TypeError => Thrown st
      end
  end.

(** The map [resetDefaults] builds: every name of [LED_MAP] to 'off'. *)
Definition offMap : list (string * jsval) :=
  map (fun '(n, _) => (n, JStr "off")) LED_MAP.

(** [LedManager.resetDefaults()] *)
Definition resetDefaults (st : State) : result :=
  match bulk offMap st with
  | Finished st' => result_of (set "vinylmode" (JStr "on") None st') st'
  | Thrown st' => Thrown st'
  end.

(** A call of the manager's interface. *)
Inductive call :=
  | CallSet (name : string) (status : jsval) (opts : option Z)
  | CallSetRaw (name : string) (statusByte : Z) (opts : option Z)
  | CallReflect (name : string) (value : bool) (opts : option Z)
  | CallReflectAlt (name : string) (value : bool) (opts : option Z)
  | CallRaw (deck code : Z) (status : jsval)
  | CallBulk (entries : list (string * jsval))
  | CallResetDefaults.

Definition exec (c : call) (st : State) : result :=
  match c with
  | CallSet n s o => result_of (set n s o st) st
  | CallSetRaw n b o => result_of (setRaw n b o st) st
  | CallReflect n v o => result_of (reflect n v o st) st
  | CallReflectAlt n v o => result_of (reflectAlt n v o st) st
  | CallRaw d c s => Finished (raw d c s st)
  | CallBulk es => bulk es st
  | CallResetDefaults => resetDefaults st
  end.

(** A sequence of calls, each made by its own event handler: a call that
    throws ends its handler and the next call finds the state it left. *)
Definition run (cs : list call) (st : State) : State :=
  foldl (fun s c => state_of (exec c s)) st cs.

(** *** Vocabulary of the properties *)

(** The statuses the first test of [normalize] accepts. *)
Definition off_status (s : jsval) : Prop :=
  (exists q, s = JNum q /\ (q == 0)%Q) \/ s = JBool false \/ s = JStr "off".

(** The statuses the second test of [normalize] accepts. *)
Definition blink_status (s : jsval) : Prop :=
  (exists q, s = JNum q /\ (q == 2)%Q) \/ s = JStr "blink".

(** Strings made of decimal digits and the minus sign. *)
Fixpoint numeric (s : string) : bool :=
  match s with
  | EmptyString => true
  | String c r =>
      let n := N_of_ascii c in
      (((48 <=? n) && (n <=? 57)) || (n =? 45))%N && numeric r
  end.

(** One [send]: deck, code and status byte. *)
Definition write : Type := Z * jscode * Z.

Definition apply_sends (ws : list write) (st : State) : State :=
  foldl (fun s '(d, c, b) => send d c b s) st ws.

(** The cache key a write goes to. *)
Definition write_key (w : write) : string :=
  let '(d, c, _) := w in key d c.

(** The byte of the last write of [ws] that goes to key [k], if any. *)
Fixpoint last_write (k : string) (ws : list write) : option Z :=
  match ws with
  | [] => None
  | w :: r =>
      match last_write k r with
      | Some b => Some b
      | None => if String.eqb (write_key w) k then Some (snd w) else None
      end
  end.

(** The device messages [ws] gives rise to when entered with cache [m]. *)
Fixpoint emitted (ws : list write) (m : gmap string Z) : list midi_msg :=
  match ws with
  | [] => []
  | (d, c, b) :: r =>
      if decide (m !! key d c = Some b) then emitted r m
      else MidiMsg (0xB0 + (d - 1)) b c :: emitted r (<[key d c := b]> m)
  end.

(** The writes of a [set] or [setRaw] on a table entry. *)
Definition def_writes (def : LedDef) (b : Z) (opts : option Z) : list write :=
  map (fun d => (d, Code (code def), b))
      (match opts_deck opts with Some d => [d] | None => decks def end).

(** The writes [resetDefaults] makes. *)
Definition reset_writes : list write :=
  flat_map (fun '(_, def) => def_writes def LED_OFF None) LED_MAP
  ++ [(1, Code 6, LED_ON); (2, Code 6, LED_ON)].

(** The message is addressed to LED [c] of deck [d]. *)
Definition addressed (d : Z) (c : jscode) (m : midi_msg) : Prop :=
  m_status m = 0xB0 + (d - 1) /\ m_byte2 m = c.

(** The status bytes the device received for LED [c] of deck [d], oldest
    first. *)
Definition bytes_for (d : Z) (c : jscode) (log : list midi_msg) : list Z :=
  map m_byte1 (filter (addressed d c) log).

(** The writes of [bulk] when no [set] throws. *)
Definition bulk_writes (entries : list (string * jsval)) : list write :=
  flat_map (fun e =>
              match LED_MAP_get (fst e) with
              | OwnDef def => def_writes def (normalize (snd e)) None
              | _ => []
              end) entries.

(** A map whose names are all table names or unknown names: none is a
    property name inherited from [Object.prototype]. *)
Definition plain_names (entries : list (string * jsval)) : Prop :=
  Forall (fun e => LED_MAP_get (fst e) <> Inherited) entries.

(** The byte [resetDefaults] leaves for LED [name]. *)
Definition default_byte (name : string) : Z :=
  if String.eqb name "vinylmode" then LED_ON else LED_OFF.

(** No two neighbours of the list are equal. *)
Fixpoint steady (l : list Z) : Prop :=
  match l with
  | a :: r => match r with b :: _ => a <> b | [] => True end /\ steady r
  | [] => True
  end.

(** The cache holds, for every LED of every deck, the last byte the device
    received for it, and the device never received the same byte twice in a
    row for one LED. *)
Definition faithful (st : State) : Prop :=
  forall d c,
    cache st !! key d c = last (bytes_for d c (midi_out st)) /\
    steady (bytes_for d c (midi_out st)).

End Led.


(** ** Shift state machine and re-bindable button handlers *)

Module Shift.

(** Which handler a component's [input] property currently refers to: the
    one the constructor leaves there, or the one [shift()] installs. For the
    cue button these are [originalInput] and the go-to-cue-and-play closure;
    for the other components with a shift layer [normalInput] and
    [shiftedInput]. The sync button and the beat tap button have one handler
    only, the one the constructor leaves. *)
Inductive binding : Type := NormalInput | ShiftedInput.

(** The components of one [MC2000.Deck] that [applyShiftState] goes through:
    the entries of [shiftComponents], in the order of the source, and the
    hot cue buttons. *)
Record Deck := {
  cue : binding;
  sync : binding;
  keylock : binding;
  loadTrackBtn : binding;
  pitchBendUpBtn : binding;
  pitchBendDownBtn : binding;
  loopInBtn : binding;
  loopOutBtn : binding;
  loopHalveBtn : binding;
  loopDoubleBtn : binding;
  reloopExitBtn : binding;
  beatTapBtn : binding;
  hotcueButtons : list binding
}.

(** The mode-switching controls: the components the script gives a [shift]
    and an [unshift] method, and with them two handlers. *)
Inductive control : Type :=
  | Cue | Keylock | LoadTrack | PitchBendUp | PitchBendDown
  | LoopIn | LoopOut | LoopHalve | LoopDouble | ReloopExit
  | Hotcue (index : nat).

(** [comp.input], the handler an event for [c] is dispatched to. A hot cue
    index outside the array has no component. *)
Definition input (c : control) (d : Deck) : option binding :=
  match c with
  | Cue => Some (cue d)
  | Keylock => Some (keylock d)
  | LoadTrack => Some (loadTrackBtn d)
  | PitchBendUp => Some (pitchBendUpBtn d)
  | PitchBendDown => Some (pitchBendDownBtn d)
  | LoopIn => Some (loopInBtn d)
  | LoopOut => Some (loopOutBtn d)
  | LoopHalve => Some (loopHalveBtn d)
  | LoopDouble => Some (loopDoubleBtn d)
  | ReloopExit => Some (reloopExitBtn d)
  | Hotcue i => hotcueButtons d !! i
  end.

(** What [comp.shift()] / [comp.unshift()] leave in [comp.input]. *)
Definition bound (shifted : bool) : binding :=
  if shifted then ShiftedInput else NormalInput.

(** One turn of the loops of [applyShiftState] on a component whose
    [input] refers to [current]:
    [if (shifted && comp.shift) comp.shift(); else if (comp.unshift) comp.unshift();]
    where [has_shift] and [has_unshift] say whether the component has the
    method. *)
Definition rebind (has_shift has_unshift shifted : bool) (current : binding)
    : binding :=
  if shifted && has_shift then ShiftedInput
  else if has_unshift then NormalInput
  else current.

(** [Deck.applyShiftState(shifted)]. The script defines [shift] and
    [unshift] on every listed component except [this.sync] and
    [this.beatTapBtn], which are plain library buttons and have neither. *)
Definition applyShiftState (shifted : bool) (d : Deck) : Deck :=
  {| cue := rebind true true shifted (cue d);
     sync := rebind false false shifted (sync d);
     keylock := rebind true true shifted (keylock d);
     loadTrackBtn := rebind true true shifted (loadTrackBtn d);
     pitchBendUpBtn := rebind true true shifted (pitchBendUpBtn d);
     pitchBendDownBtn := rebind true true shifted (pitchBendDownBtn d);
     loopInBtn := rebind true true shifted (loopInBtn d);
     loopOutBtn := rebind true true shifted (loopOutBtn d);
     loopHalveBtn := rebind true true shifted (loopHalveBtn d);
     loopDoubleBtn := rebind true true shifted (loopDoubleBtn d);
     reloopExitBtn := rebind true true shifted (reloopExitBtn d);
     beatTapBtn := rebind false false shifted (beatTapBtn d);
     hotcueButtons := map (rebind true true shifted) (hotcueButtons d) |}.

(** A deck as the constructor [MC2000.Deck] leaves it. *)
Definition new_Deck : Deck :=
  {| cue := NormalInput; sync := NormalInput; keylock := NormalInput;
     loadTrackBtn := NormalInput;
     pitchBendUpBtn := NormalInput; pitchBendDownBtn := NormalInput;
     loopInBtn := NormalInput; loopOutBtn := NormalInput;
     loopHalveBtn := NormalInput; loopDoubleBtn := NormalInput;
     reloopExitBtn := NormalInput; beatTapBtn := NormalInput;
     hotcueButtons := replicate 4 NormalInput |}.

(** One handler invocation: the component, the handler that received the
    event, and the MIDI value. *)
Record dispatch := Dispatch { d_control : control; d_handler : binding; d_value : Z }.

(** What a handler asks of the engine. [ComponentInput] is the call into the
    components library's own [input] (the cue button's [originalInput]). *)
Inductive engine_call : Type :=
  | SetValue (grp key : string) (v : Z)
  | ComponentInput (grp inKey : string) (value : Z).

Record State := {
  shiftHeld : bool;
  shiftLock : bool;
  decks : PerDeck Deck;
  led : Led.State;
  dispatched : list dispatch;       (* oldest first *)
  engine_log : list engine_call     (* oldest first *)
}.

Definition with_decks (f : PerDeck Deck -> PerDeck Deck) (st : State) : State :=
  {| shiftHeld := shiftHeld st; shiftLock := shiftLock st;
     decks := f (decks st); led := led st;
     dispatched := dispatched st; engine_log := engine_log st |}.

Definition with_led (l : Led.State) (st : State) : State :=
  {| shiftHeld := shiftHeld st; shiftLock := shiftLock st;
     decks := decks st; led := l;
     dispatched := dispatched st; engine_log := engine_log st |}.

Definition with_shiftHeld (b : bool) (st : State) : State :=
  {| shiftHeld := b; shiftLock := shiftLock st;
     decks := decks st; led := led st;
     dispatched := dispatched st; engine_log := engine_log st |}.

Definition with_shiftLock (b : bool) (st : State) : State :=
  {| shiftHeld := shiftHeld st; shiftLock := b;
     decks := decks st; led := led st;
     dispatched := dispatched st; engine_log := engine_log st |}.

Definition record_dispatch (x : dispatch) (calls : list engine_call)
    (st : State) : State :=
  {| shiftHeld := shiftHeld st; shiftLock := shiftLock st;
     decks := decks st; led := led st;
     dispatched := dispatched st ++ [x];
     engine_log := engine_log st ++ calls |}.

(** [MC2000.isShiftActive()] *)
Definition isShiftActive (st : State) : bool := shiftHeld st || shiftLock st.

(** [MC2000.updateShiftState()], with [MC2000.decks] built. *)
Definition updateShiftState (st : State) : State :=
  let effectiveShift := shiftHeld st || shiftLock st in
  let st :=
    with_decks (fun ds => {| deck1 := applyShiftState effectiveShift (deck1 ds);
                             deck2 := applyShiftState effectiveShift (deck2 ds) |})
               st in
  with_led
    (Led.state_after (Led.reflect "shiftlock" (shiftLock st) None (led st))
                     (led st))
    st.

(** [MC2000.toggleShift(_channel, _control, value)] *)
Definition toggleShift (value : Z) (st : State) : State :=
  updateShiftState (with_shiftHeld (isButtonOn value) st).

(** The bodies of the handlers that write engine controls without reading
    any. The other handlers (keylock, loop in, shifted loop out, reloop/exit,
    hot cues) read engine state the model does not hold; their events appear
    in the dispatch record only, and the engine log says nothing about
    them. *)
Definition handler_calls (c : control) (b : binding) (value : Z)
    (u : unit_id) : list engine_call :=
  let pressed := if isButtonOn value then 1 else 0 in
  match c, b with
  | Cue, NormalInput => [ComponentInput (group u) "cue_default" value]
  | Cue, ShiftedInput =>
      if isButtonOn value then [SetValue (group u) "cue_gotoandplay" 1] else []
  | LoadTrack, NormalInput =>
      if isButtonOn value then [SetValue (group u) "LoadSelectedTrack" 1] else []
  | LoadTrack, ShiftedInput =>
      if isButtonOn value then [SetValue (group u) "eject" 1] else []
  | PitchBendUp, NormalInput => [SetValue (group u) "rate_temp_up" pressed]
  | PitchBendUp, ShiftedInput => [SetValue (group u) "fwd" pressed]
  | PitchBendDown, NormalInput => [SetValue (group u) "rate_temp_down" pressed]
  | PitchBendDown, ShiftedInput => [SetValue (group u) "back" pressed]
  | LoopOut, NormalInput =>
      if isButtonOn value then [SetValue (group u) "loop_out" 1] else []
  | LoopHalve, NormalInput =>
      if isButtonOn value then [SetValue (group u) "loop_halve" 1] else []
  | LoopHalve, ShiftedInput =>
      if isButtonOn value then [SetValue (group u) "beatjump_1_backward" 1] else []
  | LoopDouble, NormalInput =>
      if isButtonOn value then [SetValue (group u) "loop_double" 1] else []
  | LoopDouble, ShiftedInput =>
      if isButtonOn value then [SetValue (group u) "beatjump_1_forward" 1] else []
  | _, _ => []
  end.

(** The controls both of whose handlers are given in full by
    [handler_calls]: neither handler reads the engine. *)
Definition writes_only (c : control) : bool :=
  match c with
  | Cue | LoadTrack | PitchBendUp | PitchBendDown | LoopHalve | LoopDouble => true
  | _ => false
  end.

(** [MC2000.decks[group].<component>.input(channel, control, value, ...)] *)
Definition dispatch_input (c : control) (value : Z) (u : unit_id)
    (st : State) : State :=
  match input c (get u (decks st)) with
  | Some b => record_dispatch (Dispatch c b value) (handler_calls c b value u) st
  | None => st
  end.

(** [MC2000.cueButton]: re-applies the shift state to the deck, then
    dispatches. *)
Definition cueButton (value : Z) (u : unit_id) (st : State) : State :=
  let st :=
    with_decks (fun ds => upd u (applyShiftState (isShiftActive st) (get u ds)) ds)
               st in
  dispatch_input Cue value u st.

(** The wrappers of the other shift-capable components ([keylockButton],
    [loadTrack], [pitchBendUp], ..., [hotcuePad]) dispatch directly. *)
Definition button (c : control) (value : Z) (u : unit_id) (st : State) : State :=
  match c with
  | Cue => cueButton value u st
  | _ => dispatch_input c value u st
  end.

(** [MC2000.pflButton]: PFL pressed while shift is held toggles the shift
    lock; any other PFL event goes to the PFL component, a library toggle
    button without a shifted handler. *)
Definition pflButton (value : Z) (u : unit_id) (st : State) : State :=
  if isButtonOn value && shiftHeld st
  then updateShiftState (with_shiftLock (negb (shiftLock st)) st)
  else
    {| shiftHeld := shiftHeld st; shiftLock := shiftLock st;
       decks := decks st; led := led st;
       dispatched := dispatched st;
       engine_log := engine_log st ++ [ComponentInput (group u) "pfl" value] |}.

(** The state [MC2000.buildComponents] leaves: fresh decks with the current
    shift state applied. *)
Definition built (held locked : bool) (l : Led.State) : State :=
  {| shiftHeld := held; shiftLock := locked;
     decks := both (applyShiftState (held || locked) new_Deck);
     led := l; dispatched := []; engine_log := [] |}.

(** Every binding of both decks is the one the effective shift selects. *)
Definition in_step (st : State) : Prop :=
  forall u c b, input c (get u (decks st)) = Some b -> b = bound (isShiftActive st).

(** [MC2000.mapHotcue(midino)]: [table[midino] || -1] *)
Definition mapHotcue (midino : Z) : Z :=
  if midino =? 0x17 then 1
  else if midino =? 0x18 then 2
  else if midino =? 0x19 then 3
  else if midino =? 0x20 then 4
  else -1.

(** [MC2000.hotcuePad] with the deck's [hotcueInput]. *)
Definition hotcuePad (control value : Z) (u : unit_id) (st : State) : State :=
  let n := mapHotcue control in
  if (n <? 1) || (4 <? n) then st
  else
    match hotcueButtons (get u (decks st)) !! Z.to_nat (n - 1) with
    | Some _ => dispatch_input (Hotcue (Z.to_nat (n - 1))) value u st
    | None => st
    end.

(** The events of the shift layer. *)
Inductive event : Type :=
  | ShiftButton (value : Z)
  | PflButton (value : Z) (u : unit_id)
  | ControlButton (c : control) (value : Z) (u : unit_id)
  | HotcuePad (control value : Z) (u : unit_id).

Definition handle (e : event) (st : State) : State :=
  match e with
  | ShiftButton v => toggleShift v st
  | PflButton v u => pflButton v u st
  | ControlButton c v u => button c v u st
  | HotcuePad n v u => hotcuePad n v u st
  end.

Definition run (es : list event) (st : State) : State :=
  foldl (fun s e => handle e s) st es.

(** Both decks have their four hot cue buttons, and every binding is the one
    the effective shift selects. *)
Definition well_built (st : State) : Prop :=
  in_step st /\
  forall u, length (hotcueButtons (get u (decks st))) = 4%nat.

(** The shift-lock LED shows the shift lock on both decks. *)
Definition lock_shown (st : State) : Prop :=
  forall d, d = 1 \/ d = 2 ->
    Led.cache (led st) !! Led.key d (Led.Code 2)
    = Some (if shiftLock st then Led.LED_ON else Led.LED_OFF).

End Shift.

(** ** Jog-wheel motion interpreter *)

Module Jog.

Local Open Scope Q_scope.

(** *** Tunable constants *)

Definition jogResolution : Z := 96.
Definition jogRpm : Q := 33 + 1 / 3.
Definition jogScratchAlpha : Q := 1 / 16.
Definition jogScratchBeta : Q := (1 / 16) / 64.
Definition jogMaxScaling : Q := 125 # 100.          (* 1.25 *)
Definition jogScrubScaling : Q := 1 # 10000.        (* 0.0001 *)
Definition jogPitchScale : Q := 1 / 4.
Definition jogCenter : Z := 0x40.

(** *** The engine port *)

(** The effectful calls the jog handlers make, in the order made. *)
Inductive engine_call : Type :=
  | SetValue (grp key : string) (v : Q)
  | ScratchEnable (deck : Z) (resolution : Z) (rpm alpha beta : Q)
  | ScratchTick (deck : Z) (delta : Q)
  | ScratchDisable (deck : Z)
  | BeginTimer (delay : Z) (handle : Z)
  | StopTimer (handle : Z).

(** An armed one-shot timer. The only callback the jog handlers schedule is
    the idle release of one deck, so the closure is its deck. *)
Record timer := Timer { t_handle : Z; t_due : Z; t_unit : unit_id }.

Record State := {
  jogScratchActive : PerDeck bool;
  jogReleaseTimer : PerDeck (option Z);     (* [null] or a timer handle *)
  jogLastTickTime : PerDeck Z;
  jogTickCount : PerDeck Z;
  scratchMode : PerDeck bool;               (* [MC2000.deck[group].scratchMode] *)
  controls : gmap (string * string) Q;      (* engine control values *)
  timers : list timer;                      (* armed timers, oldest first *)
  next_handle : Z;                          (* the handle [beginTimer] returns next *)
  engine_log : list engine_call             (* oldest first *)
}.

Definition set_jogScratchActive (v : PerDeck bool) (st : State) : State :=
  {| jogScratchActive := v; jogReleaseTimer := jogReleaseTimer st;
     jogLastTickTime := jogLastTickTime st; jogTickCount := jogTickCount st;
     scratchMode := scratchMode st; controls := controls st;
     timers := timers st; next_handle := next_handle st;
     engine_log := engine_log st |}.

Definition set_jogReleaseTimer (v : PerDeck (option Z)) (st : State) : State :=
  {| jogScratchActive := jogScratchActive st; jogReleaseTimer := v;
     jogLastTickTime := jogLastTickTime st; jogTickCount := jogTickCount st;
     scratchMode := scratchMode st; controls := controls st;
     timers := timers st; next_handle := next_handle st;
     engine_log := engine_log st |}.

Definition set_jogLastTickTime (v : PerDeck Z) (st : State) : State :=
  {| jogScratchActive := jogScratchActive st; jogReleaseTimer := jogReleaseTimer st;
     jogLastTickTime := v; jogTickCount := jogTickCount st;
     scratchMode := scratchMode st; controls := controls st;
     timers := timers st; next_handle := next_handle st;
     engine_log := engine_log st |}.

Definition set_jogTickCount (v : PerDeck Z) (st : State) : State :=
  {| jogScratchActive := jogScratchActive st; jogReleaseTimer := jogReleaseTimer st;
     jogLastTickTime := jogLastTickTime st; jogTickCount := v;
     scratchMode := scratchMode st; controls := controls st;
     timers := timers st; next_handle := next_handle st;
     engine_log := engine_log st |}.

Definition set_scratchMode (v : PerDeck bool) (st : State) : State :=
  {| jogScratchActive := jogScratchActive st; jogReleaseTimer := jogReleaseTimer st;
     jogLastTickTime := jogLastTickTime st; jogTickCount := jogTickCount st;
     scratchMode := v; controls := controls st;
     timers := timers st; next_handle := next_handle st;
     engine_log := engine_log st |}.

(** The engine's side of a call: new control values, new timer table, next
    handle, and the call appended to the log. *)
Definition engine (c : gmap (string * string) Q) (ts : list timer) (n : Z)
    (call : engine_call) (st : State) : State :=
  {| jogScratchActive := jogScratchActive st; jogReleaseTimer := jogReleaseTimer st;
     jogLastTickTime := jogLastTickTime st; jogTickCount := jogTickCount st;
     scratchMode := scratchMode st; controls := c;
     timers := ts; next_handle := n;
     engine_log := engine_log st ++ [call] |}.

(** [engine.getValue(group, key)] *)
Definition getValue (grp key : string) (st : State) : Q :=
  default 0 (controls st !! (grp, key)).

(** [engine.setValue(group, key, v)] *)
Definition setValue (grp key : string) (v : Q) (st : State) : State :=
  engine (<[(grp, key) := v]> (controls st)) (timers st) (next_handle st)
         (SetValue grp key v) st.

(** [engine.scratchEnable], [engine.scratchTick], [engine.scratchDisable] *)
Definition scratchEnable (deck : Z) (res : Z) (rpm alpha beta : Q)
    (st : State) : State :=
  engine (controls st) (timers st) (next_handle st)
         (ScratchEnable deck res rpm alpha beta) st.

Definition scratchTick (deck : Z) (delta : Q) (st : State) : State :=
  engine (controls st) (timers st) (next_handle st) (ScratchTick deck delta) st.

Definition scratchDisable (deck : Z) (st : State) : State :=
  engine (controls st) (timers st) (next_handle st) (ScratchDisable deck) st.

(** [engine.beginTimer(delay, callback, true)] at time [now]: arms a one-shot
    timer under a fresh handle and returns the handle. *)
Definition beginTimer (now delay : Z) (u : unit_id) (st : State) : Z * State :=
  let h := next_handle st in
  (h, engine (controls st) (timers st ++ [Timer h (now + delay) u]) (h + 1)
             (BeginTimer delay h) st).

(** [engine.stopTimer(handle)] *)
Definition stopTimer (h : Z) (st : State) : State :=
  engine (controls st)
         (filter (fun t => t_handle t ≠ h) (timers st))
         (next_handle st) (StopTimer h) st.

(** *** The handlers *)

(** The signed movement both handlers compute from the raw value. *)
Definition movement_of (value : Z) : Z :=
  let movement := (value - jogCenter)%Z in
  let movement := if (64 <? movement)%Z then (movement - 128)%Z else movement in
  if (movement <? -64)%Z then (movement + 128)%Z else movement.

(** [Math.min(1 + jogTickCount / 10, jogMaxScaling)] *)
Definition speedFactor (tickCount : Z) : Q :=
  Qmin (1 + inject_Z tickCount / 10) jogMaxScaling.

(** The tick counter after the spin-detection block of [jogTouch]. *)
Definition next_tick_count (now : Z) (u : unit_id) (st : State) : Z :=
  let timeDiff := (now - get u (jogLastTickTime st))%Z in
  ((if (150 <? timeDiff)%Z then 0 else get u (jogTickCount st)) + 1)%Z.

(** The idle-release callback scheduled by [jogTouch] for deck [u]. *)
Definition release (u : unit_id) (st : State) : State :=
  let st := scratchDisable (deckIndex u) st in
  let st := set_jogScratchActive (upd u false (jogScratchActive st)) st in
  let st := set_scratchMode (upd u false (scratchMode st)) st in
  let st := setValue (group u) "slip_enabled" 0 st in
  set_jogReleaseTimer (upd u None (jogReleaseTimer st)) st.

(** The scratch branch of [jogTouch] (the deck is playing). *)
Definition scratch (now : Z) (movement : Z) (factor : Q) (u : unit_id)
    (st : State) : State :=
  let st :=
    if get u (jogScratchActive st) then st
    else
      let slipEnabled := getValue (group u) "slip_enabled" st in
      let st := if Qeq_bool slipEnabled 0
                then setValue (group u) "slip_enabled" 1 st else st in
      let st := scratchEnable (deckIndex u) jogResolution jogRpm
                              jogScratchAlpha jogScratchBeta st in
      let st := set_jogScratchActive (upd u true (jogScratchActive st)) st in
      set_scratchMode (upd u true (scratchMode st)) st in
  let st := scratchTick (deckIndex u) (inject_Z movement * factor) st in
  let st :=
    match get u (jogReleaseTimer st) with
    | Some h =>
        set_jogReleaseTimer (upd u None (jogReleaseTimer st)) (stopTimer h st)
    | None => st
    end in
  let '(h, st) := beginTimer now 50 u st in
  set_jogReleaseTimer (upd u (Some h) (jogReleaseTimer st)) st.

(** The play position the scrub branch writes. *)
Definition scrub_position (pos : Q) (movement : Z) (effectiveScaling : Q) : Q :=
  let pos := pos + inject_Z movement * effectiveScaling * jogScrubScaling in
  let pos := if Qlt_le_dec pos 0 then 0 else pos in
  if Qlt_le_dec 1 pos then 1 else pos.

(** The scrub branch of [jogTouch] (the deck is not playing). *)
Definition scrub (movement : Z) (factor : Q) (u : unit_id) (st : State) : State :=
  let effectiveScaling :=
    if (3 <? get u (jogTickCount st))%Z then factor else 1 in
  let pos := getValue (group u) "playposition" st in
  setValue (group u) "playposition"
           (scrub_position pos movement effectiveScaling) st.

(** [MC2000.jogTouch(channel, control, value, status, group)], called when
    [Date.now()] is [now]. *)
Definition jogTouch (now : Z) (value : Z) (u : unit_id) (st : State) : State :=
  let movement := movement_of value in
  if (movement =? 0)%Z then st
  else
    let count := next_tick_count now u st in
    let st := set_jogTickCount (upd u count (jogTickCount st)) st in
    let st := set_jogLastTickTime (upd u now (jogLastTickTime st)) st in
    let factor := speedFactor (get u (jogTickCount st)) in
    let isPlaying := Qeq_bool (getValue (group u) "play" st) 1 in
    if isPlaying then scratch now movement factor u st
    else scrub movement factor u st.

(** [MC2000.jogWheel(channel, control, value, status, group)] *)
Definition jogWheel (now : Z) (value : Z) (u : unit_id) (st : State) : State :=
  let movement := movement_of value in
  if (movement =? 0)%Z then st
  else if get u (jogScratchActive st) then jogTouch now value u st
  else setValue (group u) "jog" (inject_Z movement * jogPitchScale) st.

(** *** Timer delivery *)

(** A one-shot timer fires: the engine drops it and runs its callback. *)
Definition fire (t : timer) (st : State) : State :=
  release (t_unit t)
    {| jogScratchActive := jogScratchActive st;
       jogReleaseTimer := jogReleaseTimer st;
       jogLastTickTime := jogLastTickTime st; jogTickCount := jogTickCount st;
       scratchMode := scratchMode st; controls := controls st;
       timers := filter (fun t' => t_handle t' ≠ t_handle t) (timers st);
       next_handle := next_handle st;
       engine_log := engine_log st |}.

(** The timers that have run out at time [now], oldest first. *)
Definition due (now : Z) (st : State) : list timer :=
  filter (fun t => (t_due t <= now)%Z) (timers st).

(** Time passes up to [now]: every timer that has run out fires. *)
Definition advance (now : Z) (st : State) : State :=
  foldl (fun s t => fire t s) st (due now st).

(** A wheel event of a timeline. *)
Inductive wheel := Touch | Wheel.

Record event := Event { e_time : Z; e_wheel : wheel; e_value : Z; e_unit : unit_id }.

Definition handle (e : event) (st : State) : State :=
  match e_wheel e with
  | Touch => jogTouch (e_time e) (e_value e) (e_unit e) st
  | Wheel => jogWheel (e_time e) (e_value e) (e_unit e) st
  end.

(** The script runs a timeline: before each event is handled, the timers
    that ran out by then have fired. *)
Definition run (es : list event) (st : State) : State :=
  foldl (fun s e => handle e (advance (e_time e) s)) st es.

(** The script's state at load time, over given engine control values. *)
Definition init (c : gmap (string * string) Q) : State :=
  {| jogScratchActive := both false; jogReleaseTimer := both None;
     jogLastTickTime := both 0%Z; jogTickCount := both 0%Z;
     scratchMode := both false; controls := c;
     timers := []; next_handle := 1%Z; engine_log := [] |}.

(** The play positions written by the calls of a log. *)
Definition playposition_writes (log : list engine_call) : list Q :=
  omap (fun c => match c with
                 | SetValue _ key v =>
                     if String.eqb key "playposition" then Some v else None
                 | _ => None
                 end) log.

(** *** Vocabulary of the properties *)

(** The deck is playing: [engine.getValue(group, "play") === 1]. *)
Definition playing (u : unit_id) (st : State) : Prop :=
  getValue (group u) "play" st == 1.

(** What entering scratch mode adds to the engine log. *)
Definition entry_calls (u : unit_id) (st : State) : list engine_call :=
  (if Qeq_bool (getValue (group u) "slip_enabled" st) 0
   then [SetValue (group u) "slip_enabled" 1] else [])
  ++ [ScratchEnable (deckIndex u) jogResolution jogRpm
                    jogScratchAlpha jogScratchBeta].

(** What re-arming the release timer adds to the engine log. *)
Definition rearm_calls (u : unit_id) (st : State) : list engine_call :=
  match get u (jogReleaseTimer st) with
  | Some h => [StopTimer h]
  | None => []
  end ++ [BeginTimer 50 (next_handle st)].

(** The armed timers whose callback releases deck [u]. *)
Definition unit_timers (u : unit_id) (st : State) : list timer :=
  filter (fun t => t_unit t = u) (timers st).

(** The handle slot of deck [u] names exactly the armed timer of [u]. *)
Definition slot_agrees (u : unit_id) (st : State) : Prop :=
  match get u (jogReleaseTimer st) with
  | Some h => exists d, unit_timers u st = [Timer h d u]
  | None => unit_timers u st = []
  end.

(** The script's handle slots and the engine's timer table agree, and the
    engine hands out fresh handles. *)
Definition consistent (st : State) : Prop :=
  (forall t, t ∈ timers st -> (t_handle t < next_handle st)%Z) /\
  NoDup (t_handle <$> timers st) /\
  forall u, slot_agrees u st.

(** The part of the state that belongs to deck [u] is the same in both
    states. *)
Definition same_unit (u : unit_id) (st st' : State) : Prop :=
  get u (jogScratchActive st') = get u (jogScratchActive st) /\
  get u (scratchMode st') = get u (scratchMode st) /\
  get u (jogReleaseTimer st') = get u (jogReleaseTimer st) /\
  unit_timers u st' = unit_timers u st /\
  forall key, controls st' !! (group u, key) = controls st !! (group u, key).

(** What the idle-release callbacks of the timers [ts] add to the engine
    log when they fire in this order. *)
Definition release_calls (ts : list timer) : list engine_call :=
  ts ≫= (fun t => [ScratchDisable (deckIndex (t_unit t));
                   SetValue (group (t_unit t)) "slip_enabled" 0]).

(** Deck [u] is in SCRATCHING with its release timer armed at time [last]. *)
Definition scratching (u : unit_id) (last : Z) (st : State) : Prop :=
  get u (jogScratchActive st) = true /\
  exists h, get u (jogReleaseTimer st) = Some h /\
            unit_timers u st = [Timer h (last + 50) u].

(** Deck [u] is back in IDLE. *)
Definition idle (u : unit_id) (st : State) : Prop :=
  get u (jogScratchActive st) = false /\
  get u (scratchMode st) = false /\
  get u (jogReleaseTimer st) = None /\
  unit_timers u st = [] /\
  getValue (group u) "slip_enabled" st == 0.

(** Every event of [es] comes less than 50 ms after the latest tick of deck
    [u] before it ([last] at the start), and every event of deck [u] is a
    tick, that is, has a non-zero movement. *)
Fixpoint rapid (u : unit_id) (last : Z) (es : list event) : Prop :=
  match es with
  | [] => True
  | e :: r =>
      (e_time e < last + 50)%Z /\
      if decide (e_unit e = u)
      then movement_of (e_value e) <> 0%Z /\ rapid u (e_time e) r
      else rapid u last r
  end.

(** The time of the latest tick of deck [u] in [es], [last] if none. *)
Fixpoint last_tick (u : unit_id) (last : Z) (es : list event) : Z :=
  match es with
  | [] => last
  | e :: r => last_tick u (if decide (e_unit e = u) then e_time e else last) r
  end.

(** The state after the spin-detection block of [jogTouch]. *)
Definition ticked (now : Z) (u : unit_id) (st : State) : State :=
  set_jogLastTickTime (upd u now (jogLastTickTime st))
    (set_jogTickCount (upd u (next_tick_count now u st) (jogTickCount st)) st).

(** The log of [st'] extends that of [st], and every play position written
    in between lies in [0,1]. *)
Definition writes_clamped (st st' : State) : Prop :=
  exists new,
    engine_log st' = engine_log st ++ new /\
    Forall (fun p => 0 <= p <= 1) (playposition_writes new).

(** The timer table once the scratch branch has stopped the timer named by
    the deck's slot. *)
Definition stopped (u : unit_id) (st : State) : list timer :=
  match get u (jogReleaseTimer st) with
  | Some h => filter (fun t => t_handle t ≠ h) (timers st)
  | None => timers st
  end.

(** The two scratch flags of deck [u] agree, and the deck's timer slot is
    filled exactly while the flags are set. *)
Definition settled (u : unit_id) (st : State) : Prop :=
  get u (scratchMode st) = get u (jogScratchActive st) /\
  (get u (jogScratchActive st) = true <-> is_Some (get u (jogReleaseTimer st))).

(** The [scratchEnable] ([true]) and [scratchDisable] ([false]) calls of a
    log for the deck with index [deck], oldest first. *)
Definition scratch_calls (deck : Z) (log : list engine_call) : list bool :=
  omap (fun c => match c with
                 | ScratchEnable d _ _ _ _ => if d =? deck then Some true else None
                 | ScratchDisable d => if d =? deck then Some false else None
                 | _ => None
                 end) log.

(** Follows a sequence of enable and disable calls from the engine's scratch
    state [enabled]; [None] when an enable meets an enabled deck or a
    disable a disabled one. *)
Fixpoint track (enabled : bool) (calls : list bool) : option bool :=
  match calls with
  | [] => Some enabled
  | c :: r => if Bool.eqb c enabled then None else track c r
  end.

(** The script and the engine agree on every deck: flags and timer slot
    agree, and the engine's scratch mode, as the calls made so far leave
    it, is the deck's scratch-active flag. *)
Definition in_tune (st : State) : Prop :=
  forall u,
    settled u st /\
    track false (scratch_calls (deckIndex u) (engine_log st))
    = Some (get u (jogScratchActive st)).

End Jog.

(** ** Blinking *)

Module Blink.

(** [x || d] for an optional numeric argument: [undefined] and 0 give the
    default. *)
Definition or_default (x : option Z) (d : Z) : Z :=
  match x with
  | Some v => if v =? 0 then d else v
  | None => d
  end.

(** The closure of [LedManager.blink] together with its repeating timer:
    the captured arguments, the variables [on] and [fired], and whether the
    timer is still armed. *)
Record blinker := {
  b_name : string;
  b_opts : option Z;
  b_period : Z;
  b_cycles : Z;
  b_on : bool;
  b_fired : Z;
  b_running : bool
}.

(** [LedManager.blink(name, period, cycles, opts)] up to the return of
    [engine.beginTimer]. *)
Definition blink (name : string) (period cycles : option Z)
    (opts : option Z) : blinker :=
  {| b_name := name; b_opts := opts;
     b_period := or_default period 500;
     b_cycles := or_default cycles 6;
     b_on := true; b_fired := 0; b_running := true |}.

(** The timer fires once. A stopped timer does not fire; when [set] throws,
    the callback ends there, before [on] and [fired] change. *)
Definition fire (b : blinker) (led : Led.State) : blinker * Led.result :=
  if b_running b then
    match Led.set (b_name b) (JStr (if b_on b then "on" else "off"))
                  (b_opts b) led with
    | Led.Returns led' =>
        let fired := b_fired b + 1 in
        ({| b_name := b_name b; b_opts := b_opts b;
            b_period := b_period b; b_cycles := b_cycles b;
            b_on := negb (b_on b); b_fired := fired;
            b_running := negb (b_cycles b <=? fired) |},
         Led.Finished led')
    | Led.TypeError => (b, Led.Thrown led)
    end
  else (b, Led.Finished led).

(** [n] periods pass. *)
Fixpoint fire_n (n : nat) (b : blinker) (led : Led.State) : blinker * Led.State :=
  match n with
  | O => (b, led)
  | S k => let '(b', r) := fire b led in fire_n k b' (Led.state_of r)
  end.

(** [MC2000.blinkShiftLock(durationMs)], with the timer interface present;
    [None] stands for an argument that is not a number. *)
Definition blinkShiftLock (durationMs : option Z) : blinker :=
  let durationMs :=
    match durationMs with
    | Some d => if 0 <? d then d else 2000
    | None => 2000
    end in
  let blinkInterval := 500 in
  let cycles := durationMs / blinkInterval in
  blink "shiftlock" (Some blinkInterval) (Some cycles) None.

(** The [set] calls of [n] successive flips, the first one to ON when [on]
    holds. *)
Fixpoint flips (name : string) (opts : option Z) (on : bool) (n : nat)
    : list Led.call :=
  match n with
  | O => []
  | S k => Led.CallSet name (JStr (if on then "on" else "off")) opts
           :: flips name opts (negb on) k
  end.

(** How many times the timer of [b] fires from now on. *)
Definition remaining (b : blinker) : nat :=
  if b_running b then Z.to_nat (Z.max 1 (b_cycles b - b_fired b)) else O.

End Blink.

(** ** Sync, keylock and sampler buttons *)

Module Transport.

Local Open Scope Q_scope.

(** The effectful calls these handlers make, in the order made. *)
Inductive engine_call : Type :=
  | SetValue (grp key : string) (v : Q)
  | BeginTimer (delay : Z) (handle : Z)
  | StopTimer (handle : Z).

(** An armed one-shot timer. The only callback these handlers schedule is
    the long press of one deck's sync button, so the closure is its deck. *)
Record timer := Timer { t_handle : Z; t_due : Z; t_unit : unit_id }.

Record State := {
  shiftActive : bool;                     (* what [MC2000.isShiftActive()] returns *)
  longPressTimer : PerDeck Z;             (* [decks[group].sync.longPressTimer] *)
  controls : gmap (string * string) Q;    (* engine control values *)
  timers : list timer;                    (* armed timers, oldest first *)
  next_handle : Z;                        (* the handle [beginTimer] returns next *)
  engine_log : list engine_call           (* oldest first *)
}.

Definition set_shiftActive (b : bool) (st : State) : State :=
  {| shiftActive := b; longPressTimer := longPressTimer st;
     controls := controls st; timers := timers st;
     next_handle := next_handle st; engine_log := engine_log st |}.

Definition set_longPressTimer (v : PerDeck Z) (st : State) : State :=
  {| shiftActive := shiftActive st; longPressTimer := v;
     controls := controls st; timers := timers st;
     next_handle := next_handle st; engine_log := engine_log st |}.

Definition engine (c : gmap (string * string) Q) (ts : list timer) (n : Z)
    (call : engine_call) (st : State) : State :=
  {| shiftActive := shiftActive st; longPressTimer := longPressTimer st;
     controls := c; timers := ts; next_handle := n;
     engine_log := engine_log st ++ [call] |}.

(** [engine.getValue(group, key)] *)
Definition getValue (grp key : string) (st : State) : Q :=
  default 0 (controls st !! (grp, key)).

(** [engine.setValue(group, key, v)] *)
Definition setValue (grp key : string) (v : Q) (st : State) : State :=
  engine (<[(grp, key) := v]> (controls st)) (timers st) (next_handle st)
         (SetValue grp key v) st.

(** [engine.beginTimer(delay, callback, true)] at time [now] *)
Definition beginTimer (now delay : Z) (u : unit_id) (st : State) : Z * State :=
  let h := next_handle st in
  (h, engine (controls st) (timers st ++ [Timer h (now + delay)%Z u]) (h + 1)%Z
             (BeginTimer delay h) st).

(** [engine.stopTimer(handle)] *)
Definition stopTimer (h : Z) (st : State) : State :=
  engine (controls st)
         (filter (fun t => t_handle t ≠ h) (timers st))
         (next_handle st) (StopTimer h) st.

(** A number used as a condition, and a boolean stored in a control. *)
Definition truthy (x : Q) : bool := negb (Qeq_bool x 0).
Definition of_bool (b : bool) : Q := if b then 1 else 0.

(** [script.toggleControl(group, key)] of the controller script library:
    [engine.setValue(group, key, !engine.getValue(group, key))]. *)
Definition toggleControl (grp key : string) (st : State) : State :=
  setValue grp key (of_bool (negb (truthy (getValue grp key st)))) st.

(** *** The sync button *)

Definition longPressThreshold : Z := 1000%Z.

(** [Deck.sync.input(channel, control, value, status, group)], called when
    the engine's clock is at [now]. *)
Definition sync_input (now : Z) (value : Z) (u : unit_id) (st : State) : State :=
  if isButtonOn value then
    if shiftActive st then toggleControl (group u) "sync_enabled" st
    else
      let syncEnabled := getValue (group u) "sync_enabled" st in
      if truthy syncEnabled then setValue (group u) "sync_enabled" 0 st
      else
        let '(h, st) := beginTimer now longPressThreshold u st in
        set_longPressTimer (upd u h (longPressTimer st)) st
  else
    if negb (get u (longPressTimer st) =? 0)%Z then
      let st := stopTimer (get u (longPressTimer st)) st in
      let st := set_longPressTimer (upd u 0%Z (longPressTimer st)) st in
      setValue (group u) "beatsync" 1 st
    else st.

(** The callback handed to [beginTimer]. *)
Definition long_press (u : unit_id) (st : State) : State :=
  let st := setValue (group u) "sync_enabled" 1 st in
  set_longPressTimer (upd u 0%Z (longPressTimer st)) st.

(** A one-shot timer fires: the engine drops it and runs its callback. *)
Definition fire (t : timer) (st : State) : State :=
  long_press (t_unit t)
    {| shiftActive := shiftActive st; longPressTimer := longPressTimer st;
       controls := controls st;
       timers := filter (fun t' => t_handle t' ≠ t_handle t) (timers st);
       next_handle := next_handle st; engine_log := engine_log st |}.

(** Time passes up to [now]: every timer that has run out fires, oldest
    first. *)
Definition advance (now : Z) (st : State) : State :=
  foldl (fun s t => fire t s) st
        (filter (fun t => (t_due t <= now)%Z) (timers st)).

(** *** The keylock button *)

(** [ranges] of [Deck.keylock.shiftedInput] *)
Definition ranges : list Q := [6 # 100; 10 # 100; 24 # 100; 50 # 100].

(** [l.indexOf(x)] *)
Fixpoint indexOf_from (i : Z) (l : list Q) (x : Q) : Z :=
  match l with
  | [] => (-1)%Z
  | y :: l => if Qeq_bool y x then i else indexOf_from (i + 1)%Z l x
  end.

Definition indexOf (l : list Q) (x : Q) : Z := indexOf_from 0%Z l x.

(** [l[i]]: [None] stands for [undefined]. *)
Definition index (l : list Q) (i : Z) : option Q :=
  if (i <? 0)%Z then None else l !! Z.to_nat i.

(** [ranges[nextIndex]] for the current range. *)
Definition next_range (currentRange : Q) : option Q :=
  let currentIndex := indexOf ranges currentRange in
  let nextIndex := Z.rem (currentIndex + 1)%Z (Z.of_nat (length ranges)) in
  index ranges nextIndex.

(** [Deck.keylock.normalInput] *)
Definition keylock_normalInput (value : Z) (u : unit_id) (st : State) : State :=
  if negb (isButtonOn value) then st
  else setValue (group u) "keylock"
                (of_bool (negb (truthy (getValue (group u) "keylock" st)))) st.

(** [Deck.keylock.shiftedInput]; the array read is never out of range, so
    the handler always has a number to write. *)
Definition keylock_shiftedInput (value : Z) (u : unit_id) (st : State) : State :=
  if negb (isButtonOn value) then st
  else
    match next_range (getValue (group u) "rateRange" st) with
    | Some r => setValue (group u) "rateRange" r st
    | None => st
    end.

(** *** The sampler pads *)

(** [MC2000.samplerMidiMap[control]] *)
Definition samplerMidiMap (control : Z) : option Z :=
  if (control =? 0x21)%Z then Some 1%Z
  else if (control =? 0x22)%Z then Some 2%Z
  else if (control =? 0x23)%Z then Some 3%Z
  else if (control =? 0x24)%Z then Some 4%Z
  else if (control =? 0x31)%Z then Some 5%Z
  else if (control =? 0x32)%Z then Some 6%Z
  else if (control =? 0x33)%Z then Some 7%Z
  else if (control =? 0x34)%Z then Some 8%Z
  else None.

(** ["[Sampler" + samplerNum + "]"] *)
Definition sampler_group (samplerNum : Z) : string :=
  "[Sampler" +:+ pretty samplerNum +:+ "]".

(** [SamplerDeck.playButton.input(channel, control, value, status, group)] *)
Definition playButton_input (value : Z) (grp : string) (st : State) : State :=
  if negb (isButtonOn value) then st
  else if truthy (getValue grp "play" st) then setValue grp "play" 0 st
  else setValue grp "cue_gotoandplay" 1 st.

(** [MC2000.samplerPlayButtonGeneric(channel, control, value, status)], with
    [MC2000.samplers] built. *)
Definition samplerPlayButtonGeneric (control value : Z) (st : State) : State :=
  match samplerMidiMap control with
  | None => st
  | Some samplerNum =>
      if (samplerNum =? 0)%Z then st
      else
        let grp := sampler_group samplerNum in
        if negb (isButtonOn value) then st
        else if shiftActive st then
          if Qeq_bool (getValue grp "track_loaded" st) 1
          then setValue grp "eject" 1 st else st
        else if Qeq_bool (getValue grp "track_loaded" st) 0
          then setValue grp "LoadSelectedTrack" 1 st
        else playButton_input value grp st
  end.

(** [SamplerDeck.deckNumber] *)
Definition sampler_deckNumber (samplerNumber : Z) : Z :=
  if (samplerNumber <=? 4)%Z then 1%Z else 2%Z.

(** [MC2000.leds[name] !== undefined]; [MC2000.leds] is an object literal,
    so the read continues in [Object.prototype]. *)
Definition leds_defined (name : string) : bool :=
  match Led.own_property name Led.leds with
  | Some _ => true
  | None => existsb (String.eqb name) Led.object_prototype_properties
  end.

(** [SamplerDeck.playButton.output(value)], with [value] reduced to its
    truthiness. *)
Definition playButton_output (samplerNumber : Z) (value : bool)
    (led : Led.State) : Led.outcome :=
  let ledName := "sampler" +:+ pretty samplerNumber in
  if leds_defined ledName
  then Led.reflect ledName value (Some (sampler_deckNumber samplerNumber)) led
  else Led.Returns led.

(** The script's state at load time, over given engine control values and
    with shift off. *)
Definition init (c : gmap (string * string) Q) : State :=
  {| shiftActive := false; longPressTimer := both 0%Z; controls := c;
     timers := []; next_handle := 1%Z; engine_log := [] |}.

(** The range a shifted keylock press leaves behind, from the range it
    finds. *)
Definition range_after (currentRange : Q) : Q :=
  match next_range currentRange with Some r => r | None => currentRange end.

(** *** Vocabulary of the properties *)

(** Nothing is armed and no long press is pending. *)
Definition at_rest (st : State) : Prop :=
  timers st = [] /\ (0 < next_handle st)%Z /\
  forall u, get u (longPressTimer st) = 0%Z.

(** The sync lock of deck [u] is off. *)
Definition sync_off (u : unit_id) (st : State) : Prop :=
  truthy (getValue (group u) "sync_enabled" st) = false.

(** The calls that write a control of a sampler. *)
Definition sampler_write (n : Z) (c : engine_call) : Prop :=
  exists key v, c = SetValue (sampler_group n) key v.

End Transport.

(** ** The sample-mode button *)

Module SampleMode.

Record State := {
  sampleMode : PerDeck bool;     (* [MC2000.sampleMode] *)
  led : Led.State
}.

(** [Deck.deckNumber] *)
Definition deckNumber (u : unit_id) : Z :=
  if String.eqb (group u) "[Channel1]" then 1 else 2.

(** [Deck.sampleModeToggle.output(value)], with [value] reduced to its
    truthiness. *)
Definition output (value : bool) (u : unit_id) (l : Led.State) : Led.State :=
  Led.state_after (Led.reflect "samplemode" value (Some (deckNumber u)) l) l.

(** [Deck.sampleModeToggle.input(channel, control, value, status, group)] *)
Definition input (value : Z) (u : unit_id) (st : State) : State :=
  if negb (isButtonOn value) then st
  else
    let mode := negb (get u (sampleMode st)) in
    {| sampleMode := upd u mode (sampleMode st);
       led := output mode u (led st) |}.

(** [Deck.sampleModeToggle.connect()] *)
Definition connect (u : unit_id) (st : State) : State :=
  {| sampleMode := sampleMode st;
     led := output (get u (sampleMode st)) u (led st) |}.

(** The flags as the script declares them, after the [connect] calls that
    [MC2000.buildComponents] makes for deck 1 and then deck 2, over the LED
    state [l] found. *)
Definition built (l : Led.State) : State :=
  connect Channel2 (connect Channel1 {| sampleMode := both false; led := l |}).

(** A run of button events, each a value and a deck. *)
Definition run (es : list (Z * unit_id)) (st : State) : State :=
  foldl (fun s '(value, u) => input value u s) st es.

(** The sample-mode LED of deck [u] shows the deck's flag. *)
Definition shown (u : unit_id) (st : State) : Prop :=
  Led.cache (led st) !! Led.key (deckNumber u) (Led.Code 0x1A)
  = Some (if get u (sampleMode st) then Led.LED_ON else Led.LED_OFF).

End SampleMode.

(** * Properties *)

(** ** Status normalization *)

Section Normalize.

Import Led.

Lemma strict_eq_num_spec s n :
  strict_eq_num s n = true <-> exists q, s = JNum q /\ (q == inject_Z n)%Q.
Proof.
  destruct s; simpl; split; try discriminate;
    try (intros (q' & Hq & _); discriminate).
  - intros H. exists q. split; [reflexivity | now apply Qeq_bool_iff].
  - intros (q' & Hq & He). injection Hq as ->. now apply Qeq_bool_iff.
Qed.

Lemma strict_eq_bool_spec s b : strict_eq_bool s b = true <-> s = JBool b.
Proof.
  destruct s; simpl; split; try discriminate.
  - intros H. apply Bool.eqb_prop in H. now subst.
  - intros H. injection H as ->. apply Bool.eqb_reflx.
Qed.

Lemma strict_eq_str_spec s t : strict_eq_str s t = true <-> s = JStr t.
Proof.
  destruct s; simpl; split; try discriminate.
  - intros H. apply String.eqb_eq in H. now subst.
  - intros H. injection H as ->. apply String.eqb_refl.
Qed.

Lemma off_status_test s :
  strict_eq_num s 0 || strict_eq_bool s false || strict_eq_str s "off" = true
  <-> off_status s.
Proof.
  unfold off_status.
  rewrite !orb_true_iff, strict_eq_num_spec, strict_eq_bool_spec,
    strict_eq_str_spec.
  tauto.
Qed.

Lemma blink_status_test s :
  strict_eq_num s 2 || strict_eq_str s "blink" = true <-> blink_status s.
Proof.
  unfold blink_status.
  rewrite !orb_true_iff, strict_eq_num_spec, strict_eq_str_spec.
  tauto.
Qed.

Lemma off_not_blink s : off_status s -> ~ blink_status s.
Proof.
  intros [(q & -> & Hq) | [-> | ->]] [(q' & E & Hq') | E]; try discriminate.
  injection E as <-. rewrite Hq in Hq'. discriminate.
Qed.

(** C10. [normalize] returns a byte for every status; the byte is 0x4B
    exactly for 0, false and 'off', 0x4C exactly for 2 and 'blink', and 0x4A
    for every other status, the number 3 and arbitrary strings included. *)
Theorem normalize_three_bytes :
  forall s : jsval,
    (normalize s = 0x4B <-> off_status s) /\
    (normalize s = 0x4C <-> blink_status s) /\
    (normalize s = 0x4A <-> ~ off_status s /\ ~ blink_status s) /\
    (normalize s = 0x4B \/ normalize s = 0x4C \/ normalize s = 0x4A) /\
    normalize (JNum 3) = 0x4A /\
    normalize (JStr "banana") = 0x4A /\
    normalize JUndefined = 0x4A.
Proof.
  intros s.
  pose proof (off_status_test s) as Hoff.
  pose proof (blink_status_test s) as Hblink.
  pose proof (off_not_blink s) as Hex.
  unfold normalize, LED_OFF, LED_BLINK, LED_ON.
  destruct (strict_eq_num s 0 || strict_eq_bool s false || strict_eq_str s "off");
    [| destruct (strict_eq_num s 2 || strict_eq_str s "blink")].
  - assert (off_status s) by now apply Hoff.
    repeat split; intros; try tauto; try discriminate; try reflexivity.
  - assert (blink_status s) by now apply Hblink.
    assert (~ off_status s) by (intros Ho; apply Hoff in Ho; discriminate).
    repeat split; intros; try tauto; try discriminate; try reflexivity.
  - assert (~ off_status s) by (intros Ho; apply Hoff in Ho; discriminate).
    assert (~ blink_status s) by (intros Ho; apply Hblink in Ho; discriminate).
    repeat split; intros; try tauto; try discriminate; try reflexivity.
Qed.

End Normalize.

(** ** Decoding the raw jog value *)

Section Decode.

Import Jog.
Local Open Scope Z_scope.

(** C1, as amended. For every raw value in [0,127] the movement both jog
    handlers compute is ((v - center + 64) mod 128) - 64 with center 0x40,
    and it lies in [-64, 64): raw 0 decodes to -64 and +64 is never
    produced. *)
Theorem movement_of_decodes :
  forall v : Z,
    0 <= v <= 127 ->
    movement_of v = (v - jogCenter + 64) mod 128 - 64 /\
    -64 <= movement_of v < 64.
Proof.
  intros v Hv. unfold movement_of, jogCenter.
  replace (v - 64 + 64) with v by lia.
  rewrite Z.mod_small by lia.
  destruct (Z.ltb_spec 64 (v - 64)); [lia |].
  destruct (Z.ltb_spec (v - 64) (-64)); [lia |].
  lia.
Qed.

Lemma movement_of_decodes_witness :
  movement_of 127 = (127 - jogCenter + 64) mod 128 - 64 /\
  -64 <= movement_of 127 < 64.
Proof. apply (movement_of_decodes 127). lia. Defined.

(** C1, as stated, fails at raw value 0: the formula holds there, but the
    decoded movement is -64, outside (-64, 64]. *)
Lemma movement_of_raw_zero :
  ~ (forall v : Z,
       0 <= v <= 127 ->
       movement_of v = (v - jogCenter + 64) mod 128 - 64 /\
       -64 < movement_of v <= 64).
Proof.
  intros H. destruct (H 0) as [_ [Hlo _]]; [lia |].
  vm_compute in Hlo. discriminate.
Qed.

End Decode.

(** ** The LED write cache *)

Section LedCache.

Import Led.
Local Open Scope Z_scope.

(** *** The cache key determines the (deck, code) pair *)

Lemma numeric_pretty_N_char x s :
  numeric s = true -> numeric (String (pretty_N_char x) s) = true.
Proof.
  intros Hs. unfold pretty_N_char. repeat case_match; simpl; exact Hs.
Qed.

Lemma numeric_pretty_N_go x s :
  numeric s = true -> numeric (pretty_N_go x s) = true.
Proof.
  revert s. induction (N.lt_wf_0 x) as [x _ IH]; intros s Hs.
  assert (x = 0 \/ 0 < x)%N as [-> | Hx] by lia.
  - now rewrite pretty_N_go_0.
  - rewrite pretty_N_go_step by done. apply IH.
    + now apply N.div_lt.
    + now apply numeric_pretty_N_char.
Qed.

Lemma numeric_pretty_N (x : N) : numeric (pretty x) = true.
Proof.
  unfold pretty, pretty_N. case_decide; [reflexivity |].
  now apply numeric_pretty_N_go.
Qed.

Lemma numeric_pretty_Z (z : Z) : numeric (pretty z) = true.
Proof.
  destruct z as [| p | p]; unfold pretty, pretty_Z; simpl.
  - reflexivity.
  - apply numeric_pretty_N.
  - apply (numeric_pretty_N (N.pos p)).
Qed.

Lemma bar_not_numeric r : numeric (String "|" r) = false.
Proof. reflexivity. Qed.

(** Two numeric prefixes followed by a bar split a string the same way. *)
Lemma numeric_prefix_inj s1 s2 t1 t2 :
  numeric s1 = true -> numeric s2 = true ->
  s1 +:+ "|" +:+ t1 = s2 +:+ "|" +:+ t2 -> s1 = s2 /\ t1 = t2.
Proof.
  revert s2. induction s1 as [| c1 r1 IH]; intros [| c2 r2] H1 H2 E.
  - simpl in E. now injection E.
  - simpl in E. injection E as <- _. now rewrite bar_not_numeric in H2.
  - simpl in E. injection E as -> _. now rewrite bar_not_numeric in H1.
  - simpl in E. injection E as -> E.
    simpl in H1, H2.
    apply andb_prop in H1 as [_ H1]. apply andb_prop in H2 as [_ H2].
    destruct (IH r2 H1 H2 E) as [-> ->]. done.
Qed.

Lemma code_to_string_inj c c' : code_to_string c = code_to_string c' -> c = c'.
Proof.
  destruct c as [z |], c' as [z' |]; simpl; intros E.
  - f_equal. now apply (inj pretty).
  - pose proof (numeric_pretty_Z z) as H. rewrite E in H. discriminate.
  - pose proof (numeric_pretty_Z z') as H. rewrite <- E in H. discriminate.
  - reflexivity.
Qed.

Lemma key_inj d c d' c' : key d c = key d' c' -> d = d' /\ c = c'.
Proof.
  unfold key. intros E.
  apply numeric_prefix_inj in E as [Hd Hc]; try apply numeric_pretty_Z.
  split; [now apply (inj pretty) | now apply code_to_string_inj].
Qed.

(** *** [send] *)

Lemma send_hit d c b st :
  cache st !! key d c = Some b -> send d c b st = st.
Proof. intros H. unfold send. now rewrite decide_True. Qed.

Lemma send_miss d c b st :
  cache st !! key d c ≠ Some b ->
  send d c b st =
  {| cache := <[key d c := b]> (cache st);
     midi_out := midi_out st ++ [MidiMsg (0xB0 + (d - 1)) b c] |}.
Proof. intros H. unfold send. now rewrite decide_False. Qed.

Lemma send_caches d c b st : cache (send d c b st) !! key d c = Some b.
Proof.
  unfold send. case_decide as H; [exact H |]. simpl. apply lookup_insert_eq.
Qed.

Lemma send_again d c b st : send d c b (send d c b st) = send d c b st.
Proof. apply send_hit, send_caches. Qed.

(** A table entry addressed with a truthy deck number is one [send]. *)
Lemma set_own_deck name def d status st :
  LED_MAP_get name = OwnDef def -> d ≠ 0 ->
  set name status (Some d) st
  = Returns (send d (Code (code def)) (normalize status) st).
Proof.
  intros Hdef Hd. unfold set, write_led. rewrite Hdef. simpl.
  destruct (Z.eqb_spec d 0); [contradiction | reflexivity].
Qed.

(** C2. For a LED of the table and a target deck, from a cache that does not
    yet hold the byte for that (deck, code) key (the empty cache at start-up
    in particular): the first of two [set] calls whose statuses normalize to
    the same byte issues one [midi.sendShortMsg], the second issues none and
    leaves the state as it is, and a following call with a status
    normalizing to another byte issues one more. The cache key determines
    the (deck, code) pair. *)
Theorem set_dedup :
  forall (name : string) (def : LedDef) (d : Z) (s1 s2 s3 : jsval) (st : State),
    LED_MAP_get name = OwnDef def ->
    d ≠ 0 ->
    normalize s1 = normalize s2 ->
    normalize s3 ≠ normalize s1 ->
    cache st !! key d (Code (code def)) ≠ Some (normalize s1) ->
    exists st1 st3,
      set name s1 (Some d) st = Returns st1 /\
      set name s2 (Some d) st1 = Returns st1 /\
      set name s3 (Some d) st1 = Returns st3 /\
      midi_out st1
        = midi_out st ++ [MidiMsg (0xB0 + (d - 1)) (normalize s1) (Code (code def))] /\
      midi_out st3
        = midi_out st1 ++ [MidiMsg (0xB0 + (d - 1)) (normalize s3) (Code (code def))] /\
      (forall d' c', key d (Code (code def)) = key d' c' ->
                     d = d' /\ Code (code def) = c').
Proof.
  intros name def d s1 s2 s3 st Hdef Hd H12 H31 Hmiss.
  exists (send d (Code (code def)) (normalize s1) st).
  exists (send d (Code (code def)) (normalize s3)
               (send d (Code (code def)) (normalize s1) st)).
  repeat split.
  - now apply set_own_deck.
  - rewrite (set_own_deck name def) by done. rewrite <- H12.
    now rewrite send_again.
  - now apply set_own_deck.
  - now rewrite send_miss.
  - rewrite (send_miss d _ (normalize s3)); [reflexivity |].
    rewrite send_caches. congruence.
  - now apply key_inj in H.
  - now apply key_inj in H.
Qed.

Lemma set_dedup_witness :
  exists st1 st3,
    set "play" (JStr "on") (Some 1) init = Returns st1 /\
    set "play" (JStr "on") (Some 1) st1 = Returns st1 /\
    set "play" (JStr "off") (Some 1) st1 = Returns st3 /\
    midi_out st1 = [MidiMsg 0xB0 0x4A (Code 39)] /\
    midi_out st3 = [MidiMsg 0xB0 0x4A (Code 39); MidiMsg 0xB0 0x4B (Code 39)].
Proof.
  destruct (set_dedup "play" {| code := 39; decks := [1; 2] |} 1
              (JStr "on") (JStr "on") (JStr "off") init)
    as (st1 & st3 & H1 & H2 & H3 & H4 & H5 & _).
  - reflexivity.
  - lia.
  - reflexivity.
  - vm_compute. discriminate.
  - simpl. rewrite lookup_empty. discriminate.
  - exists st1, st3. rewrite H5, H4. repeat split; assumption.
Defined.

(** Whatever the cache holds, the second of two such calls is suppressed. *)
Lemma set_twice name def d s1 s2 st :
  LED_MAP_get name = OwnDef def -> d ≠ 0 -> normalize s1 = normalize s2 ->
  exists st1, set name s1 (Some d) st = Returns st1 /\
              set name s2 (Some d) st1 = Returns st1.
Proof.
  intros Hdef Hd H12.
  exists (send d (Code (code def)) (normalize s1) st).
  rewrite !(set_own_deck name def) by done.
  now rewrite <- H12, send_again.
Qed.

(** *** Names outside the table *)

(** A name that resolves to [undefined] makes [set] and [setRaw] return at
    once. *)
Lemma write_led_undefined name b opts st :
  LED_MAP_get name = Undefined -> write_led name b opts st = Returns st.
Proof. intros H. unfold write_led. now rewrite H. Qed.

(** C9 fails on the code. "toString" is not a name of the LED table, yet
    [LED_MAP["toString"]] is the function inherited from [Object.prototype]:
    the guard [if (!def) return] lets it pass, [def.decks] is undefined and
    [decks.forEach] throws. With a deck given, [setRaw] (and [set]) writes
    to the device with an undefined code and fills the cache. *)
Theorem set_inherited_name :
  own_property "toString" LED_MAP = None /\
  set "toString" (JStr "on") None init = TypeError /\
  setRaw "toString" 0x50 None init = TypeError /\
  setRaw "toString" 0x50 (Some 1) init
  = Returns {| cache := {[ "1|undefined"%string := 0x50 ]};
               midi_out := [MidiMsg 0xB0 0x50 CodeUndefined] |}.
Proof. repeat split. Qed.

End LedCache.

(** ** Shift layer: which handler receives an event *)

Section ShiftBinding.

Import Shift.

(** A component with both methods is rebound whatever it was bound to. *)
Lemma rebind_layered shifted b : rebind true true shifted b = bound shifted.
Proof. now destruct shifted. Qed.

(** A component with neither method is left alone. *)
Lemma rebind_plain shifted b : rebind false false shifted b = b.
Proof. now destruct shifted. Qed.

Lemma input_applyShiftState c shifted d b :
  input c d = Some b -> input c (applyShiftState shifted d) = Some (bound shifted).
Proof.
  destruct c; simpl; rewrite ?rebind_layered; try reflexivity.
  intros H. rewrite list_lookup_fmap, H. simpl. now rewrite rebind_layered.
Qed.

Lemma input_applyShiftState_inv c shifted d b :
  input c (applyShiftState shifted d) = Some b -> b = bound shifted.
Proof.
  destruct c; simpl; rewrite ?rebind_layered; try (now intros [= <-]).
  rewrite list_lookup_fmap. destruct (hotcueButtons d !! index); simpl;
    rewrite ?rebind_layered; congruence.
Qed.

Lemma built_in_step held locked l : in_step (built held locked l).
Proof.
  intros u c b. unfold built, isShiftActive. simpl.
  destruct u; simpl; apply input_applyShiftState_inv.
Qed.

Lemma updateShiftState_decks st u :
  get u (decks (updateShiftState st))
  = applyShiftState (isShiftActive st) (get u (decks st)).
Proof. destruct u; reflexivity. Qed.

Lemma updateShiftState_flags st :
  shiftHeld (updateShiftState st) = shiftHeld st /\
  shiftLock (updateShiftState st) = shiftLock st /\
  dispatched (updateShiftState st) = dispatched st /\
  engine_log (updateShiftState st) = engine_log st.
Proof. repeat split. Qed.

Lemma updateShiftState_in_step st : in_step (updateShiftState st).
Proof.
  intros u c b. rewrite updateShiftState_decks.
  intros H. apply input_applyShiftState_inv in H. exact H.
Qed.

Lemma dispatch_input_bound c v u st b :
  input c (get u (decks st)) = Some b ->
  dispatch_input c v u st
  = record_dispatch (Dispatch c b v) (handler_calls c b v u) st.
Proof. intros H. unfold dispatch_input. now rewrite H. Qed.

(** The deck of a wrapper that re-applies the shift state before it
    dispatches. *)
Lemma reapplied_in_step u st :
  in_step st ->
  in_step (with_decks
             (fun ds => upd u (applyShiftState (isShiftActive st) (get u ds)) ds)
             st).
Proof.
  intros Hstep u' c' b'. unfold isShiftActive. cbn [with_decks decks shiftHeld shiftLock].
  destruct u, u'; cbn [get upd deck1 deck2]; intros H;
    first [ exact (input_applyShiftState_inv _ _ _ _ H)
          | exact (Hstep Channel1 c' b' H)
          | exact (Hstep Channel2 c' b' H) ].
Qed.

(** What [button] does to a state in step: the event goes to the handler the
    effective shift selects, and nothing is rebound. *)
Lemma button_in_step c v u st b :
  in_step st -> input c (get u (decks st)) = Some b ->
  dispatched (button c v u st)
  = dispatched st ++ [Dispatch c (bound (isShiftActive st)) v] /\
  engine_log (button c v u st)
  = engine_log st ++ handler_calls c (bound (isShiftActive st)) v u /\
  shiftHeld (button c v u st) = shiftHeld st /\
  shiftLock (button c v u st) = shiftLock st /\
  in_step (button c v u st) /\
  input c (get u (decks (button c v u st))) = Some (bound (isShiftActive st)).
Proof.
  intros Hstep Hin.
  assert (b = bound (isShiftActive st)) as -> by now apply (Hstep u c).
  assert (forall c', c' ≠ Cue ->
            button c' v u st = dispatch_input c' v u st) as Hplain
    by (intros [] H; try reflexivity; congruence).
  assert (forall s, in_step s ->
            input c (get u (decks s)) = Some (bound (isShiftActive s)) ->
            let s' := dispatch_input c v u s in
            dispatched s' = dispatched s ++ [Dispatch c (bound (isShiftActive s)) v] /\
            engine_log s'
            = engine_log s ++ handler_calls c (bound (isShiftActive s)) v u /\
            shiftHeld s' = shiftHeld s /\ shiftLock s' = shiftLock s /\
            in_step s' /\
            input c (get u (decks s')) = Some (bound (isShiftActive s))) as Hd.
  { intros s Hs Hi. cbv zeta. rewrite (dispatch_input_bound _ _ _ _ _ Hi).
    repeat split; try reflexivity; [| exact Hi].
    intros u' c' b' H'. now apply (Hs u' c'). }
  assert (c = Cue \/ c ≠ Cue) as [-> | Hc]
    by (destruct c; (now left) || (now right)).
  - change (button Cue v u st) with (cueButton v u st). unfold cueButton. cbv zeta.
    apply (Hd _ (reapplied_in_step u st Hstep)).
    unfold isShiftActive. cbn [with_decks decks shiftHeld shiftLock].
    destruct u; cbn [get upd deck1 deck2 input applyShiftState cue];
      now rewrite rebind_layered.
  - rewrite Hplain by done. now apply Hd.
Qed.

Lemma pflButton_in_step v u st : in_step st -> in_step (pflButton v u st).
Proof.
  intros Hstep. unfold pflButton.
  destruct (isButtonOn v && shiftHeld st);
    [apply updateShiftState_in_step | exact Hstep].
Qed.

(** The two listed components without a shift layer keep their handler
    through [applyShiftState]. *)
Lemma applyShiftState_plain shifted d :
  sync (applyShiftState shifted d) = sync d /\
  beatTapBtn (applyShiftState shifted d) = beatTapBtn d.
Proof. split; apply rebind_plain. Qed.

Lemma updateShiftState_plain st u :
  sync (get u (decks (updateShiftState st))) = sync (get u (decks st)) /\
  beatTapBtn (get u (decks (updateShiftState st))) = beatTapBtn (get u (decks st)).
Proof. rewrite updateShiftState_decks. apply applyShiftState_plain. Qed.

Lemma button_plain c v u st u' :
  sync (get u' (decks (button c v u st))) = sync (get u' (decks st)) /\
  beatTapBtn (get u' (decks (button c v u st))) = beatTapBtn (get u' (decks st)).
Proof.
  assert (forall s, decks (dispatch_input c v u s) = decks s) as Hd
    by (intros s; unfold dispatch_input; now destruct (input c _)).
  assert (forall s, decks (dispatch_input Cue v u s) = decks s) as Hcue
    by (intros s; unfold dispatch_input; now destruct (input Cue _)).
  destruct c; try (unfold button; rewrite Hd; split; reflexivity).
  change (button Cue v u st) with (cueButton v u st). unfold cueButton. cbv zeta.
  rewrite Hcue. cbn [with_decks decks].
  destruct u, u'; cbn [get upd deck1 deck2];
    first [ apply applyShiftState_plain | split; reflexivity ].
Qed.

(** C3 does not hold of the code. When a shift-button event that changes
    the effective shift (held or locked) falls between the press and the
    release of a mode-switching control, the control is rebound at once, so
    the press and its release are dispatched to two different handlers: the
    handler that saw the press never sees the release. This is so for every
    control with a shift layer, on either deck, from every state whose
    bindings are in step. Where neither handler reads the engine, the engine
    receives the calls of the press under one handler followed by the calls
    of the release under the other. The sync button and the beat tap button,
    which the shift state is also applied to, have one handler and keep it
    throughout. *)
Theorem gesture_split_by_shift :
  forall (c : control) (u : unit_id) (press shift release : Z)
         (st : State) (b : binding),
    in_step st ->
    input c (get u (decks st)) = Some b ->
    isButtonOn shift || shiftLock st = negb (isShiftActive st) ->
    let at_press := bound (isShiftActive st) in
    let at_release := bound (negb (isShiftActive st)) in
    let st1 := button c press u st in
    let st2 := toggleShift shift st1 in
    let st3 := button c release u st2 in
    at_press <> at_release /\
    input c (get u (decks st1)) = Some at_press /\
    input c (get u (decks st2)) = Some at_release /\
    dispatched st3
    = dispatched st ++ [Dispatch c at_press press; Dispatch c at_release release] /\
    (writes_only c = true ->
     engine_log st3
     = engine_log st ++ handler_calls c at_press press u
                     ++ handler_calls c at_release release u) /\
    (forall u', sync (get u' (decks st3)) = sync (get u' (decks st)) /\
                beatTapBtn (get u' (decks st3)) = beatTapBtn (get u' (decks st))).
Proof.
  intros c u press shift release st b Hstep Hin Hchange. cbv zeta.
  destruct (button_in_step c press u st b Hstep Hin)
    as (Hd1 & He1 & Hh1 & Hl1 & Hs1 & Hi1).
  set (st1 := button c press u st) in *.
  set (st2 := toggleShift shift st1).
  assert (isShiftActive st2 = negb (isShiftActive st)) as Hact.
  { unfold st2, toggleShift, isShiftActive at 1.
    destruct (updateShiftState_flags (with_shiftHeld (isButtonOn shift) st1))
      as (-> & -> & _). cbn [with_shiftHeld shiftHeld shiftLock].
    now rewrite Hl1. }
  assert (input c (get u (decks st2)) = Some (bound (negb (isShiftActive st))))
    as Hi2.
  { rewrite <- Hchange. unfold st2, toggleShift. rewrite updateShiftState_decks.
    unfold isShiftActive at 1. cbn [with_shiftHeld shiftHeld shiftLock decks].
    rewrite Hl1. eapply input_applyShiftState. exact Hi1. }
  assert (in_step st2) as Hs2 by apply updateShiftState_in_step.
  destruct (button_in_step c release u st2 _ Hs2 Hi2)
    as (Hd3 & He3 & _ & _ & _ & _).
  destruct (updateShiftState_flags (with_shiftHeld (isButtonOn shift) st1))
    as (_ & _ & Hd2 & He2).
  change (updateShiftState (with_shiftHeld (isButtonOn shift) st1)) with st2
    in Hd2, He2.
  cbn [with_shiftHeld dispatched engine_log] in Hd2, He2.
  split; [now destruct (isShiftActive st) |].
  split; [exact Hi1 |]. split; [exact Hi2 |].
  split; [rewrite Hd3, Hact, Hd2, Hd1, <- app_assoc; reflexivity |].
  split; [intros _; rewrite He3, Hact, He2, He1, <- app_assoc; reflexivity |].
  intros u'.
  destruct (button_plain c release u st2 u') as [-> ->].
  unfold st2, toggleShift.
  destruct (updateShiftState_plain (with_shiftHeld (isButtonOn shift) st1) u')
    as [-> ->].
  cbn [with_shiftHeld decks]. apply button_plain.
Qed.

(** The gesture at which the defect shows on the engine: with shift held
    the pitch-bend-up press starts fast forward; shift is released; the
    release of the button then reaches the normal handler, which ends a
    pitch bend that never began, and nothing sets [fwd] back to 0. *)
Lemma gesture_split_by_shift_witness :
  let st := toggleShift 0x7F (built false false Led.init) in
  let st3 := button PitchBendUp 0 Channel1
               (toggleShift 0 (button PitchBendUp 0x7F Channel1 st)) in
  dispatched st3
  = [Dispatch PitchBendUp ShiftedInput 0x7F; Dispatch PitchBendUp NormalInput 0] /\
  engine_log st3
  = [SetValue "[Channel1]" "fwd" 1; SetValue "[Channel1]" "rate_temp_up" 0].
Proof.
  destruct (gesture_split_by_shift PitchBendUp Channel1 0x7F 0 0
              (toggleShift 0x7F (built false false Led.init)) ShiftedInput)
    as (_ & _ & _ & Hd & He & _).
  - apply updateShiftState_in_step.
  - reflexivity.
  - reflexivity.
  - cbv zeta. rewrite Hd, He by reflexivity. split; reflexivity.
Defined.

(** The same on the cue button: pressed with shift up, it is handled by the
    original cue handler; shift goes down, which rebinds the cue button at
    once; the release is then handled by the go-to-cue-and-play handler,
    which ignores releases, so the original handler never sees the release
    of its own press. *)
Lemma cue_rebound_before_release :
  let st0 := built false false Led.init in
  let st1 := cueButton 0x7F Channel1 st0 in
  let st2 := toggleShift 0x7F st1 in
  let st3 := cueButton 0 Channel1 st2 in
  cue (get Channel1 (decks st1)) = NormalInput /\
  cue (get Channel1 (decks st2)) = ShiftedInput /\
  dispatched st3 = [Dispatch Cue NormalInput 0x7F; Dispatch Cue ShiftedInput 0] /\
  engine_log st3 = [ComponentInput "[Channel1]" "cue_default" 0x7F].
Proof. repeat split. Qed.

End ShiftBinding.

(** ** Jog wheels: one event *)

Section JogEvent.

Import Jog.
Local Open Scope Q_scope.

Lemma playing_test u st :
  Qeq_bool (getValue (group u) "play" st) 1 = true <-> playing u st.
Proof. apply Qeq_bool_iff. Qed.

Lemma not_playing_test u st :
  Qeq_bool (getValue (group u) "play" st) 1 = false <-> ~ playing u st.
Proof.
  unfold playing. rewrite <- Qeq_bool_iff.
  destruct (Qeq_bool _ _); split; congruence.
Qed.

Lemma moving_test value : movement_of value <> 0%Z -> (movement_of value =? 0)%Z = false.
Proof. apply Z.eqb_neq. Qed.

Lemma get_upd {A} u (v : A) p : get u (upd u v p) = v.
Proof. now destruct u. Qed.

Lemma get_upd_ne {A} u u' (v : A) p : u <> u' -> get u' (upd u v p) = get u' p.
Proof. destruct u, u'; simpl; congruence. Qed.

Lemma jogTouch_playing now value u st :
  movement_of value <> 0%Z -> playing u st ->
  jogTouch now value u st
  = scratch now (movement_of value) (speedFactor (next_tick_count now u st)) u
            (ticked now u st).
Proof.
  intros Hm Hp. unfold jogTouch. rewrite moving_test by done. simpl.
  rewrite get_upd.
  replace (Qeq_bool _ 1) with true; [reflexivity |].
  symmetry. apply Qeq_bool_iff. exact Hp.
Qed.

Lemma jogTouch_paused now value u st :
  movement_of value <> 0%Z -> ~ playing u st ->
  jogTouch now value u st
  = scrub (movement_of value) (speedFactor (next_tick_count now u st)) u
          (ticked now u st).
Proof.
  intros Hm Hp. unfold jogTouch. rewrite moving_test by done. simpl.
  rewrite get_upd.
  replace (Qeq_bool _ 1) with false; [reflexivity |].
  symmetry. apply not_playing_test. exact Hp.
Qed.

(** The engine log after the scratch branch. *)
Lemma scratch_log now m f u st :
  engine_log (scratch now m f u st)
  = engine_log st
    ++ (if get u (jogScratchActive st) then [] else entry_calls u st)
    ++ [ScratchTick (deckIndex u) (inject_Z m * f)]
    ++ rearm_calls u st.
Proof.
  unfold scratch, entry_calls, rearm_calls.
  destruct (get u (jogScratchActive st)) eqn:Ha;
    [| destruct (Qeq_bool (getValue (group u) "slip_enabled" st) 0) eqn:Hs];
    destruct (get u (jogReleaseTimer st)) eqn:Ht;
    destruct u; simpl in *; rewrite ?Ht; simpl;
    rewrite <- ?app_assoc; reflexivity.
Qed.

Lemma scratch_tick_fields now m f u st :
  jogTickCount (scratch now m f u st) = jogTickCount st /\
  jogLastTickTime (scratch now m f u st) = jogLastTickTime st.
Proof.
  unfold scratch.
  destruct (get u (jogScratchActive st)) eqn:Ha;
    [| destruct (Qeq_bool (getValue (group u) "slip_enabled" st) 0) eqn:Hs];
    destruct (get u (jogReleaseTimer st)) eqn:Ht;
    destruct u; simpl in *; rewrite ?Ht; simpl; split; reflexivity.
Qed.

Lemma scratch_flags now m f u st :
  get u (jogScratchActive (scratch now m f u st)) = true /\
  get u (jogReleaseTimer (scratch now m f u st)) = Some (next_handle st).
Proof.
  unfold scratch.
  destruct (get u (jogScratchActive st)) eqn:Ha;
    [| destruct (Qeq_bool (getValue (group u) "slip_enabled" st) 0) eqn:Hs];
    destruct (get u (jogReleaseTimer st)) eqn:Ht;
    destruct u; simpl in *; rewrite ?Ht; simpl; split; first [reflexivity | assumption].
Qed.

Lemma constants_values :
  jogRpm == 100 # 3 /\ jogScratchAlpha == 1 # 16 /\ jogScratchBeta == 1 # 1024 /\
  jogMaxScaling == 5 # 4 /\ jogPitchScale == 1 # 4.
Proof. repeat split. Qed.

(** C4. A [jogTouch] rotation with non-zero movement on a playing deck whose
    scratch-active flag is clear enters scratch mode: it sets [slip_enabled]
    to 1 unless the slip flag is already set, calls [engine.scratchEnable]
    with 96 ticks per revolution, 33 1/3 rpm, alpha 1/16 and beta
    (1/16)/64, and sets the deck's scratch-active flag. *)
Theorem jogTouch_enters_scratch :
  forall (now value : Z) (u : unit_id) (st : State),
    movement_of value <> 0%Z ->
    playing u st ->
    get u (jogScratchActive st) = false ->
    let st' := jogTouch now value u st in
    let slip := getValue (group u) "slip_enabled" st in
    engine_log st'
    = engine_log st
      ++ (if Qeq_bool slip 0 then [SetValue (group u) "slip_enabled" 1] else [])
      ++ [ScratchEnable (deckIndex u) 96 jogRpm jogScratchAlpha jogScratchBeta]
      ++ [ScratchTick (deckIndex u)
            (inject_Z (movement_of value)
             * speedFactor (get u (jogTickCount st')))]
      ++ rearm_calls u st /\
    get u (jogScratchActive st') = true /\
    get u (scratchMode st') = true /\
    (slip == 0 -> getValue (group u) "slip_enabled" st' == 1) /\
    (~ slip == 0 -> getValue (group u) "slip_enabled" st' = slip) /\
    jogRpm == 33 + 1 / 3 /\ jogScratchAlpha == 1 / 16 /\
    jogScratchBeta == (1 / 16) / 64.
Proof.
  intros now value u st Hm Hp Ha. cbv zeta.
  rewrite jogTouch_playing by done.
  destruct (scratch_tick_fields now (movement_of value)
              (speedFactor (next_tick_count now u st)) u (ticked now u st))
    as [-> _].
  assert (get u (jogTickCount (ticked now u st)) = next_tick_count now u st) as ->
    by (unfold ticked; simpl; apply get_upd).
  rewrite scratch_log.
  assert (get u (jogScratchActive (ticked now u st)) = false) as Ha' by exact Ha.
  rewrite Ha'.
  split; [| split; [apply scratch_flags | split; [| split; [| split]]]].
  - unfold entry_calls. rewrite <- !app_assoc. reflexivity.
  - unfold scratch. rewrite Ha'.
    destruct (Qeq_bool (getValue (group u) "slip_enabled" (ticked now u st)) 0);
      destruct (get u (jogReleaseTimer (ticked now u st))) eqn:Ht;
      destruct u; simpl in *; rewrite ?Ht; reflexivity.
  - intros Hs. apply Qeq_bool_iff in Hs.
    unfold scratch. rewrite Ha'.
    change (getValue (group u) "slip_enabled" (ticked now u st))
      with (getValue (group u) "slip_enabled" st).
    rewrite Hs.
    destruct (get u (jogReleaseTimer (ticked now u st))) eqn:Ht;
      destruct u; simpl in *; rewrite ?Ht; unfold getValue; simpl;
      rewrite lookup_insert_eq; reflexivity.
  - intros Hs.
    assert (Qeq_bool (getValue (group u) "slip_enabled" st) 0 = false) as Hs'.
    { destruct (Qeq_bool _ 0) eqn:E; [| reflexivity].
      apply Qeq_bool_iff in E. contradiction. }
    unfold scratch. rewrite Ha'.
    change (getValue (group u) "slip_enabled" (ticked now u st))
      with (getValue (group u) "slip_enabled" st).
    rewrite Hs'.
    destruct (get u (jogReleaseTimer (ticked now u st))) eqn:Ht;
      destruct u; simpl in *; rewrite ?Ht; reflexivity.
  - repeat split.
Qed.

Lemma jogTouch_enters_scratch_witness :
  let st := init {[ ("[Channel1]"%string, "play"%string) := 1 ]} in
  let st' := jogTouch 1000 65 Channel1 st in
  engine_log st'
  = [ SetValue "[Channel1]" "slip_enabled" 1;
      ScratchEnable 1 96 jogRpm jogScratchAlpha jogScratchBeta;
      ScratchTick 1 (inject_Z 1 * speedFactor 1);
      BeginTimer 50 1 ] /\
  get Channel1 (jogScratchActive st') = true.
Proof.
  destruct (jogTouch_enters_scratch 1000 65 Channel1
              (init {[ ("[Channel1]"%string, "play"%string) := 1 ]}))
    as (Hlog & Hact & _).
  - vm_compute. discriminate.
  - reflexivity.
  - reflexivity.
  - cbv zeta. split; [| exact Hact]. rewrite Hlog. reflexivity.
Defined.

(** C8. An outer-wheel rotation with non-zero movement on a deck whose
    scratch-active flag is clear writes movement x jogPitchScale (1/4) to
    the engine control "jog" and does nothing else: the script's per-deck
    jog state, the timers and every other engine control, the slip flag
    included, stay as they are, and no scratch call is made. *)
Theorem jogWheel_nudges :
  forall (now value : Z) (u : unit_id) (st : State),
    movement_of value <> 0%Z ->
    get u (jogScratchActive st) = false ->
    let st' := jogWheel now value u st in
    let nudge := inject_Z (movement_of value) * jogPitchScale in
    engine_log st' = engine_log st ++ [SetValue (group u) "jog" nudge] /\
    nudge == inject_Z (movement_of value) / 4 /\
    controls st' = <[(group u, "jog"%string) := nudge]> (controls st) /\
    (forall grp key, key <> "jog"%string ->
                     getValue grp key st' = getValue grp key st) /\
    jogScratchActive st' = jogScratchActive st /\
    scratchMode st' = scratchMode st /\
    jogReleaseTimer st' = jogReleaseTimer st /\
    jogLastTickTime st' = jogLastTickTime st /\
    jogTickCount st' = jogTickCount st /\
    timers st' = timers st /\
    next_handle st' = next_handle st.
Proof.
  intros now value u st Hm Ha. cbv zeta.
  unfold jogWheel. rewrite moving_test by done. rewrite Ha.
  unfold setValue, engine; simpl.
  repeat split.
  intros grp key Hk. unfold getValue; simpl.
  rewrite lookup_insert_ne; [reflexivity | congruence].
Qed.

Lemma jogWheel_nudges_witness :
  let st := init {[ ("[Channel2]"%string, "slip_enabled"%string) := 1 ]} in
  let st' := jogWheel 1000 61 Channel2 st in
  engine_log st' = [SetValue "[Channel2]" "jog" (inject_Z (-3) * jogPitchScale)] /\
  getValue "[Channel2]" "slip_enabled" st' = 1 /\
  jogScratchActive st' = both false.
Proof.
  destruct (jogWheel_nudges 1000 61 Channel2
              (init {[ ("[Channel2]"%string, "slip_enabled"%string) := 1 ]}))
    as (Hlog & _ & _ & Hctl & Hact & _).
  - vm_compute. discriminate.
  - reflexivity.
  - cbv zeta. rewrite Hlog, Hact, Hctl by discriminate.
    repeat split.
Defined.

End JogEvent.

(** ** Jog wheels: velocity scaling *)

Section Velocity.

Import Jog.
Local Open Scope Q_scope.

Lemma ramp_le (a b : Z) :
  (a <= b)%Z -> 1 + inject_Z a / 10 <= 1 + inject_Z b / 10.
Proof.
  intros H. rewrite Zle_Qle in H.
  unfold Qdiv. change (/ 10) with (1 # 10). lra.
Qed.


Lemma speedFactor_capped (n : Z) : speedFactor n <= jogMaxScaling.
Proof. apply Q.le_min_r. Qed.

Lemma speedFactor_at_cap (n : Z) : (3 <= n)%Z -> speedFactor n == jogMaxScaling.
Proof.
  intros H. apply Q.min_r.
  apply Qle_trans with (1 + inject_Z 3 / 10); [discriminate |].
  now apply ramp_le.
Qed.

Lemma speedFactor_above_one (n : Z) : (1 <= n)%Z -> 1 < speedFactor n.
Proof.
  intros H. apply Q.min_glb_lt; [| reflexivity].
  apply Qlt_le_trans with (1 + inject_Z 1 / 10); [reflexivity |].
  now apply ramp_le.
Qed.


(** The tick counters never go below zero. *)
Lemma run_tick_count es st :
  (forall u, (0 <= get u (jogTickCount st))%Z) ->
  forall u, (0 <= get u (jogTickCount (run es st)))%Z.
Proof.
  revert st. induction es as [| e es IH]; intros st Hst; [exact Hst |].
  change (run (e :: es) st) with (run es (handle e (advance (e_time e) st))).
  apply IH. clear IH.
  assert (forall ts s, (forall u, (0 <= get u (jogTickCount s))%Z) ->
            forall u, (0 <= get u (jogTickCount
                                     (foldl (fun s t => fire t s) s ts)))%Z)
    as Hfold.
  { induction ts as [| t ts IHts]; intros s Hs; [exact Hs |].
    simpl. apply IHts. exact Hs. }
  pose proof (Hfold (due (e_time e) st) st Hst) as Hadv.
  fold (advance (e_time e) st) in Hadv.
  assert (forall now value u s,
            (forall v, (0 <= get v (jogTickCount s))%Z) ->
            forall v, (0 <= get v (jogTickCount (jogTouch now value u s)))%Z)
    as Htouch.
  { intros now value u s Hs v.
    destruct (Z.eq_dec (movement_of value) 0%Z) as [Hz | Hm].
    { unfold jogTouch. rewrite Hz. apply Hs. }
    assert (jogTickCount (jogTouch now value u s)
            = upd u (next_tick_count now u s) (jogTickCount s)) as ->.
    { destruct (Qeq_bool (getValue (group u) "play" s) 1) eqn:Hp.
      - apply playing_test in Hp. rewrite jogTouch_playing by done.
        now destruct (scratch_tick_fields now (movement_of value)
                        (speedFactor (next_tick_count now u s)) u (ticked now u s))
          as [-> _].
      - apply not_playing_test in Hp. now rewrite jogTouch_paused by done. }
    destruct (decide (u = v)) as [<- | Hv].
    - rewrite get_upd. unfold next_tick_count.
      specialize (Hs u). destruct (150 <? _)%Z; lia.
    - rewrite get_upd_ne by done. apply Hs. }
  intros u. unfold handle, jogWheel.
  destruct (e_wheel e); [now apply Htouch |].
  destruct (movement_of (e_value e) =? 0)%Z; [apply Hadv |].
  destruct (get (e_unit e) (jogScratchActive (advance (e_time e) st)));
    [now apply Htouch | apply Hadv].
Qed.



End Velocity.

(** ** Jog wheels: scrubbing *)

Section Scrub.

Import Jog.
Local Open Scope Q_scope.

Lemma scrub_position_cases pos m s :
  let raw := pos + inject_Z m * s * jogScrubScaling in
  let p := scrub_position pos m s in
  0 <= p <= 1 /\
  (raw < 0 -> p = 0) /\
  (1 < raw -> p = 1) /\
  (0 <= raw <= 1 -> p = raw).
Proof.
  cbv zeta. unfold scrub_position.
  destruct (Qlt_le_dec (pos + inject_Z m * s * jogScrubScaling) 0) as [Hlo | Hlo].
  - destruct (Qlt_le_dec 1 0) as [H | H]; [discriminate |].
    repeat split; try discriminate; intros; try reflexivity; lra.
  - destruct (Qlt_le_dec 1 (pos + inject_Z m * s * jogScrubScaling)) as [Hhi | Hhi].
    + repeat split; try discriminate; intros; try reflexivity; lra.
    + repeat split; try assumption; intros; try reflexivity; lra.
Qed.

Lemma playposition_writes_app l l' :
  playposition_writes (l ++ l') = playposition_writes l ++ playposition_writes l'.
Proof. apply omap_app. Qed.

Lemma writes_clamped_refl st : writes_clamped st st.
Proof. exists []. split; [now rewrite app_nil_r | constructor]. Qed.

Lemma writes_clamped_trans st1 st2 st3 :
  writes_clamped st1 st2 -> writes_clamped st2 st3 -> writes_clamped st1 st3.
Proof.
  intros (n1 & E1 & F1) (n2 & E2 & F2). exists (n1 ++ n2). split.
  - now rewrite E2, E1, app_assoc.
  - rewrite playposition_writes_app. now apply Forall_app.
Qed.

Lemma jogTouch_clamped now value u st : writes_clamped st (jogTouch now value u st).
Proof.
  destruct (Z.eq_dec (movement_of value) 0%Z) as [Hz | Hm].
  { unfold jogTouch. rewrite Hz. apply writes_clamped_refl. }
  destruct (Qeq_bool (getValue (group u) "play" st) 1) eqn:Hp.
  - apply playing_test in Hp. rewrite jogTouch_playing by done.
    unfold writes_clamped. rewrite scratch_log.
    eexists. split; [reflexivity |].
    unfold entry_calls, rearm_calls.
    destruct (get u (jogScratchActive (ticked now u st)));
      destruct (Qeq_bool (getValue (group u) "slip_enabled" (ticked now u st)) 0);
      destruct (get u (jogReleaseTimer (ticked now u st)));
      simpl; constructor.
  - apply not_playing_test in Hp. rewrite jogTouch_paused by done.
    eexists. split; [reflexivity |]. simpl.
    constructor; [| constructor].
    apply scrub_position_cases.
Qed.

Lemma jogWheel_clamped now value u st : writes_clamped st (jogWheel now value u st).
Proof.
  unfold jogWheel.
  destruct (movement_of value =? 0)%Z; [apply writes_clamped_refl |].
  destruct (get u (jogScratchActive st)); [apply jogTouch_clamped |].
  eexists. split; [reflexivity |]. simpl. constructor.
Qed.

Lemma fire_clamped t st : writes_clamped st (fire t st).
Proof.
  exists [ScratchDisable (deckIndex (t_unit t));
          SetValue (group (t_unit t)) "slip_enabled" 0].
  split; [| simpl; constructor].
  unfold fire, release, setValue, scratchDisable, engine; simpl.
  now rewrite <- app_assoc.
Qed.

Lemma fold_fire_clamped ts st :
  writes_clamped st (foldl (fun s t => fire t s) st ts).
Proof.
  revert st. induction ts as [| t ts IH]; intros st; simpl.
  - apply writes_clamped_refl.
  - eapply writes_clamped_trans; [apply fire_clamped | apply IH].
Qed.

Lemma run_clamped es st : writes_clamped st (run es st).
Proof.
  unfold run. revert st. induction es as [| e es IH]; intros st; simpl.
  - apply writes_clamped_refl.
  - eapply writes_clamped_trans; [| apply IH].
    eapply writes_clamped_trans; [apply fold_fire_clamped |].
    unfold handle. destruct (e_wheel e);
      [apply jogTouch_clamped | apply jogWheel_clamped].
Qed.

(** C6. A rotation on a deck that is not playing writes one play position:
    the position read from the engine, moved by movement x effectiveScaling
    x jogScrubScaling, where effectiveScaling is the speed factor once the
    tick counter is above 3 and 1 before, and then clamped: exactly 0 when
    the moved position is below 0, exactly 1 when it is above 1, the moved
    position itself otherwise. Over every timeline of jog events from any
    state, all play positions written to the engine lie in [0,1]. *)
Theorem scrub_clamps :
  forall (now value : Z) (u : unit_id) (st : State),
    movement_of value <> 0%Z ->
    ~ playing u st ->
    let count := next_tick_count now u st in
    let effectiveScaling := if (3 <? count)%Z then speedFactor count else 1 in
    let moved :=
      getValue (group u) "playposition" st
      + inject_Z (movement_of value) * effectiveScaling * jogScrubScaling in
    exists p,
      engine_log (jogTouch now value u st)
      = engine_log st ++ [SetValue (group u) "playposition" p] /\
      getValue (group u) "playposition" (jogTouch now value u st) = p /\
      (moved < 0 -> p = 0) /\
      (1 < moved -> p = 1) /\
      (0 <= moved <= 1 -> p = moved) /\
      forall (es : list event) (st0 : State),
        exists new,
          engine_log (run es st0) = engine_log st0 ++ new /\
          Forall (fun q => 0 <= q <= 1) (playposition_writes new).
Proof.
  intros now value u st Hm Hp. cbv zeta.
  rewrite jogTouch_paused by done.
  assert (get u (jogTickCount (ticked now u st)) = next_tick_count now u st)
    as Hcount by (destruct u; reflexivity).
  unfold scrub. cbv zeta. rewrite Hcount.
  change (getValue (group u) "playposition" (ticked now u st))
    with (getValue (group u) "playposition" st).
  destruct (scrub_position_cases
              (getValue (group u) "playposition" st) (movement_of value)
              (if (3 <? next_tick_count now u st)%Z
               then speedFactor (next_tick_count now u st) else 1))
    as (_ & Hlo & Hhi & Hmid).
  eexists. split; [reflexivity |].
  split; [unfold getValue at 1, setValue, engine; cbn [controls];
          now rewrite lookup_insert_eq |].
  split; [exact Hlo |]. split; [exact Hhi |]. split; [exact Hmid |].
  intros es st0. apply run_clamped.
Qed.

Lemma scrub_clamps_witness :
  let st := init {[ ("[Channel1]"%string, "playposition"%string) := 1 # 1000 ]} in
  engine_log (jogTouch 1000 0 Channel1 st)
  = [SetValue "[Channel1]" "playposition" 0] /\
  engine_log (jogTouch 1000 127 Channel1 st)
  = [SetValue "[Channel1]" "playposition" ((1 # 1000) + 63 * 1 * (1 # 10000))].
Proof.
  cbv zeta. split.
  - destruct (scrub_clamps 1000 0 Channel1
                (init {[ ("[Channel1]"%string, "playposition"%string) := 1 # 1000 ]}))
      as (p & Hlog & _ & Hlo & _).
    + discriminate.
    + intros H. discriminate H.
    + rewrite Hlog, Hlo; reflexivity.
  - destruct (scrub_clamps 1000 127 Channel1
                (init {[ ("[Channel1]"%string, "playposition"%string) := 1 # 1000 ]}))
      as (p & Hlog & _ & _ & _ & Hmid & _).
    + discriminate.
    + intros H. discriminate H.
    + rewrite Hlog, Hmid; [reflexivity | split; discriminate].
Defined.

End Scrub.

(** ** Jog wheels: the idle-release timer *)

Section IdleRelease.

Import Jog.
Local Open Scope Z_scope.

(** *** Lists of timers *)

Lemma filter_swap {A} (P Q : A -> Prop)
    `{!forall x, Decision (P x), !forall x, Decision (Q x)} (l : list A) :
  filter P (filter Q l) = filter Q (filter P l).
Proof. rewrite !list_filter_filter. apply list_filter_iff. tauto. Qed.

Lemma filter_all {A} (P : A -> Prop) `{!forall x, Decision (P x)} (l : list A) :
  (forall x, x ∈ l -> P x) -> filter P l = l.
Proof.
  induction l as [| a l IH]; intros Hall; [reflexivity |].
  rewrite filter_cons_True by (apply Hall; left).
  f_equal. apply IH. intros x Hx. apply Hall. now right.
Qed.

Lemma handle_determines (l : list timer) t t' :
  NoDup (t_handle <$> l) -> t ∈ l -> t' ∈ l -> t_handle t = t_handle t' -> t = t'.
Proof.
  induction l as [| a l IH]; intros Hnd Ht Ht' E; [now apply elem_of_nil in Ht |].
  rewrite fmap_cons in Hnd. apply NoDup_cons in Hnd as [Ha Hnd].
  apply elem_of_cons in Ht as [-> | Ht]; apply elem_of_cons in Ht' as [-> | Ht'].
  - reflexivity.
  - exfalso. apply Ha. rewrite E. now apply list_elem_of_fmap_2.
  - exfalso. apply Ha. rewrite <- E. now apply list_elem_of_fmap_2.
  - now apply IH.
Qed.

Lemma NoDup_handles_filter (P : timer -> Prop) `{!forall x, Decision (P x)} l :
  NoDup (t_handle <$> l) -> NoDup (t_handle <$> filter P l).
Proof.
  intros Hnd. eapply sublist_NoDup; [exact Hnd |].
  apply fmap_sublist, sublist_filter.
Qed.

(** Removing the timer with handle [h], which belongs to deck [u], leaves
    the timers of another deck as they are. *)
Lemma other_unit_untouched l h d u v :
  NoDup (t_handle <$> l) -> Timer h d u ∈ l -> v <> u ->
  filter (fun t => t_unit t = v) (filter (fun t => t_handle t ≠ h) l)
  = filter (fun t => t_unit t = v) l.
Proof.
  intros Hnd Hin Hv. rewrite filter_swap. apply filter_all.
  intros t Ht E. apply list_elem_of_filter in Ht as [Hu Ht].
  assert (t = Timer h d u) as -> by (eapply handle_determines; eauto).
  simpl in Hu. congruence.
Qed.

(** *** The structure of a consistent state *)

Lemma slot_timer u st h :
  consistent st -> get u (jogReleaseTimer st) = Some h ->
  exists d, unit_timers u st = [Timer h d u] /\ Timer h d u ∈ timers st.
Proof.
  intros (_ & _ & Hslot) Hh. specialize (Hslot u). unfold slot_agrees in Hslot.
  rewrite Hh in Hslot. destruct Hslot as [d Hd]. exists d. split; [exact Hd |].
  assert (Timer h d u ∈ unit_timers u st) as Hin by (rewrite Hd; left).
  unfold unit_timers in Hin. now apply list_elem_of_filter in Hin as [_ Hin].
Qed.

Lemma timer_in_slot t st :
  consistent st -> t ∈ timers st ->
  get (t_unit t) (jogReleaseTimer st) = Some (t_handle t) /\
  unit_timers (t_unit t) st = [t].
Proof.
  intros (_ & _ & Hslot) Ht. specialize (Hslot (t_unit t)).
  assert (t ∈ unit_timers (t_unit t) st) as Hin
    by (unfold unit_timers; now apply list_elem_of_filter).
  unfold slot_agrees in Hslot.
  destruct (get (t_unit t) (jogReleaseTimer st)) as [h |].
  - destruct Hslot as [d Hd]. rewrite Hd in Hin |- *.
    apply list_elem_of_singleton in Hin.
    assert (t_handle t = h) as Hh by (rewrite Hin; reflexivity).
    split; [now rewrite Hh | now rewrite <- Hin].
  - rewrite Hslot in Hin. now apply elem_of_nil in Hin.
Qed.

Lemma init_consistent c : consistent (init c).
Proof.
  split; [| split].
  - intros t Ht. now apply elem_of_nil in Ht.
  - constructor.
  - intros []; reflexivity.
Qed.

(** *** A tick re-arms the release timer *)

Lemma scratch_timers now m f u st :
  timers (scratch now m f u st)
  = stopped u st ++ [Timer (next_handle st) (now + 50) u] /\
  next_handle (scratch now m f u st) = next_handle st + 1.
Proof.
  unfold scratch, stopped.
  destruct (get u (jogScratchActive st)) eqn:Ha;
    [| destruct (Qeq_bool (getValue (group u) "slip_enabled" st) 0) eqn:Hs];
    destruct (get u (jogReleaseTimer st)) eqn:Ht;
    destruct u; simpl in *; rewrite ?Ht; simpl; split; reflexivity.
Qed.

Lemma scratch_other now m f u v st :
  v <> u ->
  get v (jogScratchActive (scratch now m f u st)) = get v (jogScratchActive st) /\
  get v (scratchMode (scratch now m f u st)) = get v (scratchMode st) /\
  get v (jogReleaseTimer (scratch now m f u st)) = get v (jogReleaseTimer st) /\
  forall key, controls (scratch now m f u st) !! (group v, key)
              = controls st !! (group v, key).
Proof.
  intros Hv. unfold scratch.
  destruct (get u (jogScratchActive st)) eqn:Ha;
    [| destruct (Qeq_bool (getValue (group u) "slip_enabled" st) 0) eqn:Hs];
    destruct (get u (jogReleaseTimer st)) eqn:Ht;
    destruct u, v; try congruence; simpl in *; rewrite ?Ht; simpl;
    repeat split; intros; try reflexivity;
    rewrite lookup_insert_ne by congruence; reflexivity.
Qed.

Lemma scratch_play now m f u st :
  controls (scratch now m f u st) !! (group u, "play"%string)
  = controls st !! (group u, "play"%string).
Proof.
  unfold scratch.
  destruct (get u (jogScratchActive st)) eqn:Ha;
    [| destruct (Qeq_bool (getValue (group u) "slip_enabled" st) 0) eqn:Hs];
    destruct (get u (jogReleaseTimer st)) eqn:Ht;
    destruct u; simpl in *; rewrite ?Ht; simpl; try reflexivity;
    rewrite lookup_insert_ne by congruence; reflexivity.
Qed.

Lemma stopped_spec u st :
  consistent st ->
  (forall t, t ∈ stopped u st -> t ∈ timers st) /\
  NoDup (t_handle <$> stopped u st) /\
  filter (fun t => t_unit t = u) (stopped u st) = [] /\
  (forall v, v <> u ->
     filter (fun t => t_unit t = v) (stopped u st) = unit_timers v st) /\
  (forall h, get u (jogReleaseTimer st) = Some h ->
     forall t, t ∈ stopped u st -> t_handle t ≠ h).
Proof.
  intros Hc. pose proof Hc as (Hlt & Hnd & Hslot).
  unfold stopped. destruct (get u (jogReleaseTimer st)) as [h |] eqn:Hh.
  - destruct (slot_timer u st h Hc Hh) as (d & Hd & Hin).
    repeat split.
    + intros t Ht. now apply list_elem_of_filter in Ht as [_ Ht].
    + now apply NoDup_handles_filter.
    + rewrite filter_swap. fold (unit_timers u st). rewrite Hd.
      rewrite filter_cons_False by (simpl; intros H'; now apply H').
      reflexivity.
    + intros v Hv. eapply other_unit_untouched; eauto.
    + intros h' [= <-] t Ht. now apply list_elem_of_filter in Ht as [Ht _].
  - repeat split; try done.
    specialize (Hslot u). unfold slot_agrees in Hslot. now rewrite Hh in Hslot.
Qed.

Lemma scratch_rearms now m f u st :
  consistent st ->
  let st' := scratch now m f u st in
  consistent st' /\
  scratching u now st' /\
  (forall v, v <> u -> same_unit v st st') /\
  (forall h, get u (jogReleaseTimer st) = Some h ->
     forall t, t ∈ timers st' -> t_handle t ≠ h).
Proof.
  intros Hc. cbv zeta. pose proof Hc as (Hlt & Hnd & Hslot).
  destruct (stopped_spec u st Hc) as (Hsub & Hnd' & Hown & Hother & Hstale).
  destruct (scratch_timers now m f u st) as [Htm Hnext].
  destruct (scratch_flags now m f u st) as [Hact Hh].
  assert (forall v, unit_timers v (scratch now m f u st)
                    = filter (fun t => t_unit t = v) (stopped u st)
                      ++ (if decide (u = v)
                          then [Timer (next_handle st) (now + 50) u] else []))
    as Hunit.
  { intros v. unfold unit_timers. rewrite Htm, filter_app. reflexivity. }
  split; [split; [| split] | split; [split | split]].
  - intros t. rewrite Htm, Hnext, elem_of_app, list_elem_of_singleton.
    intros [Ht | ->]; [apply Hsub, Hlt in Ht; lia | simpl; lia].
  - rewrite Htm, fmap_app. apply NoDup_app. split; [exact Hnd' |].
    split; [| apply NoDup_singleton].
    intros h Hin Hh'. simpl in Hh'. apply list_elem_of_singleton in Hh'. subst h.
    apply list_elem_of_fmap in Hin as (t & Eh & Ht).
    apply Hsub, Hlt in Ht. lia.
  - intros v. unfold slot_agrees. rewrite Hunit.
    destruct (decide (u = v)) as [<- | Hv].
    + rewrite Hh, Hown. eexists. reflexivity.
    + destruct (scratch_other now m f u v st) as (_ & _ & -> & _); [congruence |].
      rewrite app_nil_r, Hother by congruence. apply Hslot.
  - exact Hact.
  - exists (next_handle st). split; [exact Hh |].
    rewrite Hunit, Hown, decide_True by reflexivity. reflexivity.
  - intros v Hv.
    destruct (scratch_other now m f u v st Hv) as (H1 & H2 & H3 & H4).
    repeat split; try assumption.
    rewrite Hunit, decide_False, app_nil_r by congruence. now apply Hother.
  - intros h Hslot' t. rewrite Htm, elem_of_app, list_elem_of_singleton.
    intros [Ht | ->]; [now apply (Hstale h Hslot') |].
    simpl. destruct (slot_timer u st h Hc Hslot') as (d & _ & Hin).
    apply Hlt in Hin. simpl in Hin. lia.
Qed.

(** *** What belongs to one deck *)

Lemma same_unit_refl u st : same_unit u st st.
Proof. repeat split. Qed.

Lemma same_unit_trans u st1 st2 st3 :
  same_unit u st1 st2 -> same_unit u st2 st3 -> same_unit u st1 st3.
Proof.
  intros (A1 & A2 & A3 & A4 & A5) (B1 & B2 & B3 & B4 & B5).
  repeat split; try congruence.
Qed.

Lemma same_unit_getValue u st st' key :
  same_unit u st st' -> getValue (group u) key st' = getValue (group u) key st.
Proof. intros (_ & _ & _ & _ & H). unfold getValue. now rewrite H. Qed.

Lemma same_unit_playing u st st' : same_unit u st st' -> playing u st -> playing u st'.
Proof. intros H. unfold playing. now rewrite (same_unit_getValue u st st'). Qed.

Lemma same_unit_scratching u last st st' :
  same_unit u st st' -> scratching u last st -> scratching u last st'.
Proof.
  intros (A1 & A2 & A3 & A4 & A5) (Ha & h & Hh & Ht).
  split; [congruence |]. exists h. split; congruence.
Qed.

Lemma same_unit_idle u st st' : same_unit u st st' -> idle u st -> idle u st'.
Proof.
  intros Hs (I1 & I2 & I3 & I4 & I5). pose proof Hs as (A1 & A2 & A3 & A4 & A5).
  repeat split; try congruence.
  now rewrite (same_unit_getValue u st st').
Qed.

Lemma ticked_same now u v st : same_unit v st (ticked now u st).
Proof. repeat split. Qed.

Lemma ticked_consistent now u st : consistent st -> consistent (ticked now u st).
Proof. intros H. exact H. Qed.

(** *** Every handler keeps the state consistent *)

Lemma jogTouch_tick now value u st :
  consistent st -> playing u st -> movement_of value <> 0 ->
  let st' := jogTouch now value u st in
  consistent st' /\ scratching u now st' /\ playing u st' /\
  (forall v, v <> u -> same_unit v st st') /\
  (forall h, get u (jogReleaseTimer st) = Some h ->
     forall t, t ∈ timers st' -> t_handle t ≠ h).
Proof.
  intros Hc Hp Hm. cbv zeta. rewrite jogTouch_playing by done.
  destruct (scratch_rearms now (movement_of value)
              (speedFactor (next_tick_count now u st)) u (ticked now u st)
              (ticked_consistent now u st Hc))
    as (H1 & H2 & H3 & H4).
  split; [exact H1 | split; [exact H2 | split; [| split; [exact H3 | exact H4]]]].
  unfold playing, getValue. rewrite scratch_play. exact Hp.
Qed.

Lemma jogTouch_keeps now value u st :
  consistent st ->
  consistent (jogTouch now value u st) /\
  forall v, v <> u -> same_unit v st (jogTouch now value u st).
Proof.
  intros Hc.
  destruct (Z.eq_dec (movement_of value) 0) as [Hz | Hm].
  { unfold jogTouch. rewrite Hz. simpl. split; [exact Hc |].
    intros. apply same_unit_refl. }
  destruct (Qeq_bool (getValue (group u) "play" st) 1) eqn:Hp.
  - apply playing_test in Hp.
    destruct (jogTouch_tick now value u st Hc Hp Hm) as (H1 & _ & _ & H4 & _).
    split; assumption.
  - apply not_playing_test in Hp. rewrite jogTouch_paused by done.
    split; [exact Hc |].
    intros v Hv. repeat split.
    intros key. unfold scrub, setValue, engine; simpl.
    rewrite lookup_insert_ne; [reflexivity |].
    destruct u, v; simpl; congruence.
Qed.

Lemma jogWheel_keeps now value u st :
  consistent st ->
  consistent (jogWheel now value u st) /\
  forall v, v <> u -> same_unit v st (jogWheel now value u st).
Proof.
  intros Hc. unfold jogWheel.
  destruct (movement_of value =? 0).
  { split; [exact Hc |]. intros. apply same_unit_refl. }
  destruct (get u (jogScratchActive st)); [now apply jogTouch_keeps |].
  split; [exact Hc |].
  intros v Hv. repeat split.
  intros key. unfold setValue, engine; simpl.
  rewrite lookup_insert_ne; [reflexivity |].
  destruct u, v; simpl; congruence.
Qed.

Lemma handle_keeps e st :
  consistent st ->
  consistent (handle e st) /\
  forall v, v <> e_unit e -> same_unit v st (handle e st).
Proof.
  intros Hc. unfold handle.
  destruct (e_wheel e); [now apply jogTouch_keeps | now apply jogWheel_keeps].
Qed.

(** A tick of a scratching deck, from either wheel, re-arms its timer. *)
Lemma handle_tick e last st :
  consistent st -> playing (e_unit e) st -> scratching (e_unit e) last st ->
  movement_of (e_value e) <> 0 ->
  let st' := handle e st in
  consistent st' /\ scratching (e_unit e) (e_time e) st' /\ playing (e_unit e) st'.
Proof.
  intros Hc Hp (Ha & _) Hm. cbv zeta.
  assert (handle e st = jogTouch (e_time e) (e_value e) (e_unit e) st) as ->.
  { unfold handle, jogWheel. destruct (e_wheel e); [reflexivity |].
    rewrite moving_test by done. now rewrite Ha. }
  destruct (jogTouch_tick (e_time e) (e_value e) (e_unit e) st Hc Hp Hm)
    as (H1 & H2 & H3 & _).
  split; [exact H1 | split; [exact H2 | exact H3]].
Qed.

(** *** A timer fires *)

Lemma fire_spec t st :
  consistent st -> t ∈ timers st ->
  let st' := fire t st in
  consistent st' /\
  idle (t_unit t) st' /\
  (forall v, v <> t_unit t -> same_unit v st st') /\
  timers st' = filter (fun t' => t_handle t' ≠ t_handle t) (timers st).
Proof.
  intros Hc Ht. cbv zeta. pose proof Hc as (Hlt & Hnd & Hslot).
  destruct (timer_in_slot t st Hc Ht) as [Hh Hu].
  assert (timers (fire t st)
          = filter (fun t' => t_handle t' ≠ t_handle t) (timers st)) as Htm
    by reflexivity.
  assert (unit_timers (t_unit t) (fire t st) = []) as Hown.
  { unfold unit_timers. rewrite Htm, filter_swap.
    fold (unit_timers (t_unit t) st). rewrite Hu.
    rewrite filter_cons_False by (intros H'; now apply H'). reflexivity. }
  assert (forall v, v <> t_unit t ->
            unit_timers v (fire t st) = unit_timers v st) as Hother.
  { intros v Hv. unfold unit_timers. rewrite Htm.
    apply (other_unit_untouched _ _ (t_due t) (t_unit t)); try assumption.
    now destruct t. }
  assert (forall v, v <> t_unit t ->
            get v (jogReleaseTimer (fire t st)) = get v (jogReleaseTimer st))
    as Hslots.
  { intros v Hv. unfold fire, release. simpl. apply get_upd_ne. congruence. }
  split; [split; [| split] | split; [| split]].
  - intros t' Ht'. rewrite Htm in Ht'.
    apply list_elem_of_filter in Ht' as [_ Ht']. now apply Hlt.
  - rewrite Htm. now apply NoDup_handles_filter.
  - intros v. unfold slot_agrees.
    destruct (decide (v = t_unit t)) as [-> | Hv].
    + rewrite Hown. unfold fire, release. simpl. now rewrite get_upd.
    + rewrite Hslots, Hother by done. apply Hslot.
  - unfold idle. rewrite Hown.
    unfold fire, release, getValue, setValue, scratchDisable, engine. simpl.
    rewrite !get_upd, lookup_insert_eq. repeat split.
  - intros v Hv. split; [| split; [| split; [| split]]].
    + unfold fire, release. simpl. apply get_upd_ne. congruence.
    + unfold fire, release. simpl. apply get_upd_ne. congruence.
    + now apply Hslots.
    + now apply Hother.
    + intros key. unfold fire, release, setValue, scratchDisable, engine. simpl.
      rewrite lookup_insert_ne; [reflexivity |].
      destruct (t_unit t), v; simpl; congruence.
  - exact Htm.
Qed.

Lemma fire_log t st :
  engine_log (fire t st) = engine_log st ++ release_calls [t].
Proof.
  unfold fire, release, setValue, scratchDisable, engine. simpl.
  now rewrite <- app_assoc.
Qed.

(** *** Time passes *)

Lemma release_calls_cons t ts :
  release_calls (t :: ts) = release_calls [t] ++ release_calls ts.
Proof. reflexivity. Qed.

Lemma release_calls_app ts ts' :
  release_calls (ts ++ ts') = release_calls ts ++ release_calls ts'.
Proof. apply bind_app. Qed.

Lemma fold_fire_spec ts :
  forall st,
    consistent st -> NoDup ts -> (forall t, t ∈ ts -> t ∈ timers st) ->
    let st' := foldl (fun s t => fire t s) st ts in
    consistent st' /\
    engine_log st' = engine_log st ++ release_calls ts /\
    (forall u, (forall t, t ∈ ts -> t_unit t <> u) -> same_unit u st st') /\
    (forall u, (exists t, t ∈ ts /\ t_unit t = u) -> idle u st').
Proof.
  induction ts as [| t ts IH]; intros st Hc Hnd Hsub; cbv zeta; simpl.
  - split; [exact Hc |]. split; [now rewrite app_nil_r |].
    split; [intros; apply same_unit_refl |].
    intros u (t & Ht & _). now apply elem_of_nil in Ht.
  - apply NoDup_cons in Hnd as [Hnotin Hnd].
    assert (t ∈ timers st) as Ht by (apply Hsub; left).
    destruct (fire_spec t st Hc Ht) as (Hc1 & Hidle & Hframe & Htm).
    assert (forall t', t' ∈ ts -> t' ∈ timers (fire t st)) as Hsub'.
    { intros t' Ht'. rewrite Htm. apply list_elem_of_filter. split.
      - intros E. apply Hnotin.
        assert (t' = t) as <-; [| exact Ht'].
        destruct Hc as (_ & Hh & _).
        eapply handle_determines; eauto. apply Hsub. now right.
      - apply Hsub. now right. }
    destruct (IH (fire t st) Hc1 Hnd Hsub') as (Hc' & Hlog & Hsame & Hid).
    split; [exact Hc' |]. split; [| split].
    + rewrite Hlog, fire_log, release_calls_cons. now rewrite <- app_assoc.
    + intros u Hu. apply same_unit_trans with (fire t st).
      * apply Hframe. intros E. apply (Hu t); [left | congruence].
      * apply Hsame. intros t' Ht'. apply Hu. now right.
    + intros u (t0 & Ht0 & Eu).
      destruct (decide (t_unit t = u)) as [E | E].
      * clear t0 Ht0 Eu. subst u.
        apply same_unit_idle with (fire t st); [| exact Hidle].
        apply Hsame. intros t' Ht' E'.
        destruct Hidle as (_ & _ & _ & Hnone & _).
        assert (t' ∈ unit_timers (t_unit t) (fire t st)) as Hin
          by (unfold unit_timers; apply list_elem_of_filter; split; auto).
        rewrite Hnone in Hin. now apply elem_of_nil in Hin.
      * apply Hid. exists t0. split; [| exact Eu].
        apply elem_of_cons in Ht0 as [-> | Ht0]; [contradiction | exact Ht0].
Qed.

Lemma advance_spec now st :
  consistent st ->
  consistent (advance now st) /\
  engine_log (advance now st) = engine_log st ++ release_calls (due now st) /\
  (forall u, (forall t, t ∈ unit_timers u st -> now < t_due t) ->
             same_unit u st (advance now st)) /\
  (forall u t, t ∈ unit_timers u st -> t_due t <= now ->
               idle u (advance now st) /\ t ∈ due now st).
Proof.
  intros Hc. pose proof Hc as (_ & Hnd & _).
  assert (NoDup (due now st)) as Hnd'
    by (apply NoDup_filter; eapply NoDup_fmap_1; exact Hnd).
  assert (forall t, t ∈ due now st -> t ∈ timers st) as Hsub
    by (intros t Ht; now apply list_elem_of_filter in Ht as [_ Ht]).
  destruct (fold_fire_spec (due now st) st Hc Hnd' Hsub)
    as (Hc' & Hlog & Hsame & Hid).
  split; [exact Hc' |]. split; [exact Hlog |]. split.
  - intros u Hu. apply Hsame. intros t Ht E.
    apply list_elem_of_filter in Ht as [Hdue Ht].
    assert (now < t_due t); [| lia].
    apply Hu. unfold unit_timers. now apply list_elem_of_filter.
  - intros u t Ht Hdue.
    apply list_elem_of_filter in Ht as [Eu Ht].
    assert (t ∈ due now st) as Hin by (now apply list_elem_of_filter).
    split; [| exact Hin]. apply Hid. now exists t.
Qed.

Lemma advance_early now u last st :
  consistent st -> scratching u last st -> now < last + 50 ->
  same_unit u st (advance now st).
Proof.
  intros Hc (_ & h & _ & Ht) Hnow.
  apply advance_spec; [exact Hc |].
  intros t Hin. rewrite Ht in Hin. apply list_elem_of_singleton in Hin.
  subst t. simpl. exact Hnow.
Qed.

(** *** Ticks less than 50 ms apart *)

Lemma run_rapid es :
  forall last u st,
    consistent st -> playing u st -> scratching u last st -> rapid u last es ->
    let st' := run es st in
    consistent st' /\ playing u st' /\ scratching u (last_tick u last es) st'.
Proof.
  induction es as [| e es IH]; intros last u st Hc Hp Hs Hr; cbv zeta.
  - split; [exact Hc | split; [exact Hp | exact Hs]].
  - simpl in Hr. destruct Hr as [Hlt Hr].
    change (run (e :: es) st) with (run es (handle e (advance (e_time e) st))).
    pose proof (advance_early (e_time e) u last st Hc Hs Hlt) as Hsame.
    destruct (advance_spec (e_time e) st Hc) as (Hc1 & _).
    pose proof (same_unit_playing u _ _ Hsame Hp) as Hp1.
    pose proof (same_unit_scratching u last _ _ Hsame Hs) as Hs1.
    simpl. destruct (decide (e_unit e = u)) as [E | E].
    + destruct Hr as [Hm Hr]. subst u.
      destruct (handle_tick e last _ Hc1 Hp1 Hs1 Hm) as (Hc2 & Hs2 & Hp2).
      now apply IH.
    + destruct (handle_keeps e _ Hc1) as [Hc2 Hframe].
      assert (same_unit u (advance (e_time e) st)
                (handle e (advance (e_time e) st))) as Hsame2
        by (apply Hframe; congruence).
      apply IH; try assumption.
      * now apply (same_unit_playing u _ _ Hsame2).
      * now apply (same_unit_scratching u last _ _ Hsame2).
Qed.

(** Every state the script reaches from its load-time state is consistent. *)
Lemma run_consistent es st : consistent st -> consistent (run es st).
Proof.
  revert st. induction es as [| e es IH]; intros st Hc; [exact Hc |].
  change (run (e :: es) st) with (run es (handle e (advance (e_time e) st))).
  apply IH, handle_keeps, advance_spec, Hc.
Qed.

(** C5. A tick of a playing deck stops the timer named by the deck's slot
    and arms a fresh one-shot timer due 50 ms later, so no timer with the
    stopped handle is left to fire. While the following events arrive less
    than 50 ms after the deck's latest tick, the deck stays in SCRATCHING,
    with exactly the timer of its latest tick armed; it is still in
    SCRATCHING at any time before that timer is due. Once 50 ms have passed
    since the latest tick the timer fires: [engine.scratchDisable] is
    called, the scratch-active flag is cleared and [slip_enabled] is set
    to 0. *)
Theorem idle_release :
  forall (st : State) (u : unit_id) (t0 value : Z) (es : list event),
    consistent st ->
    playing u st ->
    movement_of value <> 0 ->
    rapid u t0 es ->
    let st1 := jogTouch t0 value u st in
    let st2 := run es st1 in
    let last := last_tick u t0 es in
    (exists calls, engine_log st1 = engine_log st ++ calls ++ rearm_calls u st) /\
    unit_timers u st1 = [Timer (next_handle st) (t0 + 50) u] /\
    (forall h, get u (jogReleaseTimer st) = Some h ->
       forall t, t ∈ timers st1 -> t_handle t ≠ h) /\
    scratching u last st2 /\
    (forall now, now < last + 50 -> scratching u last (advance now st2)) /\
    (forall now, last + 50 <= now ->
       let st3 := advance now st2 in
       idle u st3 /\
       exists before after,
         engine_log st3
         = engine_log st2 ++ before
           ++ [ScratchDisable (deckIndex u);
               SetValue (group u) "slip_enabled" 0%Q]
           ++ after).
Proof.
  intros st u t0 value es Hc Hp Hm Hr. cbv zeta.
  destruct (jogTouch_tick t0 value u st Hc Hp Hm) as (Hc1 & Hs1 & Hp1 & _ & Hstale).
  destruct (run_rapid es t0 u _ Hc1 Hp1 Hs1 Hr) as (Hc2 & Hp2 & Hs2).
  split; [| split; [| split; [exact Hstale | split; [exact Hs2 | split]]]].
  - rewrite jogTouch_playing by done. rewrite scratch_log.
    exists ((if get u (jogScratchActive (ticked t0 u st))
             then [] else entry_calls u (ticked t0 u st))
            ++ [ScratchTick (deckIndex u)
                  (inject_Z (movement_of value)
                   * speedFactor (next_tick_count t0 u st))%Q]).
    rewrite <- app_assoc. reflexivity.
  - destruct Hs1 as (_ & h & Hh & Ht).
    assert (get u (jogReleaseTimer (jogTouch t0 value u st))
            = Some (next_handle st)) as Hslot.
    { rewrite jogTouch_playing by done.
      exact (proj2 (scratch_flags _ _ _ _ _)). }
    rewrite Hslot in Hh. injection Hh as <-. exact Ht.
  - intros now Hnow.
    eapply same_unit_scratching; [| exact Hs2].
    eapply advance_early; eauto.
  - intros now Hnow. cbv zeta.
    destruct Hs2 as (_ & h & _ & Ht).
    destruct (advance_spec now _ Hc2) as (_ & Hlog & _ & Hfire).
    destruct (Hfire u (Timer h (last_tick u t0 es + 50) u)) as [Hidle Hdue].
    { rewrite Ht. left. }
    { simpl. exact Hnow. }
    split; [exact Hidle |].
    apply list_elem_of_split in Hdue as (l1 & l2 & Hsplit).
    exists (release_calls l1), (release_calls l2).
    rewrite Hlog, Hsplit, release_calls_app, release_calls_cons.
    reflexivity.
Qed.

(** The timeline of ticks at 0 ms and 30 ms: the deck is still scratching
    at 79 ms and released at 81 ms. *)
Lemma idle_release_witness :
  let st := init {[ ("[Channel1]"%string, "play"%string) := 1%Q ]} in
  let st2 := run [Event 30 Touch 65 Channel1] (jogTouch 0 65 Channel1 st) in
  get Channel1 (jogScratchActive (advance 79 st2)) = true /\
  get Channel1 (jogScratchActive (advance 81 st2)) = false /\
  getValue "[Channel1]" "slip_enabled" (advance 81 st2) == 0%Q.
Proof.
  destruct (idle_release
              (init {[ ("[Channel1]"%string, "play"%string) := 1%Q ]})
              Channel1 0 65 [Event 30 Touch 65 Channel1])
    as (_ & _ & _ & _ & Hearly & Hlate).
  - split; [| split].
    + intros t Ht. now apply elem_of_nil in Ht.
    + constructor.
    + intros []; reflexivity.
  - reflexivity.
  - vm_compute. discriminate.
  - simpl. repeat split; try lia. vm_compute. discriminate.
  - cbv zeta.
    destruct (Hearly 79) as [H79 _]; [reflexivity |].
    destruct (Hlate 81) as [(H81 & _ & _ & _ & Hslip) _];
      [vm_compute; discriminate |].
    split; [exact H79 | split; [exact H81 | exact Hslip]].
Defined.

End IdleRelease.

(** ** Worked examples *)

Section Examples.

Import Led.

Example LED_MAP_play :
  LED_MAP_get "play" = OwnDef {| code := 39; decks := [1; 2] |}.
Proof. reflexivity. Qed.

Example LED_MAP_samp1_l :
  LED_MAP_get "samp1_l" = OwnDef {| code := 25; decks := [1] |}.
Proof. reflexivity. Qed.

Example LED_MAP_sampler6 :
  LED_MAP_get "sampler6" = OwnDef {| code := 0x43; decks := [2] |}.
Proof. reflexivity. Qed.

Example LED_MAP_monitorcue_r :
  LED_MAP_get "monitorcue_r" = OwnDef {| code := 81; decks := [2] |}.
Proof. reflexivity. Qed.

Example LED_MAP_unknown : LED_MAP_get "strobe" = Undefined.
Proof. reflexivity. Qed.

Example key_play_deck1 : key 1 (Code 39) = "1|39"%string.
Proof. reflexivity. Qed.

(** A shared LED addressed without a deck is written once per deck. *)
Example set_sync_both_decks :
  set "sync" (JBool true) None init
  = Returns {| cache := {[ "1|9"%string := 0x4A; "2|9"%string := 0x4A ]};
               midi_out := [MidiMsg 0xB0 0x4A (Code 9); MidiMsg 0xB1 0x4A (Code 9)] |}.
Proof. reflexivity. Qed.

Example movement_samples :
  Jog.movement_of 0 = -64 /\ Jog.movement_of 63 = -1 /\ Jog.movement_of 64 = 0 /\
  Jog.movement_of 65 = 1 /\ Jog.movement_of 127 = 63.
Proof. repeat split. Qed.

Example shift_lock_chord :
  let st := Shift.toggleShift 0x7F (Shift.built false false init) in
  let st := Shift.pflButton 0x7F Channel1 st in
  let st := Shift.toggleShift 0 st in
  Shift.isShiftActive st = true /\
  Shift.cue (get Channel2 (Shift.decks st)) = Shift.ShiftedInput /\
  midi_out (Shift.led st)
  = [ MidiMsg 0xB0 0x4B (Code 2); MidiMsg 0xB1 0x4B (Code 2);
      MidiMsg 0xB0 0x4A (Code 2); MidiMsg 0xB1 0x4A (Code 2) ].
Proof. repeat split. Qed.

End Examples.

(** ** The LED manager over sequences of calls *)

Section LedRuns.

Import Led.
Local Open Scope Z_scope.

Lemma apply_sends_app ws ws' st :
  apply_sends (ws ++ ws') st = apply_sends ws' (apply_sends ws st).
Proof. unfold apply_sends. apply foldl_app. Qed.

Lemma write_led_own name def b opts st :
  LED_MAP_get name = OwnDef def ->
  write_led name b opts st = Returns (apply_sends (def_writes def b opts) st).
Proof.
  intros Hdef. unfold write_led, def_writes. rewrite Hdef. f_equal.
  generalize (match opts_deck opts with Some d => [d] | None => decks def end).
  intros ds. revert st. induction ds as [| d ds IH]; intros st; [reflexivity |].
  simpl. apply IH.
Qed.

(** Every [set] and [setRaw] comes down to a list of [send]s. *)
Lemma write_led_sends name b opts st :
  exists ws, state_after (write_led name b opts st) st = apply_sends ws st.
Proof.
  destruct (LED_MAP_get name) as [def | |] eqn:Hdef.
  - exists (def_writes def b opts). now rewrite (write_led_own name def).
  - unfold write_led. rewrite Hdef.
    destruct (opts_deck opts) as [d |];
      [now exists [(d, CodeUndefined, b)] | now exists []].
  - unfold write_led. rewrite Hdef. now exists [].
Qed.

Lemma state_of_result_of o st : state_of (result_of o st) = state_after o st.
Proof. now destruct o. Qed.

Lemma bulk_sends entries :
  forall st, exists ws, state_of (bulk entries st) = apply_sends ws st.
Proof.
  induction entries as [| [n s] rest IH]; intros st; [now exists [] |].
  simpl. destruct (write_led_sends n (normalize s) None st) as [ws Hws].
  unfold set. destruct (write_led n (normalize s) None st) as [st' |].
  - simpl in Hws. subst st'. destruct (IH (apply_sends ws st)) as [ws' Hws'].
    exists (ws ++ ws'). now rewrite apply_sends_app.
  - now exists [].
Qed.

Lemma exec_sends c st : exists ws, state_of (exec c st) = apply_sends ws st.
Proof.
  destruct c as [n s o | n b o | n v o | n v o | d c s | es |];
    unfold exec; rewrite ?state_of_result_of;
    try apply write_led_sends; try apply bulk_sends.
  - now exists [(d, Code c, normalize s)].
  - unfold resetDefaults.
    destruct (bulk_sends offMap st) as [ws Hws].
    destruct (bulk offMap st) as [st' | st']; simpl in Hws; subst st'.
    + rewrite state_of_result_of.
      destruct (write_led_sends "vinylmode" (normalize (JStr "on")) None
                  (apply_sends ws st)) as [ws' Hws'].
      exists (ws ++ ws'). rewrite apply_sends_app. exact Hws'.
    + now exists ws.
Qed.

Lemma run_sends cs : forall st, exists ws, run cs st = apply_sends ws st.
Proof.
  induction cs as [| c cs IH]; intros st; [now exists [] |].
  unfold run. simpl. fold (run cs (state_of (exec c st))).
  destruct (exec_sends c st) as [ws ->].
  destruct (IH (apply_sends ws st)) as [ws' ->].
  exists (ws ++ ws'). now rewrite apply_sends_app.
Qed.

(** *** What the device saw and what the cache holds *)

Lemma bytes_for_snoc d c log m :
  bytes_for d c (log ++ [m])
  = bytes_for d c log ++ (if decide (addressed d c m) then [m_byte1 m] else []).
Proof.
  unfold bytes_for. rewrite filter_app, map_app. f_equal.
  rewrite filter_cons, filter_nil. now destruct (decide (addressed d c m)).
Qed.

Lemma addressed_own d c d' c' b :
  addressed d c (MidiMsg (0xB0 + (d' - 1)) b c') <-> d = d' /\ c = c'.
Proof. unfold addressed. simpl. split; intros [H1 H2]; split; try lia; congruence. Qed.

Lemma steady_snoc l b : steady l -> last l <> Some b -> steady (l ++ [b]).
Proof.
  induction l as [| a l IH]; intros Hs Hl; [simpl; tauto |].
  destruct l as [| a' l].
  - simpl in *. repeat split. congruence.
  - destruct Hs as [Hne Hs]. simpl. split; [exact Hne |].
    apply IH; [exact Hs | exact Hl].
Qed.

Lemma init_faithful : faithful init.
Proof. intros d c. split; [apply lookup_empty | exact I]. Qed.

Lemma send_faithful d c b st : faithful st -> faithful (send d c b st).
Proof.
  intros Hf. unfold send. case_decide as Hhit; [exact Hf |].
  intros d' c'. simpl. rewrite bytes_for_snoc.
  destruct (Hf d' c') as [Hcache Hsteady].
  destruct (decide (addressed d' c' _)) as [Ha | Ha].
  - apply addressed_own in Ha as [-> ->]. simpl.
    rewrite lookup_insert_eq, last_snoc. split; [reflexivity |].
    apply steady_snoc; [exact Hsteady |]. now rewrite <- Hcache.
  - rewrite app_nil_r. split; [| exact Hsteady].
    rewrite lookup_insert_ne; [exact Hcache |].
    intros E. apply key_inj in E as [-> ->]. apply Ha. now apply addressed_own.
Qed.

Lemma apply_sends_faithful ws : forall st, faithful st -> faithful (apply_sends ws st).
Proof.
  induction ws as [| [[d c] b] ws IH]; intros st Hf; [exact Hf |].
  apply IH, send_faithful, Hf.
Qed.

Lemma run_faithful cs : faithful (run cs init).
Proof.
  destruct (run_sends cs init) as [ws ->].
  apply apply_sends_faithful, init_faithful.
Qed.

(** X1. After any sequence of calls of the manager from start-up, the cache
    entry of every (deck, code) pair is the byte the device last received
    for that LED, and is missing exactly when the device received none. *)
Theorem cache_mirrors_device :
  forall (cs : list call) (d : Z) (c : jscode),
    cache (run cs init) !! key d c
    = last (bytes_for d c (midi_out (run cs init))).
Proof. intros cs d c. apply run_faithful. Qed.

(** X2. Over any sequence of calls of the manager from start-up, the device
    never receives the same status byte twice in a row for one LED of one
    deck. *)
Theorem no_redundant_write :
  forall (cs : list call) (d : Z) (c : jscode),
    steady (bytes_for d c (midi_out (run cs init))).
Proof. intros cs d c. apply run_faithful. Qed.

End LedRuns.

(** ** Resetting the LEDs *)

Section LedReset.

Import Led.
Local Open Scope Z_scope.

Lemma cache_send d c b st k :
  cache (send d c b st) !! k
  = if String.eqb (key d c) k then Some b else cache st !! k.
Proof.
  unfold send. destruct (String.eqb_spec (key d c) k) as [<- | Hk].
  - case_decide as Hhit; [exact Hhit | simpl; apply lookup_insert_eq].
  - case_decide as Hhit; [reflexivity | simpl; now apply lookup_insert_ne].
Qed.

Lemma cache_apply_sends ws :
  forall st k,
    cache (apply_sends ws st) !! k
    = match last_write k ws with Some b => Some b | None => cache st !! k end.
Proof.
  induction ws as [| [[d c] b] ws IH]; intros st k; [reflexivity |].
  change (apply_sends (((d, c), b) :: ws) st)
    with (apply_sends ws (send d c b st)).
  rewrite IH. simpl. destruct (last_write k ws); [reflexivity |].
  rewrite cache_send. now destruct (String.eqb (key d c) k).
Qed.

Lemma midi_apply_sends ws :
  forall st, midi_out (apply_sends ws st) = midi_out st ++ emitted ws (cache st).
Proof.
  induction ws as [| [[d c] b] ws IH]; intros st; [simpl; now rewrite app_nil_r |].
  change (apply_sends (((d, c), b) :: ws) st)
    with (apply_sends ws (send d c b st)).
  rewrite IH. simpl. unfold send. case_decide; [reflexivity |].
  simpl. now rewrite <- app_assoc.
Qed.

(** The messages a list of writes gives rise to depend on the cache only at
    the keys the writes go to. *)
Lemma emitted_local ws :
  forall m m',
    (forall w, w ∈ ws -> m !! write_key w = m' !! write_key w) ->
    emitted ws m = emitted ws m'.
Proof.
  induction ws as [| [[d c] b] ws IH]; intros m m' Hagree; [reflexivity |].
  simpl. pose proof (Hagree (d, c, b) ltac:(left)) as Hk. simpl in Hk.
  rewrite Hk. case_decide.
  - apply IH. intros w Hw. apply Hagree. now right.
  - f_equal. apply IH. intros w Hw.
    destruct (decide (key d c = write_key w)) as [E | E].
    + now rewrite E, !lookup_insert_eq.
    + rewrite !lookup_insert_ne by done. apply Hagree. now right.
Qed.

Lemma last_write_in ws w : w ∈ ws -> is_Some (last_write (write_key w) ws).
Proof.
  induction ws as [| w' ws IH]; intros Hin; [now apply elem_of_nil in Hin |].
  simpl. destruct (last_write (write_key w) ws) eqn:E; [now eexists |].
  apply elem_of_cons in Hin as [<- | Hin].
  - rewrite String.eqb_refl. now eexists.
  - destruct (IH Hin) as [b Hb]. congruence.
Qed.

Lemma bulk_plain entries :
  forall st,
    plain_names entries ->
    bulk entries st = Finished (apply_sends (bulk_writes entries) st).
Proof.
  induction entries as [| [n s] rest IH]; intros st Hplain; [reflexivity |].
  apply Forall_cons in Hplain as [Hn Hrest]. simpl in Hn.
  unfold bulk_writes. simpl. fold (bulk_writes rest).
  rewrite apply_sends_app. unfold set.
  destruct (LED_MAP_get n) as [def | |] eqn:Hdef; [| contradiction |].
  - rewrite (write_led_own n def) by done. now apply IH.
  - rewrite write_led_undefined by done. now apply IH.
Qed.

Lemma plain_names_check entries :
  forallb (fun e => match LED_MAP_get (fst e) with Inherited => false | _ => true end)
          entries = true ->
  plain_names entries.
Proof.
  intros H. apply Forall_forall. intros e He.
  rewrite forallb_forall in H. apply list_elem_of_In, H in He.
  now destruct (LED_MAP_get (fst e)).
Qed.

Lemma resetDefaults_writes st :
  resetDefaults st = Finished (apply_sends reset_writes st).
Proof.
  unfold resetDefaults.
  rewrite bulk_plain by (apply plain_names_check; vm_compute; reflexivity).
  unfold set.
  rewrite (write_led_own "vinylmode" {| code := 6; decks := [1; 2] |})
    by reflexivity.
  unfold result_of. rewrite <- apply_sends_app.
  apply (f_equal Finished). apply (f_equal (fun ws => apply_sends ws st)).
  vm_compute. reflexivity.
Qed.

Lemma own_property_In {A} name (o : list (string * A)) v :
  own_property name o = Some v -> (name, v) ∈ o.
Proof.
  induction o as [| [k x] o IH]; simpl; [discriminate |].
  destruct (String.eqb_spec k name) as [-> | _].
  - intros [= ->]. left.
  - intros H. right. now apply IH.
Qed.

Lemma reset_writes_table :
  forallb (fun '(name, def) =>
             forallb (fun d =>
                        bool_decide
                          (last_write (key d (Code (code def))) reset_writes
                           = Some (default_byte name)))
                     (decks def))
          LED_MAP = true.
Proof. vm_compute. reflexivity. Qed.

(** X3. From any state, [resetDefaults] finishes and leaves in the cache,
    for every LED of the table on every deck the LED belongs to, the byte
    OFF, except for the vinyl-mode LED, which it leaves ON on both decks. *)
Theorem resetDefaults_leaves :
  forall st : State,
    exists st',
      resetDefaults st = Finished st' /\
      forall (name : string) (def : LedDef) (d : Z),
        LED_MAP_get name = OwnDef def ->
        d ∈ decks def ->
        cache st' !! key d (Code (code def))
        = Some (if String.eqb name "vinylmode" then LED_ON else LED_OFF).
Proof.
  intros st. exists (apply_sends reset_writes st).
  split; [apply resetDefaults_writes |].
  intros name def d Hdef Hd.
  assert ((name, def) ∈ LED_MAP) as Hin.
  { apply own_property_In. unfold LED_MAP_get in Hdef.
    destruct (own_property name LED_MAP); [congruence |].
    destruct (existsb _ _); discriminate. }
  pose proof reset_writes_table as Htab.
  rewrite forallb_forall in Htab.
  apply list_elem_of_In in Hin. specialize (Htab _ Hin).
  cbv beta iota in Htab. rewrite forallb_forall in Htab.
  apply list_elem_of_In in Hd. specialize (Htab _ Hd).
  apply bool_decide_eq_true in Htab.
  rewrite cache_apply_sends, Htab. reflexivity.
Qed.

(** X4. A second [resetDefaults] right after a first leaves the cache as it
    is but is not silent: it switches the vinyl-mode LED off and on again on
    both decks, four device messages in all. *)
Theorem resetDefaults_again :
  forall st : State,
    exists st1 st2,
      resetDefaults st = Finished st1 /\
      resetDefaults st1 = Finished st2 /\
      cache st2 = cache st1 /\
      midi_out st2
      = midi_out st1
        ++ [ MidiMsg 0xB0 LED_OFF (Code 6); MidiMsg 0xB1 LED_OFF (Code 6);
             MidiMsg 0xB0 LED_ON (Code 6); MidiMsg 0xB1 LED_ON (Code 6) ].
Proof.
  intros st.
  exists (apply_sends reset_writes st).
  exists (apply_sends reset_writes (apply_sends reset_writes st)).
  split; [apply resetDefaults_writes |].
  split; [apply resetDefaults_writes |].
  split.
  - apply map_eq. intros k. rewrite !cache_apply_sends.
    now destruct (last_write k reset_writes).
  - rewrite midi_apply_sends. f_equal.
    rewrite (emitted_local reset_writes _ (cache (apply_sends reset_writes init))).
    + vm_compute. reflexivity.
    + intros w Hw. rewrite !cache_apply_sends.
      now destruct (last_write_in reset_writes w Hw) as [b ->].
Qed.

(** X5. When no name of the map is a property name inherited from
    [Object.prototype], [bulk] finishes and does what the [set] calls of its
    entries, made one after the other, do. *)
Theorem bulk_is_sets :
  forall (entries : list (string * jsval)) (st : State),
    plain_names entries ->
    bulk entries st
    = Finished (run (map (fun e => CallSet (fst e) (snd e) None) entries) st).
Proof.
  induction entries as [| [n s] rest IH]; intros st Hplain; [reflexivity |].
  apply Forall_cons in Hplain as [Hn Hrest]. simpl in Hn.
  simpl. unfold run. simpl.
  fold (run (map (fun e => CallSet (fst e) (snd e) None) rest)).
  unfold set, write_led.
  destruct (LED_MAP_get n) as [def | |] eqn:Hdef; [| contradiction |];
    simpl; now rewrite IH.
Qed.

Lemma bulk_is_sets_witness :
  bulk [("play"%string, JStr "on"); ("strobe"%string, JNum 1);
        ("cue"%string, JBool false)] init
  = Finished {| cache := {[ "1|39"%string := 0x4A; "2|39"%string := 0x4A;
                            "1|38"%string := 0x4B; "2|38"%string := 0x4B ]};
                midi_out := [ MidiMsg 0xB0 0x4A (Code 39); MidiMsg 0xB1 0x4A (Code 39);
                              MidiMsg 0xB0 0x4B (Code 38); MidiMsg 0xB1 0x4B (Code 38) ] |}.
Proof.
  rewrite bulk_is_sets.
  - reflexivity.
  - repeat constructor; simpl; discriminate.
Defined.

End LedReset.

(** ** Blinking *)

Section Blinking.

Import Led Blink.
Local Open Scope Z_scope.

Lemma fire_stopped b led : b_running b = false -> fire b led = (b, Finished led).
Proof. intros H. unfold fire. now rewrite H. Qed.

Lemma fire_n_stopped n b led : b_running b = false -> fire_n n b led = (b, led).
Proof.
  intros H. induction n as [| n IH]; [reflexivity |].
  simpl. now rewrite fire_stopped.
Qed.

Lemma set_plain name status opts st :
  LED_MAP_get name <> Inherited ->
  set name status opts st
  = Returns (state_of (exec (CallSet name status opts) st)).
Proof.
  intros Hp. simpl. unfold set, write_led.
  destruct (LED_MAP_get name); [reflexivity | contradiction | reflexivity].
Qed.

(** After [m] periods the timer has fired [min m (remaining b)] times. *)
Lemma fire_n_spec m :
  forall b led,
    LED_MAP_get (b_name b) <> Inherited ->
    let k := Nat.min m (remaining b) in
    let '(b', led') := fire_n m b led in
    b_running b' = (b_running b && (m <? remaining b)%nat) /\
    b_fired b' = b_fired b + Z.of_nat k /\
    b_name b' = b_name b /\ b_opts b' = b_opts b /\ b_cycles b' = b_cycles b /\
    led' = run (flips (b_name b) (b_opts b) (b_on b) k) led.
Proof.
  induction m as [| m IH]; intros b led Hp; cbv zeta.
  - simpl. rewrite Z.add_0_r. repeat split.
    unfold remaining. destruct (b_running b); [| reflexivity].
    simpl. symmetry. apply Nat.ltb_lt. lia.
  - destruct (b_running b) eqn:Hrun.
    + simpl. unfold fire at 1. rewrite Hrun.
      rewrite set_plain by exact Hp.
      set (led1 := state_of (exec (CallSet _ _ _) led)).
      set (b1 := {| b_name := b_name b; b_opts := b_opts b;
                    b_period := b_period b; b_cycles := b_cycles b;
                    b_on := negb (b_on b); b_fired := b_fired b + 1;
                    b_running := negb (b_cycles b <=? b_fired b + 1) |}).
      change (state_of (Finished led1)) with led1.
      specialize (IH b1 led1 Hp). cbv zeta in IH.
      destruct (fire_n m b1 led1) as [b' led'].
      destruct IH as (I1 & I2 & I3 & I4 & I5 & I6).
      assert (remaining b = S (remaining b1)) as Hrem.
      { unfold remaining. rewrite Hrun. simpl.
        destruct (Z.leb_spec (b_cycles b) (b_fired b + 1)); simpl; lia. }
      rewrite Hrem. simpl Nat.min.
      assert (b_running b1 && (m <? remaining b1)%nat = (m <? remaining b1)%nat)
        as Hand.
      { unfold remaining. destruct (b_running b1); [reflexivity |].
        simpl. symmetry. apply Nat.ltb_ge. lia. }
      split; [now rewrite I1, Hand |].
      split; [rewrite I2; simpl; lia |].
      split; [exact I3 |]. split; [exact I4 |]. split; [exact I5 |].
      exact I6.
    + rewrite fire_n_stopped by exact Hrun.
      unfold remaining. rewrite Hrun. simpl. rewrite Z.add_0_r.
      repeat split.
Qed.

Lemma blink_flips_aux name period cycles opts led m :
  LED_MAP_get name <> Inherited ->
  let b := blink name period cycles opts in
  let n := Z.to_nat (Z.max 1 (or_default cycles 6)) in
  b_running (fst (fire_n m b led)) = (m <? n)%nat /\
  b_fired (fst (fire_n m b led)) = Z.of_nat (Nat.min m n) /\
  snd (fire_n m b led) = run (flips name opts true (Nat.min m n)) led.
Proof.
  intros Hp. cbv zeta.
  pose proof (fire_n_spec m (blink name period cycles opts) led Hp) as H.
  cbv zeta in H.
  destruct (fire_n m (blink name period cycles opts) led) as [b' led'].
  destruct H as (H1 & H2 & _ & _ & _ & H6).
  assert (remaining (blink name period cycles opts)
          = Z.to_nat (Z.max 1 (or_default cycles 6))) as Hrem
    by (unfold remaining; simpl; f_equal; lia).
  rewrite Hrem in *. simpl in *. now rewrite H1, H2, H6.
Qed.

(** X6. A blink on a name that is a table name or an unknown name fires
    max(1, cycles) times, 6 when [cycles] is missing or 0, and then stops
    its own timer: after [m] periods the timer is still armed exactly when
    [m] is below that count, and the manager has received the [set] calls
    on, off, on, ... of the flips so far. *)
Theorem blink_flips :
  forall (name : string) (period cycles opts : option Z) (led : State) (m : nat),
    LED_MAP_get name <> Inherited ->
    let b := blink name period cycles opts in
    let n := Z.to_nat (Z.max 1 (or_default cycles 6)) in
    b_running (fst (fire_n m b led)) = (m <? n)%nat /\
    b_fired (fst (fire_n m b led)) = Z.of_nat (Nat.min m n) /\
    snd (fire_n m b led) = run (flips name opts true (Nat.min m n)) led.
Proof. intros. now apply blink_flips_aux. Qed.

Lemma blink_flips_witness :
  let b := blink "play" None (Some 3) (Some 1) in
  b_running (fst (fire_n 2 b init)) = true /\
  b_running (fst (fire_n 3 b init)) = false /\
  midi_out (snd (fire_n 5 b init))
  = [MidiMsg 0xB0 0x4A (Code 39); MidiMsg 0xB0 0x4B (Code 39);
     MidiMsg 0xB0 0x4A (Code 39)].
Proof.
  cbv zeta.
  destruct (blink_flips "play" None (Some 3) (Some 1) init 2) as (H2 & _);
    [discriminate |].
  destruct (blink_flips "play" None (Some 3) (Some 1) init 3) as (H3 & _);
    [discriminate |].
  destruct (blink_flips "play" None (Some 3) (Some 1) init 5) as (_ & _ & H5);
    [discriminate |].
  rewrite H2, H3, H5. repeat split.
Defined.

Lemma last_write_byte ws k b b' :
  (forall w, w ∈ ws -> snd w = b) -> last_write k ws = Some b' -> b' = b.
Proof.
  induction ws as [| w ws IH]; intros Hall; simpl; [discriminate |].
  destruct (last_write k ws) eqn:E.
  - intros [= <-]. apply IH; [| reflexivity]. intros w' Hw'. apply Hall. now right.
  - destruct (String.eqb (write_key w) k); [| discriminate].
    intros [= <-]. apply Hall. left.
Qed.

Lemma def_writes_last def b opts d :
  d ∈ match opts_deck opts with Some d' => [d'] | None => decks def end ->
  last_write (key d (Code (code def))) (def_writes def b opts) = Some b.
Proof.
  unfold def_writes.
  generalize (match opts_deck opts with Some d' => [d'] | None => decks def end).
  intros ds. induction ds as [| d' ds IH]; intros Hin;
    [now apply elem_of_nil in Hin |].
  simpl. destruct (decide (d ∈ ds)) as [Hd | Hd]; [now rewrite IH |].
  apply elem_of_cons in Hin as [-> | Hin]; [| contradiction].
  rewrite String.eqb_refl.
  destruct (last_write _ _) as [b' |] eqn:E; [| reflexivity].
  f_equal. eapply last_write_byte; [| exact E].
  intros w Hw. apply list_elem_of_In, in_map_iff in Hw as (x & <- & _).
  reflexivity.
Qed.

Lemma set_caches name def status opts d st :
  LED_MAP_get name = OwnDef def ->
  d ∈ match opts_deck opts with Some d' => [d'] | None => decks def end ->
  cache (state_of (exec (CallSet name status opts) st)) !! key d (Code (code def))
  = Some (normalize status).
Proof.
  intros Hdef Hd. simpl. unfold set.
  rewrite (write_led_own name def) by exact Hdef. simpl.
  now rewrite cache_apply_sends, def_writes_last.
Qed.

Lemma flips_last name def opts d k :
  LED_MAP_get name = OwnDef def ->
  d ∈ match opts_deck opts with Some d' => [d'] | None => decks def end ->
  forall on st,
    cache (run (flips name opts on (S k)) st) !! key d (Code (code def))
    = Some (if Bool.eqb on (Nat.even k) then LED_ON else LED_OFF).
Proof.
  intros Hdef Hd. induction k as [| k IH]; intros on st.
  - change (run (flips name opts on 1) st)
      with (state_of (exec (CallSet name (JStr (if on then "on" else "off")) opts) st)).
    rewrite (set_caches name def) by assumption. now destruct on.
  - change (run (flips name opts on (S (S k))) st)
      with (run (flips name opts (negb on) (S k))
                (state_of (exec (CallSet name (JStr (if on then "on" else "off"))
                                         opts) st))).
    rewrite IH. rewrite Nat.even_succ, <- Nat.negb_even.
    now destruct on, (Nat.even k).
Qed.

Lemma blink_leaves_aux name def period cycles opts led m d :
  LED_MAP_get name = OwnDef def ->
  d ∈ match opts_deck opts with Some d' => [d'] | None => decks def end ->
  (Z.to_nat (Z.max 1 (or_default cycles 6)) <= m)%nat ->
  cache (snd (fire_n m (blink name period cycles opts) led))
    !! key d (Code (code def))
  = Some (if Nat.odd (Z.to_nat (Z.max 1 (or_default cycles 6)))
          then LED_ON else LED_OFF).
Proof.
  intros Hdef Hd Hm. set (n := Z.to_nat (Z.max 1 (or_default cycles 6))) in *.
  assert (LED_MAP_get name <> Inherited) as Hp by congruence.
  destruct (blink_flips_aux name period cycles opts led m Hp) as (_ & _ & ->).
  fold n. rewrite Nat.min_r by exact Hm.
  assert (exists k, n = S k) as [k Hk] by (exists (Nat.pred n); unfold n; lia).
  rewrite Hk, (flips_last name def) by assumption.
  rewrite Nat.odd_succ. now destruct (Nat.even k).
Qed.

(** X7. When a blink of a table LED has run out, the LED is left at the
    status of the last flip on every deck it was sent to: ON when the number
    of flips is odd, OFF when it is even. *)
Theorem blink_leaves :
  forall (name : string) (def : LedDef) (period cycles opts : option Z)
         (led : State) (m : nat) (d : Z),
    LED_MAP_get name = OwnDef def ->
    d ∈ match opts_deck opts with Some d' => [d'] | None => decks def end ->
    let n := Z.to_nat (Z.max 1 (or_default cycles 6)) in
    (n <= m)%nat ->
    cache (snd (fire_n m (blink name period cycles opts) led))
      !! key d (Code (code def))
    = Some (if Nat.odd n then LED_ON else LED_OFF).
Proof. intros. now apply blink_leaves_aux. Qed.

Lemma blink_leaves_witness :
  cache (snd (fire_n 7 (blink "cue" (Some 250) (Some 5) (Some 2)) init))
    !! key 2 (Code 38)
  = Some LED_ON.
Proof.
  apply (blink_leaves "cue" {| code := 38; decks := [1; 2] |}
           (Some 250) (Some 5) (Some 2) init 7 2).
  - reflexivity.
  - simpl. left.
  - simpl. lia.
Defined.

(** X8. [blinkShiftLock] blinks in steps of 500 ms. A duration that is not
    a positive number gives 4 flips; a positive duration below 500 ms gives
    6 flips, three seconds, not none; any other duration gives one flip per
    full 500 ms. Once the blink has run out the shift-lock LED is left ON
    on both decks when the number of flips is odd, whatever the shift lock
    is. *)
Theorem blinkShiftLock_flips :
  forall duration : option Z,
    let b := blinkShiftLock duration in
    let n := Z.to_nat (Z.max 1 (b_cycles b)) in
    b_period b = 500 /\
    n = match duration with
        | Some d =>
            if 0 <? d then (if d <? 500 then 6%nat else Z.to_nat (d / 500))
            else 4%nat
        | None => 4%nat
        end /\
    forall (led : State) (m : nat) (deck : Z),
      (n <= m)%nat -> deck = 1 \/ deck = 2 ->
      b_running (fst (fire_n m b led)) = false /\
      cache (snd (fire_n m b led)) !! key deck (Code 2)
      = Some (if Nat.odd n then LED_ON else LED_OFF).
Proof.
  intros duration. cbv zeta.
  set (dur := match duration with
              | Some d => if 0 <? d then d else 2000
              | None => 2000
              end).
  assert (blinkShiftLock duration
          = blink "shiftlock" (Some 500) (Some (dur / 500)) None) as -> by reflexivity.
  split; [reflexivity |]. split.
  - simpl b_cycles. unfold or_default, dur.
    destruct duration as [d |]; [| reflexivity].
    destruct (Z.ltb_spec 0 d); [| reflexivity].
    destruct (Z.ltb_spec d 500).
    + rewrite Z.div_small by lia. reflexivity.
    + assert (1 <= d / 500) by (apply Z.div_le_lower_bound; lia).
      destruct (Z.eqb_spec (d / 500) 0); lia.
  - intros led m deck Hm Hdeck.
    assert (LED_MAP_get "shiftlock" <> Inherited) as Hp by discriminate.
    split.
    + destruct (blink_flips_aux "shiftlock" (Some 500) (Some (dur / 500)) None
                  led m Hp) as (-> & _).
      apply Nat.ltb_ge. exact Hm.
    + apply (blink_leaves_aux "shiftlock" {| code := 2; decks := [1; 2] |});
        [reflexivity | | exact Hm].
      simpl. destruct Hdeck as [-> | ->]; [left | right; left].
Qed.

End Blinking.

(** ** The shift layer over sequences of events *)

Section ShiftRuns.

Import Shift.
Local Open Scope Z_scope.

Lemma applyShiftState_hotcues shifted d :
  length (hotcueButtons (applyShiftState shifted d)) = length (hotcueButtons d).
Proof. simpl. apply length_map. Qed.

Lemma built_well_built held locked l : well_built (built held locked l).
Proof. split; [apply built_in_step | intros []; reflexivity]. Qed.

Lemma updateShiftState_well_built st :
  (forall u, length (hotcueButtons (get u (decks st))) = 4%nat) ->
  well_built (updateShiftState st).
Proof.
  intros Hlen. split; [apply updateShiftState_in_step |].
  intros u. rewrite updateShiftState_decks, applyShiftState_hotcues. apply Hlen.
Qed.

Lemma dispatch_input_decks c v u st :
  decks (dispatch_input c v u st) = decks st /\
  shiftHeld (dispatch_input c v u st) = shiftHeld st /\
  shiftLock (dispatch_input c v u st) = shiftLock st /\
  led (dispatch_input c v u st) = led st.
Proof.
  unfold dispatch_input. now destruct (input c (get u (decks st))).
Qed.

Lemma dispatch_input_well_built c v u st :
  well_built st -> well_built (dispatch_input c v u st).
Proof.
  intros [Hstep Hlen].
  destruct (dispatch_input_decks c v u st) as (Hd & Hh & Hl & _).
  split.
  - intros u' c' b. unfold isShiftActive. rewrite Hd, Hh, Hl. apply Hstep.
  - intros u'. rewrite Hd. apply Hlen.
Qed.

Lemma cueButton_well_built v u st : well_built st -> well_built (cueButton v u st).
Proof.
  intros [Hstep Hlen]. unfold cueButton. apply dispatch_input_well_built.
  split.
  - intros u' c b. unfold isShiftActive. simpl.
    destruct u, u'; simpl; intros H;
      first [ exact (input_applyShiftState_inv _ _ _ _ H)
            | exact (Hstep Channel1 c b H) | exact (Hstep Channel2 c b H) ].
  - intros u'. simpl. destruct u, u'; simpl;
      rewrite ?length_map; first [apply (Hlen Channel1) | apply (Hlen Channel2)].
Qed.

Lemma handle_well_built e st : well_built st -> well_built (handle e st).
Proof.
  intros Hw. pose proof Hw as [Hstep Hlen].
  destruct e as [v | v u | c v u | n v u]; simpl.
  - unfold toggleShift. apply updateShiftState_well_built. exact Hlen.
  - unfold pflButton. destruct (isButtonOn v && shiftHeld st).
    + apply updateShiftState_well_built. exact Hlen.
    + exact Hw.
  - destruct c; simpl; try (now apply dispatch_input_well_built).
    now apply cueButton_well_built.
  - unfold hotcuePad. destruct (_ || _); [exact Hw |].
    destruct (_ !! _); [now apply dispatch_input_well_built | exact Hw].
Qed.

(** X9. In every state reached from [buildComponents] by shift, PFL,
    button and hot cue pad events, every shift-capable control of both
    decks is bound to the handler the effective shift (held or locked)
    selects, and both decks keep their four hot cue buttons. *)
Theorem bindings_in_step :
  forall (held locked : bool) (l : Led.State) (es : list event),
    well_built (run es (built held locked l)).
Proof.
  intros held locked l es.
  assert (forall st, well_built st -> well_built (run es st)) as H.
  { induction es as [| e es IH]; intros st Hw; [exact Hw |].
    apply IH, handle_well_built, Hw. }
  apply H, built_well_built.
Qed.

(** *** The shift-lock LED *)

Lemma updateShiftState_led st :
  led (updateShiftState st)
  = Led.state_after (Led.reflect "shiftlock" (shiftLock st) None (led st)) (led st).
Proof. reflexivity. Qed.

Lemma updateShiftState_lock_shown st : lock_shown (updateShiftState st).
Proof.
  intros d Hd.
  destruct (updateShiftState_flags st) as (_ & -> & _).
  rewrite updateShiftState_led.
  unfold Led.reflect, Led.set.
  rewrite (write_led_own "shiftlock" {| Led.code := 2; Led.decks := [1; 2] |})
    by reflexivity.
  cbv beta iota delta [Led.state_after]. rewrite cache_apply_sends.
  rewrite (def_writes_last {| Led.code := 2; Led.decks := [1; 2] |}).
  - now destruct (shiftLock st).
  - simpl. destruct Hd as [-> | ->]; [left | right; left].
Qed.

Lemma cueButton_led v u st :
  led (cueButton v u st) = led st /\ shiftLock (cueButton v u st) = shiftLock st.
Proof.
  unfold cueButton, dispatch_input. cbv zeta.
  now destruct (input Cue _).
Qed.

Lemma handle_lock_shown e st : lock_shown st -> lock_shown (handle e st).
Proof.
  intros Hs. destruct e as [v | v u | c v u | n v u]; unfold handle.
  - apply updateShiftState_lock_shown.
  - unfold pflButton. destruct (isButtonOn v && shiftHeld st);
      [apply updateShiftState_lock_shown | exact Hs].
  - assert (forall c', lock_shown (dispatch_input c' v u st)) as Hd.
    { intros c' d Hd.
      destruct (dispatch_input_decks c' v u st) as (_ & _ & -> & ->). now apply Hs. }
    destruct c; try apply Hd.
    change (button Cue v u st) with (cueButton v u st).
    intros d Hd'. destruct (cueButton_led v u st) as [-> ->]. now apply Hs.
  - unfold hotcuePad. cbv zeta. destruct (_ || _); [exact Hs |].
    destruct (_ !! _); [| exact Hs].
    intros d Hd.
    destruct (dispatch_input_decks (Hotcue (Z.to_nat (mapHotcue n - 1))) v u st)
      as (_ & _ & -> & ->).
    now apply Hs.
Qed.

(** X10. From the first shift-button event on, whatever the LED cache held
    before, the cache entry of the shift-lock LED is ON on both decks while
    the shift lock is set and OFF while it is not, through every later run
    of shift-button, PFL, control-button and hot cue pad events. Calls that
    write LEDs outside these handlers, [resetDefaults] among them, are not
    part of such a run. *)
Theorem shift_lock_led :
  forall (st : State) (value : Z) (es : list event) (d : Z),
    d = 1 \/ d = 2 ->
    let st' := run es (toggleShift value st) in
    Led.cache (led st') !! Led.key d (Led.Code 2)
    = Some (if shiftLock st' then Led.LED_ON else Led.LED_OFF).
Proof.
  intros st value es d Hd. cbv zeta.
  assert (forall s, lock_shown s -> lock_shown (run es s)) as H.
  { induction es as [| e es IH]; intros s Hs; [exact Hs |].
    apply IH, handle_lock_shown, Hs. }
  apply H; [apply updateShiftState_lock_shown | exact Hd].
Qed.

Lemma shift_lock_led_witness :
  let st' := run [PflButton 0x7F Channel2; ShiftButton 0]
                 (toggleShift 0x7F (built false false Led.init)) in
  Led.cache (led st') !! Led.key 1 (Led.Code 2)
  = Some (if shiftLock st' then Led.LED_ON else Led.LED_OFF).
Proof.
  apply (shift_lock_led (built false false Led.init) 0x7F
           [PflButton 0x7F Channel2; ShiftButton 0] 1).
  now left.
Defined.

(** X11. Pressing PFL while the shift button is held toggles the shift
    lock. After the shift button is released again the effective shift is
    the new lock, and every control is bound accordingly: with the lock set
    the shifted handlers stay bound although shift is no longer held. *)
Theorem shift_lock_chord_toggles :
  forall (st : State) (shift pfl : Z) (u : unit_id),
    isButtonOn shift = true ->
    isButtonOn pfl = true ->
    let st' := run [ShiftButton shift; PflButton pfl u; ShiftButton 0] st in
    shiftLock st' = negb (shiftLock st) /\
    shiftHeld st' = false /\
    isShiftActive st' = negb (shiftLock st) /\
    forall u' c b, input c (get u' (decks st')) = Some b ->
                   b = bound (negb (shiftLock st)).
Proof.
  intros st shift pfl u Hshift Hpfl. cbv zeta.
  change (run [ShiftButton shift; PflButton pfl u; ShiftButton 0] st)
    with (toggleShift 0 (pflButton pfl u (toggleShift shift st))).
  assert (forall s, shiftHeld (updateShiftState s) = shiftHeld s
                    /\ shiftLock (updateShiftState s) = shiftLock s) as Hflags
    by (intros s; split; apply updateShiftState_flags).
  remember (toggleShift shift st) as st1 eqn:E1.
  assert (shiftHeld st1 = true /\ shiftLock st1 = shiftLock st) as [Hh1 Hl1].
  { subst st1. unfold toggleShift.
    destruct (Hflags (with_shiftHeld (isButtonOn shift) st)) as [-> ->].
    split; [exact Hshift | reflexivity]. }
  remember (pflButton pfl u st1) as st2 eqn:E2.
  assert (shiftLock st2 = negb (shiftLock st)) as Hl2.
  { subst st2. unfold pflButton. rewrite Hpfl, Hh1.
    change (true && true) with true. cbv iota.
    destruct (Hflags (with_shiftLock (negb (shiftLock st1)) st1)) as [_ ->].
    change (shiftLock (with_shiftLock (negb (shiftLock st1)) st1))
      with (negb (shiftLock st1)).
    now rewrite Hl1. }
  remember (toggleShift 0 st2) as st3 eqn:E3.
  assert (shiftHeld st3 = false /\ shiftLock st3 = negb (shiftLock st))
    as [Hh3 Hl3].
  { subst st3. unfold toggleShift.
    destruct (Hflags (with_shiftHeld (isButtonOn 0) st2)) as [-> ->].
    split; [reflexivity | exact Hl2]. }
  assert (isShiftActive st3 = negb (shiftLock st)) as Hact
    by (unfold isShiftActive; now rewrite Hh3, Hl3).
  split; [exact Hl3 |]. split; [exact Hh3 |]. split; [exact Hact |].
  intros u' c b Hb. rewrite <- Hact. subst st3.
  now apply (updateShiftState_in_step _ u' c).
Qed.

Lemma shift_lock_chord_toggles_witness :
  let st' := run [ShiftButton 0x7F; PflButton 0x40 Channel1; ShiftButton 0]
                 (built false false Led.init) in
  shiftLock st' = true /\ isShiftActive st' = true.
Proof.
  destruct (shift_lock_chord_toggles (built false false Led.init)
              0x7F 0x40 Channel1) as (H1 & _ & H3 & _);
    [reflexivity | reflexivity |].
  split; [exact H1 | exact H3].
Defined.

(** X12. The hot cue pads answer to the notes 0x17, 0x18, 0x19 and 0x20
    only, as hot cues 1 to 4: an event with any other note leaves the state
    as it is, and an event with one of these notes goes to that hot cue
    button's handler for the current effective shift. *)
Theorem hotcuePad_notes :
  forall (control value : Z) (u : unit_id) (st : State),
    well_built st ->
    let n := mapHotcue control in
    (n = -1 <-> control <> 0x17 /\ control <> 0x18 /\ control <> 0x19
                /\ control <> 0x20) /\
    (n = -1 -> hotcuePad control value u st = st) /\
    (n <> -1 ->
     1 <= n <= 4 /\
     dispatched (hotcuePad control value u st)
     = dispatched st
       ++ [Dispatch (Hotcue (Z.to_nat (n - 1))) (bound (isShiftActive st)) value]).
Proof.
  intros control value u st [Hstep Hlen]. cbv zeta.
  assert (mapHotcue control = -1 \/ 1 <= mapHotcue control <= 4) as Hrange.
  { unfold mapHotcue. repeat (destruct (_ =? _); [lia |]). lia. }
  split; [| split].
  - unfold mapHotcue.
    destruct (Z.eqb_spec control 0x17); [lia |].
    destruct (Z.eqb_spec control 0x18); [lia |].
    destruct (Z.eqb_spec control 0x19); [lia |].
    destruct (Z.eqb_spec control 0x20); [lia |]. lia.
  - intros Hn. unfold hotcuePad. rewrite Hn. reflexivity.
  - intros Hn. destruct Hrange as [? | Hr]; [contradiction |].
    split; [exact Hr |].
    unfold hotcuePad.
    destruct (Z.ltb_spec (mapHotcue control) 1); [lia |].
    destruct (Z.ltb_spec 4 (mapHotcue control)); [lia |]. simpl orb.
    destruct (hotcueButtons (get u (decks st)) !! Z.to_nat (mapHotcue control - 1))
      as [b |] eqn:Hb.
    + unfold dispatch_input. simpl input. rewrite Hb. simpl.
      now rewrite (Hstep u (Hotcue (Z.to_nat (mapHotcue control - 1))) b Hb).
    + apply lookup_ge_None in Hb. rewrite Hlen in Hb. lia.
Qed.

Lemma hotcuePad_notes_witness :
  dispatched (hotcuePad 0x20 0x7F Channel2
                (toggleShift 0x7F (built false false Led.init)))
  = [Dispatch (Hotcue 3) ShiftedInput 0x7F].
Proof.
  destruct (hotcuePad_notes 0x20 0x7F Channel2
              (toggleShift 0x7F (built false false Led.init)))
    as (_ & _ & H); [| destruct H as [_ H]; [discriminate | exact H]].
  apply updateShiftState_well_built. intros []; reflexivity.
Defined.

End ShiftRuns.

(** ** Jog wheels: what every reachable state satisfies *)

Section JogRuns.

Import Jog.
Local Open Scope Z_scope.

(** An invariant kept by every firing timer of a consistent state is kept
    when time passes. *)
Lemma fold_fire_keeps (P : State -> Prop) :
  (forall st t, consistent st -> t ∈ timers st -> P st -> P (fire t st)) ->
  forall ts st,
    consistent st -> NoDup ts -> (forall t, t ∈ ts -> t ∈ timers st) ->
    P st -> P (foldl (fun s t => fire t s) st ts).
Proof.
  intros Hfire. induction ts as [| t ts IH]; intros st Hc Hnd Hsub HP;
    [exact HP |].
  apply NoDup_cons in Hnd as [Hnotin Hnd].
  assert (t ∈ timers st) as Ht by (apply Hsub; left).
  destruct (fire_spec t st Hc Ht) as (Hc1 & _ & _ & Htm).
  simpl. apply IH; try assumption.
  - intros t' Ht'. rewrite Htm. apply list_elem_of_filter. split.
    + intros E. apply Hnotin.
      assert (t' = t) as <-; [| exact Ht'].
      destruct Hc as (_ & Hh & _).
      eapply handle_determines; eauto. apply Hsub. now right.
    + apply Hsub. now right.
  - now apply Hfire.
Qed.

Lemma advance_keeps (P : State -> Prop) :
  (forall st t, consistent st -> t ∈ timers st -> P st -> P (fire t st)) ->
  forall now st, consistent st -> P st -> P (advance now st).
Proof.
  intros Hfire now st Hc HP. pose proof Hc as (_ & Hnd & _).
  unfold advance. apply (fold_fire_keeps P Hfire); try assumption.
  - apply NoDup_filter. eapply NoDup_fmap_1. exact Hnd.
  - intros t Ht. now apply list_elem_of_filter in Ht as [_ Ht].
Qed.

Lemma run_keeps (P : State -> Prop) :
  (forall st t, consistent st -> t ∈ timers st -> P st -> P (fire t st)) ->
  (forall st e, consistent st -> P st -> P (handle e st)) ->
  forall es st, consistent st -> P st -> consistent (run es st) /\ P (run es st).
Proof.
  intros Hfire Hhandle. induction es as [| e es IH]; intros st Hc HP;
    [now split |].
  change (run (e :: es) st) with (run es (handle e (advance (e_time e) st))).
  pose proof (proj1 (advance_spec (e_time e) st Hc)) as Hc1.
  pose proof (advance_keeps P Hfire (e_time e) st Hc HP) as HP1.
  apply IH; [now apply handle_keeps | now apply Hhandle].
Qed.

(** *** Tracking the engine's scratch mode *)

Lemma scratch_calls_app deck l l' :
  scratch_calls deck (l ++ l') = scratch_calls deck l ++ scratch_calls deck l'.
Proof. apply omap_app. Qed.

Lemma track_app enabled l l' :
  track enabled (l ++ l')
  = match track enabled l with Some e => track e l' | None => None end.
Proof.
  revert enabled. induction l as [| c l IH]; intros enabled; [reflexivity |].
  simpl. destruct (Bool.eqb c enabled); [reflexivity | apply IH].
Qed.

Lemma deckIndex_inj u v : deckIndex u = deckIndex v -> u = v.
Proof. destruct u, v; simpl; congruence || lia. Qed.

Lemma deckIndex_eqb u v : (deckIndex u =? deckIndex v) = bool_decide (u = v).
Proof. now destruct u, v. Qed.

Lemma scratch_mode now m f u st :
  get u (scratchMode (scratch now m f u st))
  = if get u (jogScratchActive st) then get u (scratchMode st) else true.
Proof.
  unfold scratch.
  destruct (get u (jogScratchActive st)) eqn:Ha;
    [| destruct (Qeq_bool (getValue (group u) "slip_enabled" st) 0) eqn:Hs];
    destruct (get u (jogReleaseTimer st)) eqn:Ht;
    destruct u; simpl in *; rewrite ?Ht; reflexivity.
Qed.

Lemma same_unit_settled u st st' : same_unit u st st' -> settled u st -> settled u st'.
Proof.
  intros (A1 & A2 & A3 & _) [S1 S2]. unfold settled. now rewrite A1, A2, A3.
Qed.

(** The calls one handler adds for deck [v]. *)
Lemma scratch_calls_scratch now m f u v st :
  scratch_calls (deckIndex v) (engine_log (scratch now m f u st))
  = scratch_calls (deckIndex v) (engine_log st)
    ++ (if get u (jogScratchActive st) then []
        else if bool_decide (u = v) then [true] else []).
Proof.
  rewrite scratch_log, !scratch_calls_app. f_equal.
  unfold entry_calls, rearm_calls.
  destruct (get u (jogScratchActive st));
    destruct (Qeq_bool (getValue (group u) "slip_enabled" st) 0);
    destruct (get u (jogReleaseTimer st)); simpl;
    rewrite ?deckIndex_eqb; now destruct (bool_decide (u = v)).
Qed.

Lemma jogTouch_in_tune now value u st :
  consistent st -> in_tune st -> in_tune (jogTouch now value u st).
Proof.
  intros Hc Htune.
  destruct (Z.eq_dec (movement_of value) 0) as [Hz | Hm].
  { unfold jogTouch. rewrite Hz. exact Htune. }
  destruct (Qeq_bool (getValue (group u) "play" st) 1) eqn:Hp.
  - apply playing_test in Hp.
    destruct (jogTouch_tick now value u st Hc Hp Hm)
      as (_ & (Hact & h & Hslot & _) & _ & Hframe & _).
    intros v. destruct (Htune v) as [Hset Htrack].
    rewrite jogTouch_playing in * by done.
    rewrite scratch_calls_scratch, track_app.
    change (engine_log (ticked now u st)) with (engine_log st).
    change (jogScratchActive (ticked now u st)) with (jogScratchActive st).
    rewrite Htrack.
    destruct (decide (u = v)) as [<- | Huv].
    + rewrite bool_decide_eq_true_2 by reflexivity. split.
      * split.
        -- rewrite scratch_mode, Hact.
           change (jogScratchActive (ticked now u st)) with (jogScratchActive st).
           change (scratchMode (ticked now u st)) with (scratchMode st).
           destruct Hset as [Hmode _].
           destruct (get u (jogScratchActive st)); [exact Hmode | reflexivity].
        -- rewrite Hact, Hslot. split; [now eexists | reflexivity].
      * rewrite Hact. now destruct (get u (jogScratchActive st)).
    + rewrite bool_decide_eq_false_2 by exact Huv.
      assert (same_unit v st (scratch now (movement_of value)
                (speedFactor (next_tick_count now u st)) u (ticked now u st)))
        as Hsame by (apply Hframe; congruence).
      split; [now apply (same_unit_settled v st) |].
      destruct Hsame as (-> & _).
      now destruct (get u (jogScratchActive st)).
  - apply not_playing_test in Hp. rewrite jogTouch_paused by done.
    intros v. destruct (Htune v) as [Hset Htrack].
    split; [exact Hset |].
    unfold scrub, setValue, engine. simpl.
    rewrite scratch_calls_app, track_app. simpl.
    change (engine_log (ticked now u st)) with (engine_log st).
    rewrite Htrack. reflexivity.
Qed.

Lemma handle_in_tune st e : consistent st -> in_tune st -> in_tune (handle e st).
Proof.
  intros Hc Htune. unfold handle, jogWheel.
  destruct (e_wheel e); [now apply jogTouch_in_tune |].
  destruct (movement_of (e_value e) =? 0); [exact Htune |].
  destruct (get (e_unit e) (jogScratchActive st)); [now apply jogTouch_in_tune |].
  intros v. destruct (Htune v) as [Hset Htrack].
  split; [exact Hset |].
  unfold setValue, engine. simpl.
  rewrite scratch_calls_app, track_app, Htrack. reflexivity.
Qed.

Lemma scratch_calls_release v t :
  scratch_calls (deckIndex v) (release_calls [t])
  = if bool_decide (t_unit t = v) then [false] else [].
Proof.
  unfold release_calls. simpl. rewrite deckIndex_eqb.
  now destruct (bool_decide (t_unit t = v)).
Qed.

Lemma fire_in_tune st t :
  consistent st -> t ∈ timers st -> in_tune st -> in_tune (fire t st).
Proof.
  intros Hc Ht Htune.
  destruct (fire_spec t st Hc Ht) as (_ & Hidle & Hframe & _).
  destruct (timer_in_slot t st Hc Ht) as [Hslot _].
  intros v. destruct (Htune v) as [Hset Htrack].
  rewrite fire_log, scratch_calls_app, track_app, Htrack, scratch_calls_release.
  destruct (decide (t_unit t = v)) as [<- | Hv].
  - rewrite bool_decide_eq_true_2 by reflexivity.
    destruct Hidle as (Ha & Hm & Hs & _).
    assert (get (t_unit t) (jogScratchActive st) = true) as Hwas.
    { apply Hset. rewrite Hslot. now eexists. }
    rewrite Hwas, Ha. split; [| reflexivity].
    split; [congruence |]. rewrite Hs.
    split; intros H'; [congruence | destruct H' as [x Hx]; discriminate Hx].
  - rewrite bool_decide_eq_false_2 by exact Hv.
    assert (same_unit v st (fire t st)) as Hsame by (apply Hframe; congruence).
    split; [now apply (same_unit_settled v st) |].
    now destruct Hsame as (-> & _).
Qed.

Lemma init_in_tune c : in_tune (init c).
Proof.
  intros []; (split; [split; [reflexivity |] | reflexivity]);
    simpl; split; [discriminate | intros [x Hx]; discriminate
                  | discriminate | intros [x Hx]; discriminate].
Qed.

Lemma reachable c es :
  consistent (run es (init c)) /\ in_tune (run es (init c)).
Proof.
  apply (run_keeps in_tune).
  - intros st t. apply fire_in_tune.
  - intros st e. apply handle_in_tune.
  - apply init_consistent.
  - apply init_in_tune.
Qed.

(** X13. In every state the script reaches from load time, for each deck:
    the scratch-active flag and the deck's scratchMode flag are equal, the
    flag is set exactly while a release timer is recorded in the deck's
    slot, that timer is then the only armed timer of the deck, and no timer
    of the deck is armed otherwise. *)
Theorem scratch_flags_agree :
  forall (c : gmap (string * string) Q) (es : list event) (u : unit_id),
    let st := run es (init c) in
    get u (scratchMode st) = get u (jogScratchActive st) /\
    (get u (jogScratchActive st) = true ->
     exists h d, get u (jogReleaseTimer st) = Some h /\
                 unit_timers u st = [Timer h d u]) /\
    (get u (jogScratchActive st) = false ->
     get u (jogReleaseTimer st) = None /\ unit_timers u st = []).
Proof.
  intros c es u. cbv zeta.
  destruct (reachable c es) as [Hc Htune].
  destruct (Htune u) as [[Hmode Hslot] _].
  split; [exact Hmode |]. split.
  - intros Ha. apply Hslot in Ha as [h Hh].
    destruct (slot_timer u _ h Hc Hh) as (d & Hd & _). now exists h, d.
  - intros Ha.
    destruct (get u (jogReleaseTimer (run es (init c)))) as [h |] eqn:Hh.
    + assert (get u (jogScratchActive (run es (init c))) = true)
        by (apply Hslot; now eexists).
      congruence.
    + split; [reflexivity |].
      destruct Hc as (_ & _ & Hagree). specialize (Hagree u).
      unfold slot_agrees in Hagree. now rewrite Hh in Hagree.
Qed.

(** X14. Over every timeline from load time, the [scratchEnable] and
    [scratchDisable] calls made for one deck alternate, starting with an
    enable: scratch is never enabled on a deck where it is enabled nor
    disabled where it is not, and the engine's scratch mode after the calls
    made so far is the deck's scratch-active flag. *)
Theorem scratch_calls_alternate :
  forall (c : gmap (string * string) Q) (es : list event) (u : unit_id),
    let st := run es (init c) in
    track false (scratch_calls (deckIndex u) (engine_log st))
    = Some (get u (jogScratchActive st)).
Proof.
  intros c es u. cbv zeta. destruct (reachable c es) as [_ Htune]. apply Htune.
Qed.

End JogRuns.

(** ** Jog wheels: magnitudes *)

Section JogBounds.

Import Jog.
Local Open Scope Z_scope.

Lemma movement_of_midi v : 0 <= v <= 127 -> movement_of v = v - 64.
Proof.
  intros Hv. unfold movement_of, jogCenter.
  destruct (Z.ltb_spec 64 (v - 64)); [lia |].
  destruct (Z.ltb_spec (v - 64) (-64)); [lia | reflexivity].
Qed.

Lemma jogTouch_log_grows now value u st :
  movement_of value <> 0 ->
  (length (engine_log st) < length (engine_log (jogTouch now value u st)))%nat.
Proof.
  intros Hm. destruct (Qeq_bool (getValue (group u) "play" st) 1) eqn:Hp.
  - apply playing_test in Hp. rewrite jogTouch_playing by done.
    rewrite scratch_log. change (engine_log (ticked now u st)) with (engine_log st).
    rewrite !length_app. simpl. lia.
  - apply not_playing_test in Hp. rewrite jogTouch_paused by done.
    unfold scrub, setValue, engine. simpl. rewrite length_app. simpl. lia.
Qed.

(** X15. Of the raw values 0..127 only the centre value 64 is ignored: both
    wheel handlers then return the state as it is, timestamps and tick
    counter included; every other raw value makes at least one engine
    call. *)
Theorem jog_centre_only :
  forall (now value : Z) (u : unit_id) (st : State),
    0 <= value <= 127 ->
    (value = 64 ->
     jogTouch now value u st = st /\ jogWheel now value u st = st) /\
    (value <> 64 ->
     (length (engine_log st) < length (engine_log (jogTouch now value u st)))%nat /\
     (length (engine_log st) < length (engine_log (jogWheel now value u st)))%nat).
Proof.
  intros now value u st Hv. split.
  - intros ->. split; reflexivity.
  - intros Hne.
    assert (movement_of value <> 0) as Hm by (rewrite movement_of_midi; lia).
    split; [now apply jogTouch_log_grows |].
    unfold jogWheel. rewrite moving_test by done.
    destruct (get u (jogScratchActive st)); [now apply jogTouch_log_grows |].
    unfold setValue, engine. simpl. rewrite length_app. simpl. lia.
Qed.

Lemma jog_centre_only_witness :
  jogTouch 1000 64 Channel1 (init ∅) = init ∅ /\
  (length (engine_log (init ∅))
   < length (engine_log (jogWheel 1000 63 Channel2 (init ∅))))%nat.
Proof.
  destruct (jog_centre_only 1000 64 Channel1 (init ∅)) as [H64 _]; [lia |].
  destruct (jog_centre_only 1000 63 Channel2 (init ∅)) as [_ H63]; [lia |].
  split; [apply H64; reflexivity | apply H63; lia].
Defined.

Local Open Scope Q_scope.

Lemma effective_scaling_range n :
  1 <= (if (3 <? n)%Z then speedFactor n else 1) <= 5 # 4.
Proof.
  destruct (Z.ltb_spec 3 n) as [Hn | Hn].
  - rewrite speedFactor_at_cap by lia. split; discriminate.
  - split; discriminate.
Qed.

Lemma scrub_position_step pos m s :
  0 <= pos <= 1 -> (-64 <= m <= 64)%Z -> 1 <= s <= 5 # 4 ->
  let p := scrub_position pos m s in
  ((0 <= m)%Z -> pos <= p <= pos + (1 # 125)) /\
  ((m <= 0)%Z -> pos - (1 # 125) <= p <= pos).
Proof.
  intros Hpos [Hlo Hhi] Hs. cbv zeta.
  rewrite Zle_Qle in Hlo. rewrite Zle_Qle in Hhi.
  change (inject_Z (-64)) with (-64) in Hlo. change (inject_Z 64) with 64 in Hhi.
  unfold scrub_position, jogScrubScaling.
  destruct (Qlt_le_dec (pos + inject_Z m * s * (1 # 10000)) 0) as [H0 | H0];
    [destruct (Qlt_le_dec 1 0) as [H1 | H1]; [discriminate |]
    | destruct (Qlt_le_dec 1 (pos + inject_Z m * s * (1 # 10000))) as [H1 | H1]];
    (split; intros Hm; rewrite Zle_Qle in Hm;
     change (inject_Z 0) with 0 in Hm; nra).
Qed.

(** X16. One scrub event on a paused deck whose play position is in [0,1]
    moves the position in the direction of the rotation and by less than a
    hundredth of the track: a raw value above the centre never lowers the
    position, a raw value below it never raises it. (The largest step is
    64 x 1.25 x 0.0001; the bound stated leaves room for the rounding of the
    engine's floating-point numbers.) *)
Theorem scrub_step_bounded :
  forall (now value : Z) (u : unit_id) (st : State),
    (0 <= value <= 127)%Z ->
    value <> 64%Z ->
    ~ playing u st ->
    let pos := getValue (group u) "playposition" st in
    0 <= pos <= 1 ->
    exists p,
      engine_log (jogTouch now value u st)
      = engine_log st ++ [SetValue (group u) "playposition" p] /\
      ((64 < value)%Z -> pos <= p /\ p - pos < 1 # 100) /\
      ((value < 64)%Z -> p <= pos /\ pos - p < 1 # 100).
Proof.
  intros now value u st Hv Hne Hp pos Hpos.
  assert (movement_of value = (value - 64)%Z) as Hmv by now apply movement_of_midi.
  assert (movement_of value <> 0%Z) as Hm by lia.
  rewrite jogTouch_paused by done.
  eexists. split; [reflexivity |].
  change (getValue (group u) "playposition" (ticked now u st)) with pos.
  assert (get u (jogTickCount (ticked now u st)) = next_tick_count now u st)
    as Hn by (destruct u; reflexivity).
  rewrite Hn.
  pose proof (effective_scaling_range (next_tick_count now u st)) as Hs.
  destruct (scrub_position_step pos (movement_of value) _ Hpos
              ltac:(lia) Hs) as [Hup Hdown].
  split; intros Hdir.
  - assert (0 <= movement_of value)%Z as H0 by lia.
    specialize (Hup H0). split; lra.
  - assert (movement_of value <= 0)%Z as H0 by lia.
    specialize (Hdown H0). split; lra.
Qed.

Lemma scrub_step_bounded_witness :
  exists p,
    engine_log (jogTouch 1000 127 Channel1 (init ∅))
    = [SetValue "[Channel1]" "playposition" p] /\
    0 <= p /\ p - 0 < 1 # 100.
Proof.
  destruct (scrub_step_bounded 1000 127 Channel1 (init ∅)) as (p & Hlog & Hup & _).
  - lia.
  - lia.
  - intros H. discriminate H.
  - split; discriminate.
  - exists p. split; [exact Hlog |]. apply Hup. reflexivity.
Defined.

(** X17. One scratch tick on a playing deck hands the engine a movement of
    the sign of the rotation and of magnitude above 0 and at most 80: the
    raw movement of at most 64 ticks times a factor of at most 1.25. *)
Theorem scratch_tick_bounded :
  forall (now value : Z) (u : unit_id) (st : State),
    (0 <= value <= 127)%Z ->
    value <> 64%Z ->
    playing u st ->
    (0 <= get u (jogTickCount st))%Z ->
    exists delta,
      ScratchTick (deckIndex u) delta ∈ engine_log (jogTouch now value u st) /\
      ((64 < value)%Z -> 0 < delta <= 80) /\
      ((value < 64)%Z -> -80 <= delta < 0).
Proof.
  intros now value u st Hv Hne Hp Hc.
  assert (movement_of value = (value - 64)%Z) as Hmv by now apply movement_of_midi.
  assert (movement_of value <> 0%Z) as Hm by lia.
  rewrite jogTouch_playing by done.
  exists (inject_Z (movement_of value) * speedFactor (next_tick_count now u st)).
  split.
  - rewrite scratch_log, !elem_of_app. right. right. left.
    apply list_elem_of_singleton. reflexivity.
  - assert (1 <= next_tick_count now u st)%Z as Hn
      by (unfold next_tick_count; destruct (150 <? _)%Z; lia).
    pose proof (speedFactor_above_one _ Hn) as Hf1.
    pose proof (speedFactor_capped (next_tick_count now u st)) as Hf2.
    change jogMaxScaling with (125 # 100) in Hf2.
    assert (-64 <= inject_Z (movement_of value) <= 63) as [Hlo Hhi].
    { split; [change (-64) with (inject_Z (-64)) | change 63 with (inject_Z 63)];
        rewrite <- Zle_Qle; lia. }
    split; intros Hdir.
    + assert (1 <= inject_Z (movement_of value))
        by (change 1 with (inject_Z 1); rewrite <- Zle_Qle; lia).
      nra.
    + assert (inject_Z (movement_of value) <= -1)
        by (change (-1) with (inject_Z (-1)); rewrite <- Zle_Qle; lia).
      nra.
Qed.

Lemma scratch_tick_bounded_witness :
  exists delta,
    ScratchTick 1 delta
      ∈ engine_log (jogTouch 1000 0 Channel1
                      (init {[ ("[Channel1]"%string, "play"%string) := 1 ]})) /\
    -80 <= delta < 0.
Proof.
  destruct (scratch_tick_bounded 1000 0 Channel1
              (init {[ ("[Channel1]"%string, "play"%string) := 1 ]}))
    as (delta & Hin & _ & Hneg).
  - lia.
  - lia.
  - reflexivity.
  - simpl. lia.
  - exists delta. split; [exact Hin | apply Hneg; reflexivity].
Defined.

Local Open Scope Z_scope.

(** X18. Every scratch ends: once time has passed the due time of every
    armed release timer, no timer is armed and no deck is scratching, in
    whatever state the script was. *)
Theorem scratch_ends :
  forall (c : gmap (string * string) Q) (es : list event) (now : Z),
    let st := run es (init c) in
    (forall t, t ∈ timers st -> t_due t <= now) ->
    let st' := advance now st in
    timers st' = [] /\
    forall u,
      get u (jogScratchActive st') = false /\
      get u (scratchMode st') = false /\
      get u (jogReleaseTimer st') = None.
Proof.
  intros c es now st Hdue st'.
  destruct (reachable c es) as [Hc Htune]. fold st in Hc, Htune.
  destruct (advance_spec now st Hc) as (Hc' & _ & Hsame & Hfired).
  fold st' in Hc', Hsame, Hfired.
  assert (forall u, get u (jogScratchActive st') = false /\
                    get u (scratchMode st') = false /\
                    get u (jogReleaseTimer st') = None) as Hall.
  { intros u. destruct (Htune u) as [[Hmode Hslot] _].
    destruct (get u (jogReleaseTimer st)) as [h |] eqn:Hh.
    - destruct (slot_timer u st h Hc Hh) as (d & Hd & Hin).
      destruct (Hfired u (Timer h d u)) as [(Ha & Hm & Hs & _) _].
      + rewrite Hd. left.
      + now apply Hdue.
      + auto.
    - assert (unit_timers u st = []) as Hnone.
      { destruct Hc as (_ & _ & Hagree). specialize (Hagree u).
        unfold slot_agrees in Hagree. now rewrite Hh in Hagree. }
      destruct (Hsame u) as (A1 & A2 & A3 & _).
      { intros t Ht. rewrite Hnone in Ht. now apply elem_of_nil in Ht. }
      rewrite A1, A2, A3, Hmode.
      assert (get u (jogScratchActive st) = false) as Ha.
      { destruct (get u (jogScratchActive st)); [| reflexivity].
        destruct Hslot as [Hslot _]. destruct (Hslot eq_refl) as [x Hx].
        discriminate. }
      auto. }
  split; [| exact Hall].
  destruct (timers st') as [| t ts] eqn:Ht; [reflexivity |].
  assert (t ∈ timers st') as Hin by (rewrite Ht; left).
  destruct (timer_in_slot t st' Hc' Hin) as [Hslot _].
  destruct (Hall (t_unit t)) as (_ & _ & Hnone). congruence.
Qed.

Lemma scratch_ends_witness :
  let st := run [Event 0 Touch 65 Channel1; Event 20 Touch 70 Channel2]
                (init {[ ("[Channel1]"%string, "play"%string) := 1%Q;
                         ("[Channel2]"%string, "play"%string) := 1%Q ]}) in
  timers (advance 70 st) = [] /\
  get Channel2 (jogScratchActive (advance 70 st)) = false.
Proof.
  destruct (scratch_ends
              {[ ("[Channel1]"%string, "play"%string) := 1%Q;
                 ("[Channel2]"%string, "play"%string) := 1%Q ]}
              [Event 0 Touch 65 Channel1; Event 20 Touch 70 Channel2] 70)
    as [Hnone Hall].
  - intros t Ht. vm_compute in Ht.
    repeat (apply elem_of_cons in Ht as [-> | Ht]; [simpl; lia |]).
    now apply elem_of_nil in Ht.
  - split; [exact Hnone | apply Hall].
Defined.

End JogBounds.

(** ** The sync button: tap or hold *)

Section SyncButton.

Import Transport.
Local Open Scope Z_scope.

Lemma sync_press_rest t0 von u st :
  isButtonOn von = true -> shiftActive st = false -> sync_off u st ->
  sync_input t0 von u st
  = {| shiftActive := false;
       longPressTimer := upd u (next_handle st) (longPressTimer st);
       controls := controls st;
       timers := timers st ++ [Timer (next_handle st) (t0 + 1000) u];
       next_handle := next_handle st + 1;
       engine_log := engine_log st ++ [BeginTimer 1000 (next_handle st)] |}.
Proof.
  intros Hon Hs Hoff. unfold sync_input, sync_off in *.
  rewrite Hon, Hs, Hoff. unfold beginTimer, set_longPressTimer, engine.
  cbn [shiftActive longPressTimer controls timers next_handle engine_log].
  rewrite Hs. reflexivity.
Qed.

Lemma upd_rest u (p : PerDeck Z) :
  (forall v, get v p = 0) -> forall v, get v (upd u 0 p) = 0.
Proof.
  intros Hp v. pose proof (Hp Channel1). pose proof (Hp Channel2).
  destruct u, v; simpl in *; congruence.
Qed.

Lemma upd_upd {A} u (x y : A) p : upd u x (upd u y p) = upd u x p.
Proof. now destruct u. Qed.

(** X19. From rest, with shift off and the sync lock of the deck off, a
    press and release of the sync button does exactly one of two things: a
    release within one second stops the long-press timer and triggers one
    beatsync, leaving the sync lock off; a release after one second or more
    finds the timer fired, the sync lock on, and triggers no beatsync. The
    shift state at the release makes no difference, and either way nothing
    stays armed. *)
Theorem sync_tap_or_hold :
  forall (t0 t1 von voff : Z) (b : bool) (u : unit_id) (st : State),
    isButtonOn von = true ->
    isButtonOn voff = false ->
    at_rest st ->
    shiftActive st = false ->
    sync_off u st ->
    let h := next_handle st in
    let pressed := sync_input t0 von u st in
    let released :=
      sync_input t1 voff u (set_shiftActive b (advance t1 pressed)) in
    (t1 < t0 + 1000 ->
     engine_log released
     = engine_log st
       ++ [BeginTimer 1000 h; StopTimer h; SetValue (group u) "beatsync" 1]
     /\ sync_off u released) /\
    (t0 + 1000 <= t1 ->
     engine_log released
     = engine_log st
       ++ [BeginTimer 1000 h; SetValue (group u) "sync_enabled" 1]
     /\ getValue (group u) "sync_enabled" released = 1%Q) /\
    at_rest released.
Proof.
  intros t0 t1 von voff b u st Hon Hoff (Ht & Hn & Hl) Hs Hsync h pressed released.
  subst pressed released h.
  rewrite (sync_press_rest t0 von u st) by assumption. rewrite Ht. simpl app.
  unfold advance. cbn [timers].
  destruct (Z_lt_le_dec t1 (t0 + 1000)) as [Hearly | Hlate].
  - rewrite filter_cons_False by (simpl; lia). rewrite filter_nil.
    cbn [foldl]. unfold sync_input. rewrite Hoff.
    cbn [set_shiftActive longPressTimer]. rewrite get_upd.
    replace (next_handle st =? 0) with false by (symmetry; apply Z.eqb_neq; lia).
    cbn [negb]. split; [| split].
    + intros _. split.
      * simpl. rewrite <- !app_assoc. reflexivity.
      * unfold sync_off, getValue in *. simpl.
        rewrite lookup_insert_ne; [exact Hsync |].
        destruct u; simpl; congruence.
    + intros Hge. lia.
    + split; [| split].
      * simpl. rewrite filter_cons_False; [reflexivity |].
        simpl. intros Hne. now apply Hne.
      * simpl. lia.
      * simpl. rewrite upd_upd. now apply upd_rest.
  - rewrite filter_cons_True by (simpl; lia). rewrite filter_nil.
    cbn [foldl]. unfold fire, long_press. cbn [t_unit t_handle timers].
    rewrite filter_cons_False by (simpl; intros Hne; now apply Hne).
    rewrite filter_nil.
    unfold sync_input. rewrite Hoff. simpl. rewrite upd_upd, get_upd. simpl.
    split; [| split].
    + intros Hlt. lia.
    + intros _. split.
      * rewrite <- !app_assoc. reflexivity.
      * unfold getValue. simpl. now rewrite lookup_insert_eq.
    + split; [reflexivity | split; [simpl; lia |]].
      simpl. now apply upd_rest.
Qed.

Lemma sync_tap_or_hold_witness :
  engine_log
    (sync_input 400 0 Channel1
       (set_shiftActive true
          (advance 400 (sync_input 0 127 Channel1 (init ∅)))))
  = [BeginTimer 1000 1; StopTimer 1; SetValue "[Channel1]" "beatsync" 1].
Proof.
  assert (at_rest (init ∅)) as Hrest.
  { split; [reflexivity | split; [reflexivity | intros []; reflexivity]]. }
  pose proof (sync_tap_or_hold 0 400 127 0 true Channel1 (init ∅)
                eq_refl eq_refl Hrest eq_refl eq_refl) as H.
  cbv zeta in H. destruct H as (Htap & _ & _).
  apply Htap. lia.
Defined.

End SyncButton.

(** ** The keylock button: cycling the pitch range *)

Section Keylock.

Import Transport.
Local Open Scope Q_scope.

Lemma Qeq_bool_congr a x y : x == y -> Qeq_bool a x = Qeq_bool a y.
Proof.
  intros Hxy. destruct (Qeq_bool a y) eqn:Hy.
  - apply Qeq_bool_iff in Hy. apply Qeq_bool_iff. now rewrite Hxy.
  - destruct (Qeq_bool a x) eqn:Hx; [| reflexivity].
    apply Qeq_bool_iff in Hx. rewrite Hxy in Hx.
    apply Qeq_bool_iff in Hx. congruence.
Qed.

Lemma next_range_proper x y : x == y -> next_range x = next_range y.
Proof.
  intros Hxy. unfold next_range, indexOf, ranges. cbn [indexOf_from].
  now rewrite !(Qeq_bool_congr _ x y Hxy).
Qed.

Lemma next_range_listed x :
  exists r, next_range x = Some r /\ r ∈ ranges.
Proof.
  unfold next_range, indexOf, ranges. cbn [indexOf_from].
  destruct (Qeq_bool (6 # 100) x);
    [| destruct (Qeq_bool (10 # 100) x);
       [| destruct (Qeq_bool (24 # 100) x);
          [| destruct (Qeq_bool (50 # 100) x)]]];
    eexists; (split; [vm_compute; reflexivity |]);
    repeat ((now left) || right).
Qed.

Lemma next_range_unlisted x :
  (forall r, r ∈ ranges -> ~ x == r) -> next_range x = Some (6 # 100).
Proof.
  intros Hno.
  assert (forall r, r ∈ ranges -> Qeq_bool r x = false) as Hf.
  { intros r Hr. destruct (Qeq_bool r x) eqn:E; [| reflexivity].
    apply Qeq_bool_iff in E. destruct (Hno r Hr). now symmetry. }
  unfold next_range, indexOf. unfold ranges at 1 2. cbn [indexOf_from].
  rewrite !Hf by (unfold ranges; repeat ((now left) || right)).
  reflexivity.
Qed.

Lemma range_press value u st :
  isButtonOn value = true ->
  getValue (group u) "rateRange" (keylock_shiftedInput value u st)
  = range_after (getValue (group u) "rateRange" st).
Proof.
  intros Hon. unfold keylock_shiftedInput, range_after. rewrite Hon. cbn [negb].
  destruct (next_range _) as [r |]; [| reflexivity].
  unfold getValue at 1. unfold setValue, engine. cbn [controls].
  now rewrite lookup_insert_eq.
Qed.

(** X20. A shifted keylock press always leaves one of the four pitch ranges
    6%, 10%, 24%, 50%: from a listed range the next one in that order, the
    last one wrapping to the first, and from any other range 6%. From then
    on four more presses come back to the same range. *)
Theorem rate_range_cycles :
  forall (value : Z) (u : unit_id) (st : State),
    isButtonOn value = true ->
    let press := keylock_shiftedInput value u in
    let range := getValue (group u) "rateRange" in
    range (press st) ∈ ranges /\
    (forall (i : nat) (r : Q),
        ranges !! i = Some r -> range st == r ->
        ranges !! ((i + 1) mod 4)%nat = Some (range (press st))) /\
    ((forall r, r ∈ ranges -> ~ range st == r) -> range (press st) = 6 # 100) /\
    range (press (press (press (press (press st))))) = range (press st).
Proof.
  intros value u st Hon press range. subst press range. cbv beta.
  rewrite !range_press by assumption.
  generalize (getValue (group u) "rateRange" st). intros x.
  destruct (next_range_listed x) as (r & Hr & Hin).
  assert (range_after x = r) as Hx by (unfold range_after; now rewrite Hr).
  split; [now rewrite Hx |]. split; [| split].
  - intros i r0 Hi Heq. unfold range_after.
    rewrite (next_range_proper x r0 Heq).
    destruct i as [| [| [| [| i]]]]; simpl in Hi; try discriminate;
      injection Hi as <-; reflexivity.
  - intros Hno. unfold range_after. now rewrite next_range_unlisted.
  - rewrite Hx. unfold ranges in Hin.
    repeat (apply elem_of_cons in Hin as [-> | Hin]; [reflexivity |]).
    now apply elem_of_nil in Hin.
Qed.

Lemma rate_range_cycles_witness :
  getValue "[Channel2]" "rateRange"
    (keylock_shiftedInput 127 Channel2
       (init {[ ("[Channel2]"%string, "rateRange"%string) := 8 # 100 ]}))
  = 6 # 100.
Proof.
  pose proof (rate_range_cycles 127 Channel2
                (init {[ ("[Channel2]"%string, "rateRange"%string) := 8 # 100 ]})
                eq_refl) as H.
  cbv zeta in H. destruct H as (_ & _ & Hno & _).
  apply Hno. intros r Hr Heq. unfold ranges in Hr.
  repeat (apply elem_of_cons in Hr as [-> | Hr]; [discriminate Heq |]).
  now apply elem_of_nil in Hr.
Defined.

End Keylock.

(** ** The sampler pads *)

Section SamplerPads.

Import Transport.
Local Open Scope Z_scope.

Lemma samplerMidiMap_range control n :
  samplerMidiMap control = Some n -> 1 <= n <= 8.
Proof.
  unfold samplerMidiMap. repeat case_match; intros [= <-]; lia.
Qed.

(** X21. A sampler pad makes at most one engine write per event, none on a
    release or an unmapped note, and only to the sampler of the pad. With
    shift active the only write it can make is an eject of a loaded
    sampler; playback is started or stopped only without shift and only on
    a sampler that is not empty. *)
Theorem sampler_pad_writes :
  forall (control value : Z) (st : State),
    exists calls,
      engine_log (samplerPlayButtonGeneric control value st)
      = engine_log st ++ calls /\
      (length calls <= 1)%nat /\
      forall c, c ∈ calls ->
        isButtonOn value = true /\
        exists n key v,
          samplerMidiMap control = Some n /\ 1 <= n <= 8 /\
          c = SetValue (sampler_group n) key v /\
          let loaded := getValue (sampler_group n) "track_loaded" st in
          (shiftActive st = true -> key = "eject"%string /\ (loaded == 1)%Q) /\
          (key = "play"%string \/ key = "cue_gotoandplay"%string ->
           shiftActive st = false /\ ~ (loaded == 0)%Q).
Proof.
  intros control value st. unfold samplerPlayButtonGeneric.
  destruct (samplerMidiMap control) as [n |] eqn:Hmap;
    [| exists []; rewrite app_nil_r; split; [reflexivity | split; [simpl; lia |]];
       intros c Hc; now apply elem_of_nil in Hc].
  pose proof (samplerMidiMap_range _ _ Hmap) as Hn.
  replace (n =? 0) with false by (symmetry; apply Z.eqb_neq; lia).
  destruct (isButtonOn value) eqn:Hon; cbn [negb];
    [| exists []; rewrite app_nil_r; split; [reflexivity | split; [simpl; lia |]];
       intros c Hc; now apply elem_of_nil in Hc].
  destruct (shiftActive st) eqn:Hs.
  - destruct (Qeq_bool _ 1) eqn:Hl;
      [| exists []; rewrite app_nil_r; split; [reflexivity | split; [simpl; lia |]];
         intros c Hc; now apply elem_of_nil in Hc].
    eexists. split; [reflexivity |]. split; [simpl; lia |].
    intros c Hc. apply list_elem_of_singleton in Hc as ->.
    split; [reflexivity |]. exists n, "eject"%string, 1%Q.
    split; [reflexivity |]. split; [lia |]. split; [reflexivity |].
    cbv zeta. split.
    + intros _. split; [reflexivity | now apply Qeq_bool_iff].
    + intros [Hk | Hk]; discriminate Hk.
  - destruct (Qeq_bool _ 0) eqn:Hl.
    + eexists. split; [reflexivity |]. split; [simpl; lia |].
      intros c Hc. apply list_elem_of_singleton in Hc as ->.
      split; [reflexivity |]. exists n, "LoadSelectedTrack"%string, 1%Q.
      split; [reflexivity |]. split; [lia |]. split; [reflexivity |].
      cbv zeta. split; [intros Hk; discriminate Hk |].
      intros [Hk | Hk]; discriminate Hk.
    + assert (~ (getValue (sampler_group n) "track_loaded" st == 0)%Q) as Hne.
      { intros Heq. apply Qeq_bool_iff in Heq. congruence. }
      unfold playButton_input. rewrite Hon. cbn [negb].
      destruct (truthy _).
      * eexists. split; [reflexivity |]. split; [simpl; lia |].
        intros c Hc. apply list_elem_of_singleton in Hc as ->.
        split; [reflexivity |]. exists n, "play"%string, 0%Q.
        split; [reflexivity |]. split; [lia |]. split; [reflexivity |].
        cbv zeta. split; [intros Hk; discriminate Hk |].
        intros _. split; [reflexivity | exact Hne].
      * eexists. split; [reflexivity |]. split; [simpl; lia |].
        intros c Hc. apply list_elem_of_singleton in Hc as ->.
        split; [reflexivity |]. exists n, "cue_gotoandplay"%string, 1%Q.
        split; [reflexivity |]. split; [lia |]. split; [reflexivity |].
        cbv zeta. split; [intros Hk; discriminate Hk |].
        intros _. split; [reflexivity | exact Hne].
Qed.

Lemma playButton_output_own n value led c d :
  leds_defined ("sampler" +:+ pretty n) = true ->
  Led.LED_MAP_get ("sampler" +:+ pretty n)
  = Led.OwnDef {| Led.code := c; Led.decks := [d] |} ->
  sampler_deckNumber n = d ->
  d <> 0 ->
  playButton_output n value led
  = Led.Returns (Led.send d (Led.Code c)
                          (if value then Led.LED_ON else Led.LED_OFF) led) /\
  playButton_output n value led
  = Led.reflect ("sampler" +:+ pretty n) value None led.
Proof.
  intros Hdefined Hown Hdeck Hd. unfold playButton_output.
  rewrite Hdefined. unfold Led.reflect, Led.set.
  rewrite !(write_led_own _ _ _ _ _ Hown). unfold Led.def_writes, Led.opts_deck.
  rewrite Hdeck. replace (d =? 0) with false by (symmetry; now apply Z.eqb_neq).
  cbn [Led.decks Led.code map Led.apply_sends foldl].
  now destruct value.
Qed.

(** X22. For each of the eight samplers the deck its play LED is written
    for is the deck the LED table assigns to its name: the output handler
    makes one cached write to that deck, the same write it would make
    without naming a deck. *)
Theorem sampler_led_deck :
  forall (n : Z) (value : bool) (led : Led.State),
    1 <= n <= 8 ->
    exists c,
      Led.own_property ("sampler" +:+ pretty n) Led.LED_MAP
      = Some {| Led.code := c; Led.decks := [sampler_deckNumber n] |} /\
      playButton_output n value led
      = Led.Returns
          (Led.send (sampler_deckNumber n) (Led.Code c)
                    (if value then Led.LED_ON else Led.LED_OFF) led) /\
      playButton_output n value led
      = Led.reflect ("sampler" +:+ pretty n) value None led.
Proof.
  intros n value led Hn.
  assert (n = 1 \/ n = 2 \/ n = 3 \/ n = 4 \/ n = 5 \/ n = 6 \/ n = 7 \/ n = 8)
    as Hcases by lia.
  destruct Hcases as [-> | [-> | [-> | [-> | [-> | [-> | [-> | ->]]]]]]];
    eexists; (split; [vm_compute; reflexivity |]);
    apply playButton_output_own; vm_compute; (reflexivity || discriminate).
Qed.

Lemma sampler_led_deck_witness :
  playButton_output 7 true Led.init
  = Led.Returns
      {| Led.cache := {[ "2|69"%string := 0x4A ]};
         Led.midi_out := [Led.MidiMsg 0xB1 0x4A (Led.Code 69)] |}.
Proof.
  destruct (sampler_led_deck 7 true Led.init) as (c & Hdef & Hout & _); [lia |].
  vm_compute in Hdef. injection Hdef as <-. rewrite Hout. reflexivity.
Defined.

End SamplerPads.

(** ** The sample-mode LED *)

Section SampleModeLed.

Import SampleMode.
Local Open Scope Z_scope.

Lemma deckNumber_inj u v : deckNumber u = deckNumber v -> u = v.
Proof. destruct u, v; vm_compute; congruence. Qed.

Lemma output_cache value u l k :
  Led.cache (output value u l) !! k
  = if String.eqb (Led.key (deckNumber u) (Led.Code 0x1A)) k
    then Some (if value then Led.LED_ON else Led.LED_OFF)
    else Led.cache l !! k.
Proof.
  unfold output, Led.reflect.
  rewrite (set_own_deck "samplemode"
             {| Led.code := 0x1A; Led.decks := [1; 2] |})
    by (reflexivity || (destruct u; vm_compute; discriminate)).
  cbn [Led.state_after Led.code]. rewrite cache_send.
  now destruct value.
Qed.

Lemma output_shown value u sm l :
  shown u {| sampleMode := upd u value sm; led := output value u l |}.
Proof.
  unfold shown. cbn [led sampleMode]. rewrite output_cache, get_upd.
  now rewrite String.eqb_refl.
Qed.

Lemma output_other value u v sm sm' l :
  u <> v -> get v sm' = get v sm ->
  shown v {| sampleMode := sm; led := l |} ->
  shown v {| sampleMode := sm'; led := output value u l |}.
Proof.
  intros Hne Hsm Hv. unfold shown in *. cbn [led sampleMode] in *.
  rewrite output_cache, Hsm.
  destruct (String.eqb_spec (Led.key (deckNumber u) (Led.Code 0x1A))
                            (Led.key (deckNumber v) (Led.Code 0x1A)))
    as [Hk | _]; [| exact Hv].
  apply key_inj in Hk as [Hd _]. now apply deckNumber_inj in Hd.
Qed.

Lemma input_shown value u st :
  (forall v, shown v st) -> forall v, shown v (input value u st).
Proof.
  intros Hall v. unfold input.
  destruct (negb (isButtonOn value)); [apply Hall |].
  destruct (decide (u = v)) as [<- | Hne]; [apply output_shown |].
  apply (output_other _ u v (sampleMode st));
    [exact Hne | now apply get_upd_ne |].
  specialize (Hall v). now destruct st.
Qed.

Lemma built_shown l : forall v, shown v (built l).
Proof.
  intros v. unfold built, connect. cbn [sampleMode led both].
  destruct v.
  - apply (output_other false Channel2 Channel1 (both false) (both false));
      [discriminate | reflexivity |].
    apply (output_shown false Channel1 (both false)).
  - apply (output_shown false Channel2 (both false)).
Qed.

(** X23. Once the components are built, whatever the LED cache held before,
    the cache entry of each deck's sample-mode LED is ON while the deck's
    sample mode is set and OFF while it is not, through every run of
    sample-mode button events on either deck. *)
Theorem sample_mode_shown :
  forall (l : Led.State) (es : list (Z * unit_id)) (u : unit_id),
    shown u (run es (built l)).
Proof.
  intros l es. unfold run. generalize (built_shown l). generalize (built l).
  induction es as [| [value v] es IH]; intros st Hst; [exact Hst |].
  simpl. apply IH. now apply input_shown.
Qed.

End SampleModeLed.
